(** * Spicy Pickle: bundle inventory sync and pick lists

    A shallow embedding of the two service modules of the repository,

    - the inventory sync service (availability calculator, sync locks,
      bundle lookup, [processInventoryUpdate]), and
    - the pick list service ([aggregateItems], [exportToCSV]),

    together with the properties their specification states about them.

    Conventions of the embedding.

    - A JavaScript [number] that holds a stock level, a quantity, a
      numeric id or a millisecond timestamp is an integer of [Z].  The
      arithmetic the services perform on such values ([+], [-], [*],
      [Math.floor (a / b)], [Math.min]) and their conversion to a string
      are those of [Z] as long as the operands and the result are safe
      integers (below 2^53 in absolute value, [safeInteger]).  A theorem
      whose conclusion depends on the value of such a computation states
      that bound as a hypothesis.
    - A JavaScript string is a [string]; [null]/[undefined] is [None].
    - A thrown [Error] is the [Throw] branch of [result]; [async]
      functions are functions in a state-and-exception monad over the world
      (database tables, the remote shop and the wall clock).
    - A JavaScript [Map] keeps its entries in insertion order, so it is an
      association list ([JsMap]).
    - [console.log]/[console.error] calls have no effect on any value that
      is returned or stored and are left out.

    Part I holds the embedding, Part II the lemmas and theorems. *)

From Stdlib Require Import ZArith List Bool Lia.
From Stdlib Require Import Strings.String Strings.Ascii Numbers.DecimalString.
From Stdlib Require Import Sorting.Permutation Sorting.Sorted.
Import ListNotations.

Open Scope string_scope.
Open Scope Z_scope.

(* ========================================================================= *)
(** * Part I: the embedding *)
(* ========================================================================= *)

(* ------------------------------------------------------------------------- *)
(** ** Exceptions *)

(** [new Error(message)]. *)
Inductive exn : Type :=
| JsError (message : string).

Inductive result (A : Type) : Type :=
| Ok (a : A)
| Throw (e : exn).

Arguments Ok {A} a.
Arguments Throw {A} e.

Definition rbind {A B : Type} (r : result A) (k : A -> result B) : result B :=
  match r with
  | Ok a => k a
  | Throw e => Throw e
  end.

(** [xs.map(f)] for a callback that may throw: elements are visited from
    left to right and the first exception aborts the traversal. *)
Fixpoint rmap {A B : Type} (f : A -> result B) (xs : list A) : result (list B) :=
  match xs with
  | [] => Ok []
  | x :: rest =>
      rbind (f x) (fun y => rbind (rmap f rest) (fun ys => Ok (y :: ys)))
  end.

(* ------------------------------------------------------------------------- *)
(** ** JavaScript values *)

(** [Number.MAX_SAFE_INTEGER], 2^53 - 1. *)
Definition MAX_SAFE_INTEGER : Z := 9007199254740991.

(** [Number.isSafeInteger(z)].  On safe integers with a safe result the
    operations of the code on doubles agree with those of [Z]: sums,
    differences and products are exact, [Math.floor(a / b)] is the floor of
    the exact quotient, and [String(n)] prints the decimal digits. *)
Definition safeInteger (z : Z) : Prop := Z.abs z <= MAX_SAFE_INTEGER.

(** The sum of the absolute values of a list of numbers: a bound on every
    partial sum, in any order and grouping. *)
Definition magnitude (zs : list Z) : Z := fold_right Z.add 0 (map Z.abs zs).

(** [String(n)] and template interpolation of an integer: its decimal
    digits, as [String] prints a safe integer (above 2^53 [String] shortens
    the digits, and from 10^21 on it uses exponent notation). *)
Definition string_of_Z (z : Z) : string := NilZero.string_of_int (Z.to_int z).

(** Truthiness of a string: only the empty string is falsy. *)
Definition truthy (s : string) : bool := negb (s =? "")%string.

(** [a ?? b]. *)
Definition nullish {A : Type} (a : option A) (b : A) : A :=
  match a with
  | Some x => x
  | None => b
  end.

Definition QUOTE : ascii := ascii_of_nat 34.
Definition NEWLINE : ascii := ascii_of_nat 10.
Definition COMMA : ascii := ascii_of_nat 44.

Definition char (c : ascii) : string := String c EmptyString.

(** [value.includes(search)]. *)
Fixpoint includes (value search : string) : bool :=
  String.prefix search value
  || match value with
     | EmptyString => false
     | String _ rest => includes rest search
     end.

(** [value.replace(/c/g, by)] for a one-character pattern. *)
Fixpoint replaceAll (value : string) (c : ascii) (by_ : string) : string :=
  match value with
  | EmptyString => EmptyString
  | String a rest =>
      if Ascii.eqb a c then (by_ ++ replaceAll rest c by_)%string
      else String a (replaceAll rest c by_)
  end.

(** Consecutive slices [xs.slice(i, i + size)] for [i = 0, size, 2*size, ...]
    while [i < xs.length]: the batches of the two [for] loops of the sync
    service.  The fuel bounds the number of iterations; [length xs] is
    always enough because every slice taken is non-empty. *)
Fixpoint slices {A : Type} (fuel : nat) (size : nat) (xs : list A)
  : list (list A) :=
  match fuel with
  | O => []
  | S fuel' =>
      match xs with
      | [] => []
      | _ => firstn size xs :: slices fuel' size (skipn size xs)
      end
  end.

Definition batches {A : Type} (size : nat) (xs : list A) : list (list A) :=
  slices (List.length xs) size xs.

(** [Map<string, V>]: an association list in insertion order.  [set] on a
    key that is present replaces the value in place, otherwise the entry is
    appended. *)
Module JsMap.

Definition t (V : Type) : Type := list (string * V).

Definition empty {V : Type} : t V := [].

Fixpoint get {V : Type} (m : t V) (key : string) : option V :=
  match m with
  | [] => None
  | (k, v) :: rest => if (k =? key)%string then Some v else get rest key
  end.

Fixpoint set {V : Type} (m : t V) (key : string) (value : V) : t V :=
  match m with
  | [] => [(key, value)]
  | (k, v) :: rest =>
      if (k =? key)%string then (k, value) :: rest
      else (k, v) :: set rest key value
  end.

Definition keys {V : Type} (m : t V) : list string := map fst m.

Definition values {V : Type} (m : t V) : list V := map snd m.

End JsMap.

(** [[...new Set(xs)]]: the distinct elements in order of first occurrence. *)
Definition uniqueStrings (xs : list string) : list string :=
  fold_left
    (fun seen x => if existsb (String.eqb x) seen then seen else (seen ++ [x])%list)
    xs [].

(* ------------------------------------------------------------------------- *)
(** ** Types of the inventory sync service *)

Module InventoryUpdateEvent.
Record t : Type := mk {
  inventoryItemId : Z;
  locationId : Z;
  available : Z;
  shop : string
}.
End InventoryUpdateEvent.

Module BundleChild.
Record t : Type := mk {
  id : string;
  childGid : string;
  quantity : Z
}.
End BundleChild.

(** [BundleWithChildren]. *)
Module Bundle.
Record t : Type := mk {
  id : string;
  shopId : string;
  name : string;
  parentGid : string;
  children : list BundleChild.t
}.
End Bundle.

Module InventoryAdjustment.
Record t : Type := mk {
  inventoryItemId : string;
  locationId : string;
  delta : Z
}.
End InventoryAdjustment.

Module SyncResult.
Record t : Type := mk {
  processed : bool;
  bundlesAffected : Z;
  adjustmentsMade : Z;
  skipped : option string;
  error : option string
}.
End SyncResult.

(** A row of the [SyncLock] table.  Its [createdAt] column is filled by the
    store and never read by the service. *)
Module SyncLock.
Record t : Type := mk {
  id : string;
  bundleId : string;
  expiresAt : Z
}.

(** The filter [{ expiresAt: { lt: now } }]. *)
Definition expired (now : Z) (l : t) : bool := expiresAt l <? now.
End SyncLock.

(** The element type of the argument of [calculateMixedBundleAvailability]. *)
Module Component.
Record t : Type := mk {
  stock : Z;
  quantity : Z
}.
End Component.

(* ------------------------------------------------------------------------- *)
(** ** Core calculation functions *)

Definition MULTIPLIER_MESSAGE : string := "Multiplier must be a positive number".
Definition QUANTITY_MESSAGE : string :=
  "Component quantity must be a positive number".

(** [Math.floor(physicalStock / multiplier)]; for a positive divisor [Z.div]
    rounds towards minus infinity, as [Math.floor] does, and for safe
    integers the floor of the rounded quotient of the code is the floor of
    the exact one. *)
Definition calculateBundleAvailability (physicalStock multiplier : Z)
  : result Z :=
  if multiplier <=? 0 then Throw (JsError MULTIPLIER_MESSAGE)
  else Ok (physicalStock / multiplier).

(** The callback passed to [components.map]; the quotient as in
    [calculateBundleAvailability], for safe integers. *)
Definition componentAvailability (component : Component.t) : result Z :=
  if Component.quantity component <=? 0 then Throw (JsError QUANTITY_MESSAGE)
  else Ok (Component.stock component / Component.quantity component).

(** [Math.min(first, ...rest)]. *)
Definition Math_min (first : Z) (rest : list Z) : Z :=
  fold_left Z.min rest first.

Definition calculateMixedBundleAvailability (components : list Component.t)
  : result Z :=
  match components with
  | [] => Ok 0
  | component :: others =>
      rbind (componentAvailability component) (fun a =>
      rbind (rmap componentAvailability others) (fun rest =>
      Ok (Math_min a rest)))
  end.

(** The per-component floor divisions of a component list, used to state
    what the mixed calculator returns. *)
Definition quotients (cs : list Component.t) : list Z :=
  map (fun c => Component.stock c / Component.quantity c) cs.

(* ------------------------------------------------------------------------- *)
(** ** The world: database tables and the environment *)

(** A node of the [getInventoryLevels] response: [node?.id] and
    [node?.inventoryLevel?.quantities], the latter a list of
    [(name, quantity)] pairs. *)
Module LevelNode.
Record t : Type := mk {
  id : option string;
  quantities : option (list (string * Z))
}.
End LevelNode.

(** The [input] variable of the [inventoryAdjustQuantities] mutation. *)
Module AdjustInput.
Record t : Type := mk {
  reason : string;
  name : string;
  changes : list InventoryAdjustment.t
}.
End AdjustInput.

(** Everything outside the process: the shop behind [admin.graphql] and the
    wall clock.  Each field is one of the requests the service issues, with
    the part of the response it reads; a request may throw and may change
    the environment. *)
Class Environment (Env : Type) : Type := {
  (** [Date.now()] / [new Date().getTime()]. *)
  dateNow : Env -> Z * Env;
  (** query [getVariantFromInventoryItem]:
      [data.data?.inventoryItem?.variant?.id]. *)
  queryVariantFromInventoryItem : string -> Env -> result (option string) * Env;
  (** query [getVariantInventoryItem]:
      [data.data?.productVariant?.inventoryItem?.id]. *)
  queryVariantInventoryItem : string -> Env -> result (option string) * Env;
  (** query [getInventoryLevels] with [ids] and [locationId]:
      [data.data?.nodes]. *)
  queryInventoryLevels :
    list string -> string -> Env -> result (option (list LevelNode.t)) * Env;
  (** mutation [adjustInventory]; its response is only logged. *)
  mutateAdjustInventory : AdjustInput.t -> Env -> result unit * Env
}.

Record World (Env : Type) : Type := mkWorld {
  syncLocks : list SyncLock.t;
  bundles : list Bundle.t;
  env : Env
}.

Arguments mkWorld {Env} syncLocks bundles env.
Arguments syncLocks {Env} w.
Arguments bundles {Env} w.
Arguments env {Env} w.

(** The monad of [async] functions. *)
Definition M (Env A : Type) : Type := World Env -> result A * World Env.

Definition ret {Env A : Type} (a : A) : M Env A := fun w => (Ok a, w).

Definition bind {Env A B : Type} (m : M Env A) (k : A -> M Env B) : M Env B :=
  fun w =>
    match m w with
    | (Ok a, w') => k a w'
    | (Throw e, w') => (Throw e, w')
    end.

(** [try { body } catch { handler }]. *)
Definition try_catch {Env A : Type} (body : M Env A) (handler : exn -> M Env A)
  : M Env A :=
  fun w =>
    match body w with
    | (Ok a, w') => (Ok a, w')
    | (Throw e, w') => handler e w'
    end.

(** [try { body } finally { cleanup }]: the cleanup runs on both exits, and
    an exception of the cleanup replaces the outcome of the body. *)
Definition try_finally {Env A : Type} (body : M Env A) (cleanup : M Env unit)
  : M Env A :=
  fun w =>
    let (r, w') := body w in
    match cleanup w' with
    | (Ok _, w'') => (r, w'')
    | (Throw e, w'') => (Throw e, w'')
    end.

(** A pure computation that may throw. *)
Definition lift {Env A : Type} (r : result A) : M Env A := fun w => (r, w).

(** A request to the environment. *)
Definition request {Env A : Type} (f : Env -> result A * Env) : M Env A :=
  fun w =>
    let (r, e) := f (env w) in
    (r, mkWorld (syncLocks w) (bundles w) e).

Declare Scope js_scope.
Delimit Scope js_scope with js.
Notation "x <- m ;; k" := (bind m (fun x => k))
  (at level 61, m at next level, right associativity) : js_scope.
Notation "m ;;; k" := (bind m (fun _ => k))
  (at level 61, right associativity) : js_scope.
Open Scope js_scope.

(** [for (const x of xs) { acc = body(acc, x) }] with an awaited body. *)
Fixpoint foldM {Env A B : Type} (body : B -> A -> M Env B) (xs : list A)
  (acc : B) : M Env B :=
  match xs with
  | [] => ret acc
  | x :: rest => acc' <- body acc x ;; foldM body rest acc'
  end.

(* ------------------------------------------------------------------------- *)
(** ** The inventory sync service *)

Definition SYNC_LOCK_TTL_MS : Z := 60 * 1000.

Definition UNIQUE_CONSTRAINT_MESSAGE : string :=
  "Unique constraint failed on the fields: (`id`)".
Definition NOT_FOUND_MESSAGE : string :=
  "Record to delete does not exist.".

Section SyncService.

Context {Env : Type} `{Environment Env}.

(** [Date.now()]. *)
Definition Date_now : M Env Z :=
  fun w =>
    let (t, e) := dateNow (env w) in
    (Ok t, mkWorld (syncLocks w) (bundles w) e).

(** *** The store

    The database client behind [db] is not part of the sources; its tables
    are those of the migrations.  The store itself does not fail: [create]
    throws only on a duplicate id and [delete] only on a missing row. *)

(** Modelled from the spec: the lock store's delete-where-expired-before,
    [db.syncLock.deleteMany({ where: { expiresAt: { lt: now } } })]. *)
Definition syncLock_deleteMany_expired (now : Z) : M Env unit :=
  fun w =>
    (Ok tt,
     mkWorld
       (filter (fun l => negb (SyncLock.expired now l)) (syncLocks w))
       (bundles w) (env w)).

(** Modelled from the spec: the lock store's create-if-absent with a
    unique id, [db.syncLock.create({ data })]; [id] is the primary key of
    the table. *)
Definition syncLock_create (data : SyncLock.t) : M Env unit :=
  fun w =>
    if existsb (fun l => (SyncLock.id l =? SyncLock.id data)%string)
         (syncLocks w)
    then (Throw (JsError UNIQUE_CONSTRAINT_MESSAGE), w)
    else (Ok tt, mkWorld (syncLocks w ++ [data]) (bundles w) (env w)).

(** Modelled from the spec: the lock store's delete-by-id,
    [db.syncLock.delete({ where: { id } })], which rejects when no row has
    the id. *)
Definition syncLock_delete (id : string) : M Env unit :=
  fun w =>
    if existsb (fun l => (SyncLock.id l =? id)%string) (syncLocks w)
    then
      (Ok tt,
       mkWorld
         (filter (fun l => negb (SyncLock.id l =? id)%string) (syncLocks w))
         (bundles w) (env w))
    else (Throw (JsError NOT_FOUND_MESSAGE), w).

(** Modelled from the spec: the bundle repository's query,
    [db.bundle.findMany({ where, include: { children: true } })]: the
    matching rows in table order, with their children. *)
Definition bundle_findMany (where_ : Bundle.t -> bool) : M Env (list Bundle.t) :=
  fun w => (Ok (filter where_ (bundles w)), w).

(** *** Sync lock management *)

Definition acquireSyncLock (lockId bundleId : string) : M Env bool :=
  now <- Date_now ;;
  let expiresAt := now + SYNC_LOCK_TTL_MS in
  try_catch
    (syncLock_deleteMany_expired now ;;;
     syncLock_create (SyncLock.mk lockId bundleId expiresAt) ;;;
     ret true)
    (fun _ => ret false).

Definition releaseSyncLock (lockId : string) : M Env unit :=
  try_catch (syncLock_delete lockId) (fun _ => ret tt).

(** *** Bundle lookup *)

Definition findBundlesForVariant (shop variantGid : string)
  : M Env (list Bundle.t) :=
  parentBundles <-
    bundle_findMany (fun b =>
      (Bundle.shopId b =? shop)%string
      && (Bundle.parentGid b =? variantGid)%string) ;;
  childBundles <-
    bundle_findMany (fun b =>
      (Bundle.shopId b =? shop)%string
      && existsb (fun c => (BundleChild.childGid c =? variantGid)%string)
           (Bundle.children b)) ;;
  let bundleMap :=
    fold_left (fun m bundle => JsMap.set m (Bundle.id bundle) bundle)
      (parentBundles ++ childBundles) JsMap.empty in
  ret (JsMap.values bundleMap).

Definition getInventoryItemForVariant (variantGid : string)
  : M Env (option string) :=
  request (queryVariantInventoryItem variantGid).

(** The body of the loop over [data.data?.nodes ?? []]. *)
Definition recordLevel (levels : JsMap.t Z) (node : LevelNode.t)
  : JsMap.t Z :=
  match LevelNode.id node, LevelNode.quantities node with
  | Some id, Some quantities =>
      if truthy id then
        match find (fun q => (fst q =? "available")%string) quantities with
        | Some available => JsMap.set levels id (snd available)
        | None => levels
        end
      else levels
  | _, _ => levels
  end.

Definition getInventoryLevels (inventoryItemIds : list string)
  (locationId : string) : M Env (JsMap.t Z) :=
  foldM
    (fun levels batch =>
       nodes <- request (queryInventoryLevels batch locationId) ;;
       ret (fold_left recordLevel (nullish nodes []) levels))
    (batches 50 inventoryItemIds) JsMap.empty.

Definition adjustInventoryLevels (adjustments : list InventoryAdjustment.t)
  (reason : string) : M Env unit :=
  match adjustments with
  | [] => ret tt
  | _ =>
      let nonZeroAdjustments :=
        filter (fun a => negb (InventoryAdjustment.delta a =? 0))
          adjustments in
      match nonZeroAdjustments with
      | [] => ret tt
      | _ =>
          foldM
            (fun _ batch =>
               let changes :=
                 map (fun adj =>
                        InventoryAdjustment.mk
                          (InventoryAdjustment.inventoryItemId adj)
                          (InventoryAdjustment.locationId adj)
                          (InventoryAdjustment.delta adj)) batch in
               request
                 (mutateAdjustInventory
                    (AdjustInput.mk reason "available" changes)))
            (batches 10 nonZeroAdjustments) tt
      end
  end.

Definition findVariantForInventoryItem (inventoryItemId : Z)
  : M Env (option string) :=
  let inventoryItemGid :=
    ("gid://shopify/InventoryItem/" ++ string_of_Z inventoryItemId)%string in
  request (queryVariantFromInventoryItem inventoryItemGid).

(** *** Adjustments of one bundle *)

(** The [if (parentDelta !== 0) { ... }] block shared by both branches. *)
Definition parentAdjustment (inventoryItemMap : JsMap.t string)
  (bundle : Bundle.t) (locationGid : string) (parentDelta : Z)
  : list InventoryAdjustment.t :=
  if negb (parentDelta =? 0) then
    match JsMap.get inventoryItemMap (Bundle.parentGid bundle) with
    | Some parentInventoryItemId =>
        if truthy parentInventoryItemId then
          [InventoryAdjustment.mk parentInventoryItemId locationGid
             parentDelta]
        else []
    | None => []
    end
  else [].

Definition calculateBundleAdjustments (bundle : Bundle.t)
  (locationGid changedVariantGid : string) (newAvailable : Z)
  : M Env (list InventoryAdjustment.t) :=
  let allVariantGids :=
    Bundle.parentGid bundle
    :: map BundleChild.childGid (Bundle.children bundle) in
  let uniqueVariantGids := uniqueStrings allVariantGids in
  inventoryItemMap <-
    foldM
      (fun (m : JsMap.t string) variantGid =>
         inventoryItemId <- getInventoryItemForVariant variantGid ;;
         match inventoryItemId with
         | Some id => if truthy id then ret (JsMap.set m variantGid id)
                      else ret m
         | None => ret m
         end)
      uniqueVariantGids JsMap.empty ;;
  let inventoryItemIds := JsMap.values inventoryItemMap in
  currentLevels <- getInventoryLevels inventoryItemIds locationGid ;;
  let stockMap :=
    fold_left
      (fun (m : JsMap.t Z) (entry : string * string) =>
         let (variantGid, inventoryItemId) := entry in
         if (variantGid =? changedVariantGid)%string
         then JsMap.set m variantGid newAvailable
         else JsMap.set m variantGid
                (nullish (JsMap.get currentLevels inventoryItemId) 0))
      inventoryItemMap JsMap.empty in
  match Bundle.children bundle with
  | [child] =>
      (* same-product bundle *)
      let baseVariantGid := BundleChild.childGid child in
      let multiplier := BundleChild.quantity child in
      let baseStock := nullish (JsMap.get stockMap baseVariantGid) 0 in
      expectedParentAvailability <-
        lift (calculateBundleAvailability baseStock multiplier) ;;
      let currentParentStock :=
        nullish (JsMap.get stockMap (Bundle.parentGid bundle)) 0 in
      let parentDelta := expectedParentAvailability - currentParentStock in
      ret (parentAdjustment inventoryItemMap bundle locationGid parentDelta)
  | children =>
      (* mixed bundle *)
      let components :=
        map (fun child =>
               Component.mk
                 (nullish (JsMap.get stockMap (BundleChild.childGid child)) 0)
                 (BundleChild.quantity child)) children in
      expectedParentAvailability <-
        lift (calculateMixedBundleAvailability components) ;;
      let currentParentStock :=
        nullish (JsMap.get stockMap (Bundle.parentGid bundle)) 0 in
      let parentDelta := expectedParentAvailability - currentParentStock in
      ret (parentAdjustment inventoryItemMap bundle locationGid parentDelta)
  end.

(** *** Main sync logic *)

(** [`sync-${bundle.id}-${locationId}-${Date.now()}`]. *)
Definition syncLockId (bundle : Bundle.t) (locationId now : Z) : string :=
  ("sync-" ++ Bundle.id bundle ++ "-" ++ string_of_Z locationId ++ "-"
   ++ string_of_Z now)%string.

(** The [try { ... } finally { await releaseSyncLock(lockId) }] statement
    of the loop body, run once the lock is held; it yields
    [adjustments.length]. *)
Definition syncLockedBundle (lockId : string) (bundle : Bundle.t)
  (locationGid variantGid : string) (available : Z) : M Env Z :=
  try_finally
    (adjustments <-
       calculateBundleAdjustments bundle locationGid variantGid available ;;
     adjustInventoryLevels adjustments "correction" ;;;
     ret (Z.of_nat (List.length adjustments)))
    (releaseSyncLock lockId).

(** The [for (const bundle of bundles)] loop, threading
    [totalAdjustments]. *)
Fixpoint syncBundles (bundles : list Bundle.t) (locationId : Z)
  (locationGid variantGid : string) (available : Z) (totalAdjustments : Z)
  : M Env Z :=
  match bundles with
  | [] => ret totalAdjustments
  | bundle :: rest =>
      now <- Date_now ;;
      let lockId := syncLockId bundle locationId now in
      lockAcquired <- acquireSyncLock lockId (Bundle.id bundle) ;;
      if negb lockAcquired then
        syncBundles rest locationId locationGid variantGid available
          totalAdjustments
      else
        made <-
          syncLockedBundle lockId bundle locationGid variantGid available ;;
        syncBundles rest locationId locationGid variantGid available
          (totalAdjustments + made)
  end.

Definition processInventoryUpdate (event : InventoryUpdateEvent.t)
  : M Env SyncResult.t :=
  let inventoryItemId := InventoryUpdateEvent.inventoryItemId event in
  let locationId := InventoryUpdateEvent.locationId event in
  let available := InventoryUpdateEvent.available event in
  let shop := InventoryUpdateEvent.shop event in
  variantGid <- findVariantForInventoryItem inventoryItemId ;;
  match variantGid with
  | None =>
      ret (SyncResult.mk false 0 0
             (Some "Could not find variant for inventory item") None)
  | Some variantGid =>
      if negb (truthy variantGid) then
        ret (SyncResult.mk false 0 0
               (Some "Could not find variant for inventory item") None)
      else
        bundles <- findBundlesForVariant shop variantGid ;;
        match bundles with
        | [] =>
            ret (SyncResult.mk true 0 0
                   (Some "Variant is not part of any bundle") None)
        | _ =>
            let locationGid :=
              ("gid://shopify/Location/" ++ string_of_Z locationId)%string in
            totalAdjustments <-
              syncBundles bundles locationId locationGid variantGid
                available 0 ;;
            ret (SyncResult.mk true (Z.of_nat (List.length bundles))
                   totalAdjustments None None)
        end
  end.

End SyncService.

(* ------------------------------------------------------------------------- *)
(** ** A shop that keeps its books

    The inventory gateway behind [admin.graphql] is an external
    collaborator.  [Ledger] is the instance of [Environment] in which every
    read returns what the ledger holds and every adjustment is applied to
    it; during an [outage] the adjustment mutation throws instead.  The
    clock is an arbitrary sequence of readings. *)

Module Ledger.

(** Modelled from the spec: the state of the inventory gateway, with the
    operations resolve-stock-item ([itemOfVariant], and [variantOfItem] for
    the way back), read-levels ([level]) and adjust-levels by relative
    delta ([adjust] below). *)
Record t : Type := mk {
  (** inventory item gid -> variant gid *)
  variantOfItem : string -> option string;
  (** variant gid -> inventory item gid *)
  itemOfVariant : string -> option string;
  (** inventory item gid -> location gid -> available quantity, when the
      item is stocked at the location *)
  level : string -> string -> option Z;
  (** when set, the [adjustInventory] mutation fails in transport *)
  outage : bool;
  clock : nat -> Z;
  reads : nat
}.

Definition node (l : t) (locationId id : string) : LevelNode.t :=
  LevelNode.mk (Some id)
    (option_map (fun q => [("available", q)]) (level l id locationId)).

Definition applyChange (lvl : string -> string -> option Z)
  (change : InventoryAdjustment.t) : string -> string -> option Z :=
  fun item location =>
    if (item =? InventoryAdjustment.inventoryItemId change)%string
       && (location =? InventoryAdjustment.locationId change)%string
    then option_map (fun q => q + InventoryAdjustment.delta change)
           (lvl item location)
    else lvl item location.

Definition adjust (l : t) (input : AdjustInput.t) : t :=
  mk (variantOfItem l) (itemOfVariant l)
     (fold_left applyChange (AdjustInput.changes input) (level l))
     (outage l) (clock l) (reads l).

Definition tick (l : t) : t :=
  mk (variantOfItem l) (itemOfVariant l) (level l) (outage l) (clock l)
     (S (reads l)).

Definition FETCH_FAILED : string := "fetch failed".

End Ledger.

(** Modelled from the spec: the responses of the inventory gateway to the
    four requests of the sync service. *)
#[export] Instance Ledger_Environment : Environment Ledger.t := {
  dateNow l := (Ledger.clock l (Ledger.reads l), Ledger.tick l);
  queryVariantFromInventoryItem item l := (Ok (Ledger.variantOfItem l item), l);
  queryVariantInventoryItem variant l := (Ok (Ledger.itemOfVariant l variant), l);
  queryInventoryLevels ids locationId l :=
    (Ok (Some (map (Ledger.node l locationId) ids)), l);
  mutateAdjustInventory input l :=
    if Ledger.outage l then (Throw (JsError Ledger.FETCH_FAILED), l)
    else (Ok tt, Ledger.adjust l input)
}.

(* ------------------------------------------------------------------------- *)
(** ** The pick list service *)

Module OrderLineItem.
Record t : Type := mk {
  variantGid : string;
  productTitle : string;
  variantTitle : string;
  sku : option string;
  quantity : Z
}.
End OrderLineItem.

Module PickListItem.
Record t : Type := mk {
  productTitle : string;
  variantTitle : string;
  sku : option string;
  variantGid : string;
  quantity : Z;
  binLocation : option string
}.
End PickListItem.

(** The body of the loop of [aggregateItems].  [existing.quantity +=
    item.quantity] updates the object held by the map, which keeps its
    place; a new key stores a copy [{ ...item }] at the end.  The sum is
    that of the code as long as it is a safe integer. *)
Definition aggregateStep (aggregated : JsMap.t OrderLineItem.t)
  (item : OrderLineItem.t) : JsMap.t OrderLineItem.t :=
  match JsMap.get aggregated (OrderLineItem.variantGid item) with
  | Some existing =>
      JsMap.set aggregated (OrderLineItem.variantGid item)
        (OrderLineItem.mk
           (OrderLineItem.variantGid existing)
           (OrderLineItem.productTitle existing)
           (OrderLineItem.variantTitle existing)
           (OrderLineItem.sku existing)
           (OrderLineItem.quantity existing + OrderLineItem.quantity item))
  | None => JsMap.set aggregated (OrderLineItem.variantGid item) item
  end.

Definition aggregateItems (items : list OrderLineItem.t)
  : list OrderLineItem.t :=
  JsMap.values (fold_left aggregateStep items JsMap.empty).

Definition escapeCSV (value : string) : string :=
  if includes value (char COMMA)
     || includes value (char QUOTE)
     || includes value (char NEWLINE)
  then (char QUOTE ++ replaceAll value QUOTE (char QUOTE ++ char QUOTE)
        ++ char QUOTE)%string
  else value.

Definition csvHeaders : list string :=
  ["Product"; "Variant"; "SKU"; "Quantity"; "Bin Location"].

(** A row of [exportToCSV]; [String(item.quantity)] is [string_of_Z] for a
    safe integer. *)
Definition csvRow (item : PickListItem.t) : list string :=
  [escapeCSV (PickListItem.productTitle item);
   escapeCSV (PickListItem.variantTitle item);
   escapeCSV (nullish (PickListItem.sku item) "");
   string_of_Z (PickListItem.quantity item);
   escapeCSV (nullish (PickListItem.binLocation item) "")].

Definition exportToCSV (items : list PickListItem.t) : string :=
  let headers := csvHeaders in
  let rows := map csvRow items in
  String.concat (char NEWLINE)
    (String.concat "," headers :: map (String.concat ",") rows).

(* ------------------------------------------------------------------------- *)
(** ** Vocabulary of the properties *)

(** A computation that leaves both database tables as they are, whatever
    its outcome. *)
Definition keeps_store {Env A : Type} (m : M Env A) : Prop :=
  forall w r w',
    m w = (r, w') -> syncLocks w' = syncLocks w /\ bundles w' = bundles w.

(** The rows of the lock table that are not expired at [now]. *)
Definition liveLocks (now : Z) (locks : list SyncLock.t) : list SyncLock.t :=
  filter (fun l => negb (SyncLock.expired now l)) locks.

(** The bundles [findBundlesForVariant] finds in a world. *)
Definition foundBundles {Env : Type} (shop variantGid : string)
  (w : World Env) : list Bundle.t :=
  match findBundlesForVariant shop variantGid w with
  | (Ok found, _) => found
  | (Throw _, _) => []
  end.

(** The two early returns of [processInventoryUpdate]. *)
Definition RESOLUTION_FAILED : SyncResult.t :=
  SyncResult.mk false 0 0 (Some "Could not find variant for inventory item")
    None.
Definition NO_BUNDLES : SyncResult.t :=
  SyncResult.mk true 0 0 (Some "Variant is not part of any bundle") None.

(** Pick-list aggregation in the words of the specification: the line items
    of one variant, their summed quantity and their first occurrence. *)
Definition itemsOfVariant (variantGid : string) (items : list OrderLineItem.t)
  : list OrderLineItem.t :=
  filter (fun i => (OrderLineItem.variantGid i =? variantGid)%string) items.

Definition summedQuantity (variantGid : string) (items : list OrderLineItem.t)
  : Z :=
  fold_right Z.add 0
    (map OrderLineItem.quantity (itemsOfVariant variantGid items)).

Definition firstOccurrence (variantGid : string)
  (items : list OrderLineItem.t) : option OrderLineItem.t :=
  find (fun i => (OrderLineItem.variantGid i =? variantGid)%string) items.

(** CSV export in the words of the specification. *)
Definition CSV_HEADER : string := "Product,Variant,SKU,Quantity,Bin Location".

Definition isSpecial (c : ascii) : bool :=
  Ascii.eqb c COMMA || Ascii.eqb c QUOTE || Ascii.eqb c NEWLINE.

(** Wrapped in quotes with internal quotes doubled, when a special
    character occurs; unchanged otherwise. *)
Definition csvField_spec (value : string) : string :=
  let chars := list_ascii_of_string value in
  if existsb isSpecial chars then
    string_of_list_ascii
      (QUOTE
       :: flat_map (fun c => if Ascii.eqb c QUOTE then [QUOTE; QUOTE] else [c])
            chars
       ++ [QUOTE])
  else value.

(** A null SKU or bin location renders as the empty field. *)
Definition csvOptionalField_spec (value : option string) : string :=
  match value with
  | Some v => csvField_spec v
  | None => ""
  end.

Definition csvLine_spec (item : PickListItem.t) : string :=
  (csvField_spec (PickListItem.productTitle item) ++ ","
   ++ csvField_spec (PickListItem.variantTitle item) ++ ","
   ++ csvOptionalField_spec (PickListItem.sku item) ++ ","
   ++ string_of_Z (PickListItem.quantity item) ++ ","
   ++ csvOptionalField_spec (PickListItem.binLocation item))%string.

(** The header, then one line per item in input order, each preceded by a
    newline. *)
Definition csv_spec (items : list PickListItem.t) : string :=
  (CSV_HEADER
   ++ fold_right
        (fun item rest => char NEWLINE ++ csvLine_spec item ++ rest)
        "" items)%string.

(* ------------------------------------------------------------------------- *)
(** ** Reading the books

    What the sync service sees of a ledger when it handles one bundle: the
    functions below restate, as plain functions of the ledger, what
    [calculateBundleAdjustments] assembles through its maps
    (lemma [calculateBundleAdjustments_ledger] of Part II). *)

(** The inventory item the service records for a variant. *)
Definition itemFor (l : Ledger.t) (variantGid : string) : option string :=
  match Ledger.itemOfVariant l variantGid with
  | Some id => if truthy id then Some id else None
  | None => None
  end.

(** The entry of [stockMap] for a variant of the bundle, or [0]. *)
Definition stockSeen (l : Ledger.t) (locationGid changedVariantGid : string)
  (newAvailable : Z) (variantGid : string) : Z :=
  match itemFor l variantGid with
  | Some item =>
      if (variantGid =? changedVariantGid)%string then newAvailable
      else nullish (Ledger.level l item locationGid) 0
  | None => 0
  end.

Definition expectedAvailability (l : Ledger.t)
  (locationGid changedVariantGid : string) (newAvailable : Z)
  (bundle : Bundle.t) : result Z :=
  let stock := stockSeen l locationGid changedVariantGid newAvailable in
  match Bundle.children bundle with
  | [child] =>
      calculateBundleAvailability (stock (BundleChild.childGid child))
        (BundleChild.quantity child)
  | children =>
      calculateMixedBundleAvailability
        (map (fun child =>
                Component.mk (stock (BundleChild.childGid child))
                  (BundleChild.quantity child)) children)
  end.

Definition plannedAdjustments (l : Ledger.t)
  (locationGid changedVariantGid : string) (newAvailable : Z)
  (bundle : Bundle.t) : result (list InventoryAdjustment.t) :=
  rbind (expectedAvailability l locationGid changedVariantGid newAvailable
           bundle)
    (fun expected =>
       let delta :=
         expected
         - stockSeen l locationGid changedVariantGid newAvailable
             (Bundle.parentGid bundle) in
       Ok (if negb (delta =? 0) then
             match itemFor l (Bundle.parentGid bundle) with
             | Some item => [InventoryAdjustment.mk item locationGid delta]
             | None => []
             end
           else [])).

(** One step of the loop that fills [inventoryItemMap]. *)
Definition itemMapStep (l : Ledger.t) (m : JsMap.t string)
  (variantGid : string) : JsMap.t string :=
  match itemFor l variantGid with
  | Some id => JsMap.set m variantGid id
  | None => m
  end.

(** The ledger after the adjustments of one bundle have been sent (they
    fit in one batch). *)
Definition applyAdjustments (l : Ledger.t)
  (adjustments : list InventoryAdjustment.t) : Ledger.t :=
  match adjustments with
  | [] => l
  | _ => Ledger.adjust l (AdjustInput.mk "correction" "available" adjustments)
  end.

(** The variants a bundle refers to. *)
Definition variantsOf (bundle : Bundle.t) : list string :=
  Bundle.parentGid bundle
  :: map BundleChild.childGid (Bundle.children bundle).

(** Conditions on the bundles an event affects. *)

(** No lock of the table could collide with a lock the sync of these
    bundles at this location asks for. *)
Definition locksFree (locks : list SyncLock.t) (locationId : Z)
  (bs : list Bundle.t) : Prop :=
  forall l b now,
    In l locks -> In b bs ->
    SyncLock.id l <> syncLockId b locationId now.

(** The data-model invariant: every component quantity is at least one. *)
Definition quantitiesPositive (bs : list Bundle.t) : Prop :=
  forall b c,
    In b bs -> In c (Bundle.children b) -> 0 < BundleChild.quantity c.

(** The component quantities are safe integers. *)
Definition quantitiesSafe (bs : list Bundle.t) : Prop :=
  forall b c,
    In b bs -> In c (Bundle.children b) -> safeInteger (BundleChild.quantity c).

(** 2^52: two numbers below it in absolute value have a safe difference,
    and the floor quotient of one of them by a positive integer stays
    below it. *)
Definition HALF_SAFE_RANGE : Z := 4503599627370496.

(** Every level in the books is below 2^52 in absolute value. *)
Definition levelsModerate (l : Ledger.t) : Prop :=
  forall item location q,
    Ledger.level l item location = Some q -> Z.abs q < HALF_SAFE_RANGE.

(** Every parent that has an inventory item is stocked at the location. *)
Definition parentsStocked (l : Ledger.t) (locationGid : string)
  (bs : list Bundle.t) : Prop :=
  forall b item,
    In b bs ->
    itemFor l (Bundle.parentGid b) = Some item ->
    Ledger.level l item locationGid <> None.

(** The inventory item of a parent is not the item of any component of
    these bundles, nor the item of the parent of another of them. *)
Definition parentsApart (l : Ledger.t) (bs : list Bundle.t) : Prop :=
  (forall b b' c item,
      In b bs -> In b' bs -> In c (Bundle.children b') ->
      itemFor l (Bundle.parentGid b) = Some item ->
      itemFor l (BundleChild.childGid c) <> Some item) /\
  (forall b b' item,
      In b bs -> In b' bs -> Bundle.id b <> Bundle.id b' ->
      itemFor l (Bundle.parentGid b) = Some item ->
      itemFor l (Bundle.parentGid b') <> Some item).

(** The variant an event resolves to, and the bundles it affects. *)
Definition changedVariant (event : InventoryUpdateEvent.t)
  (w : World Ledger.t) : option string :=
  match
    Ledger.variantOfItem (env w)
      ("gid://shopify/InventoryItem/"
       ++ string_of_Z (InventoryUpdateEvent.inventoryItemId event))%string
  with
  | Some variantGid => if truthy variantGid then Some variantGid else None
  | None => None
  end.

Definition affectedBundles (event : InventoryUpdateEvent.t)
  (w : World Ledger.t) : list Bundle.t :=
  match changedVariant event w with
  | Some variantGid =>
      foundBundles (InventoryUpdateEvent.shop event) variantGid w
  | None => []
  end.

Definition locationGidOf (event : InventoryUpdateEvent.t) : string :=
  ("gid://shopify/Location/"
   ++ string_of_Z (InventoryUpdateEvent.locationId event))%string.

(* ------------------------------------------------------------------------- *)
(** ** A sample shop

    One same-product bundle: the 24-pack (parent) of a lager whose single
    can is the component, counted 24 times.  At location 7 the ledger holds
    48 cans and shows 5 packs. *)

Module Sample.

Definition SHOP : string := "demo.myshopify.com".
Definition CAN : string := "gid://shopify/ProductVariant/1".
Definition PACK : string := "gid://shopify/ProductVariant/24".
Definition CAN_ITEM : string := "gid://shopify/InventoryItem/1".
Definition PACK_ITEM : string := "gid://shopify/InventoryItem/24".
Definition LOCATION : string := "gid://shopify/Location/7".

Definition bundle : Bundle.t :=
  Bundle.mk "bundle-1" SHOP "Lager 24-Pack" PACK
    [BundleChild.mk "child-1" CAN 24].

Definition variantOfItem (item : string) : option string :=
  if (item =? CAN_ITEM)%string then Some CAN
  else if (item =? PACK_ITEM)%string then Some PACK
  else None.

Definition itemOfVariant (variant : string) : option string :=
  if (variant =? CAN)%string then Some CAN_ITEM
  else if (variant =? PACK)%string then Some PACK_ITEM
  else None.

Definition level (item location : string) : option Z :=
  if (location =? LOCATION)%string then
    if (item =? CAN_ITEM)%string then Some 48
    else if (item =? PACK_ITEM)%string then Some 5
    else None
  else None.

Definition clock (n : nat) : Z := 1767225600000 + Z.of_nat n.

Definition ledger (outage : bool) : Ledger.t :=
  Ledger.mk variantOfItem itemOfVariant level outage clock 0.

Definition world (locks : list SyncLock.t) (outage : bool) : World Ledger.t :=
  mkWorld locks [bundle] (ledger outage).

(** The webhook for the cans (48 available) and the one for the packs
    (5 available). *)
Definition canEvent : InventoryUpdateEvent.t :=
  InventoryUpdateEvent.mk 1 7 48 SHOP.
Definition packEvent : InventoryUpdateEvent.t :=
  InventoryUpdateEvent.mk 24 7 5 SHOP.

(** The lock id the sync of the bundle asks for at the first clock reading,
    a lock holding it for one TTL, and the books 60001 readings later. *)
Definition LOCK_ID : string := "sync-bundle-1-7-1767225600000".
Definition heldLock : SyncLock.t :=
  SyncLock.mk LOCK_ID "bundle-1" 1767225660000.
Definition laterLedger : Ledger.t :=
  Ledger.mk variantOfItem itemOfVariant level false clock (60 * 1000 + 1).

(** What the ledger shows for the packs in a world. *)
Definition packLevel (w : World Ledger.t) : option Z :=
  Ledger.level (env w) PACK_ITEM LOCATION.

End Sample.

(* ------------------------------------------------------------------------- *)
(** ** A shop that only listens

    An instance of [Environment] that answers nothing and keeps the journal
    of the adjustment mutations it is sent, to state which requests
    [adjustInventoryLevels] issues. *)

Module Journal.

Definition t : Type := list AdjustInput.t.

End Journal.

#[export] Instance Journal_Environment : Environment Journal.t := {
  dateNow j := (0, j);
  queryVariantFromInventoryItem _ j := (Ok None, j);
  queryVariantInventoryItem _ j := (Ok None, j);
  queryInventoryLevels _ _ j := (Ok None, j);
  mutateAdjustInventory input j := (Ok tt, (j ++ [input])%list)
}.

(** Two states of the books that agree on the catalogue: the same variants
    and items, the same availability of the gateway, and the same items
    stocked at the same locations. *)
Definition sameCatalog (l l' : Ledger.t) : Prop :=
  Ledger.itemOfVariant l' = Ledger.itemOfVariant l /\
  Ledger.variantOfItem l' = Ledger.variantOfItem l /\
  Ledger.outage l' = Ledger.outage l /\
  forall item location,
    Ledger.level l' item location = None <->
    Ledger.level l item location = None.

(** The summed quantity of a list of line items. *)
Definition lineTotal (items : list OrderLineItem.t) : Z :=
  fold_right Z.add 0 (map OrderLineItem.quantity items).

(* ------------------------------------------------------------------------- *)
(** ** Sorting the pick list *)

Inductive SortField : Type :=
| binLocation
| product
| quantity.

Inductive SortDirection : Type :=
| asc
| desc.

(** [Array.prototype.sort(compare)].  The sort is stable, and for a
    consistent comparator its result is the one stable arrangement of the
    elements in comparator order, which inserting them one by one from the
    left, each behind its equals, produces.  (For an inconsistent
    comparator the order is left to the engine.) *)
Fixpoint insertSorted {A : Type} (compare : A -> A -> Z) (x : A)
  (sorted : list A) : list A :=
  match sorted with
  | [] => [x]
  | y :: rest =>
      if compare x y <? 0 then x :: y :: rest
      else y :: insertSorted compare x rest
  end.

Definition Array_sort {A : Type} (compare : A -> A -> Z) (xs : list A)
  : list A :=
  fold_left (fun sorted x => insertSorted compare x sorted) xs [].

(** [!item.binLocation]: the location is null or the empty string. *)
Definition noLocation (item : PickListItem.t) : bool :=
  match PickListItem.binLocation item with
  | Some location => negb (truthy location)
  | None => true
  end.

Section SortItems.

(** [a.localeCompare(b)], which depends on the locale of the host. *)
Variable localeCompare : string -> string -> Z.

(** The comparator passed to [sort]. *)
Definition compareItems (sortBy : SortField) (direction : SortDirection)
  (a b : PickListItem.t) : Z :=
  let multiplier := match direction with asc => 1 | desc => -1 end in
  match sortBy with
  | binLocation =>
      if noLocation a && noLocation b then 0
      else if noLocation a then 1
      else if noLocation b then -1
      else
        multiplier
        * localeCompare (nullish (PickListItem.binLocation a) "")
            (nullish (PickListItem.binLocation b) "")
  | product =>
      let productCompare :=
        localeCompare (PickListItem.productTitle a)
          (PickListItem.productTitle b) in
      if negb (productCompare =? 0) then multiplier * productCompare
      else
        multiplier
        * localeCompare (PickListItem.variantTitle a)
            (PickListItem.variantTitle b)
  | quantity =>
      multiplier * (PickListItem.quantity a - PickListItem.quantity b)
  end.

Definition sortItems (items : list PickListItem.t) (sortBy : SortField)
  (direction : SortDirection) : list PickListItem.t :=
  Array_sort (compareItems sortBy direction) items.

End SortItems.

(** A consistent comparator: comparing the other way round flips the sign,
    and "not after" is transitive. *)
Definition consistent {A : Type} (compare : A -> A -> Z) : Prop :=
  (forall a b, Z.sgn (compare b a) = - Z.sgn (compare a b)) /\
  (forall a b c, compare a b <= 0 -> compare b c <= 0 -> compare a c <= 0).

(** Comparison by code units, a consistent stand-in for [localeCompare]. *)
Definition codeUnitCompare (a b : string) : Z :=
  match String.compare a b with
  | Lt => -1
  | Eq => 0
  | Gt => 1
  end.

(** [a] may stand before [b] in a list ordered by quantity. *)
Definition quantityOrdered (direction : SortDirection)
  (a b : PickListItem.t) : Prop :=
  match direction with
  | asc => PickListItem.quantity a <= PickListItem.quantity b
  | desc => PickListItem.quantity b <= PickListItem.quantity a
  end.

(** [a] may stand before [b] in a list ordered by product title and, among
    equal product titles, by variant title. *)
Definition productOrdered (localeCompare : string -> string -> Z)
  (direction : SortDirection) (a b : PickListItem.t) : Prop :=
  let byProduct :=
    localeCompare (PickListItem.productTitle a) (PickListItem.productTitle b) in
  let byVariant :=
    localeCompare (PickListItem.variantTitle a) (PickListItem.variantTitle b) in
  match direction with
  | asc => byProduct < 0 \/ (byProduct = 0 /\ byVariant <= 0)
  | desc => 0 < byProduct \/ (byProduct = 0 /\ 0 <= byVariant)
  end.

(** [a] may stand before [b] in a list ordered by bin location. *)
Definition locationOrdered (localeCompare : string -> string -> Z)
  (direction : SortDirection) (a b : PickListItem.t) : Prop :=
  let byLocation :=
    localeCompare (nullish (PickListItem.binLocation a) "")
      (nullish (PickListItem.binLocation b) "") in
  match direction with
  | asc => byLocation <= 0
  | desc => 0 <= byLocation
  end.

(** The item has a bin location. *)
Definition hasLocation (item : PickListItem.t) : bool :=
  negb (noLocation item).


(* ------------------------------------------------------------------------- *)
(** ** The webhook routes *)

(** [new Response(body, { status })]. *)
Module Response.
Record t : Type := mk {
  body : option string;
  status : Z
}.
End Response.

(** What [authenticate.webhook(request)] resolves to, as far as the route
    reads it; the payload is an [InventoryLevelUpdatePayload]. *)
Module WebhookContext.
Record t : Type := mk {
  shop : string;
  inventory_item_id : Z;
  location_id : Z;
  available : Z;
  admin : bool
}.
End WebhookContext.

(** The payload of a Pub/Sub message as it comes out of [JSON.parse]: any
    of its members may be missing; those present have the types the
    interface declares. *)
Module InventoryLevelUpdatePayload.
Record t : Type := mk {
  inventory_item_id : option Z;
  location_id : option Z;
  available : option Z;
  shop_domain : option string
}.
End InventoryLevelUpdatePayload.

(** What decoding the base64 data and parsing it as JSON gives. *)
Inductive Decoded : Type :=
| Malformed
| NotAnObject
| Parsed (payload : InventoryLevelUpdatePayload.t).

(** The member [message] of the Pub/Sub envelope. *)
Module PubSubMessage.
Record t : Type := mk {
  data : option string;
  messageId : string;
  attributes : option (JsMap.t string)
}.
End PubSubMessage.

(** A parsed body as far as the route reads it: its member [message],
    absent from a value that has none (a number, a string, an array, an
    object without it). *)
Module PubSubEnvelope.
Record t : Type := mk {
  message : option PubSubMessage.t
}.
End PubSubEnvelope.

(** The outcome of [request.json()]: an exception when the body is not
    JSON, otherwise the value parsed, which may be [null]. *)
Inductive RequestJson : Type :=
| NotJson
| JsonNull
| JsonValue (pubsubMessage : PubSubEnvelope.t).

(** The [TypeError] of [const { message } = pubsubMessage] on [null]. *)
Definition DESTRUCTURE_NULL_MESSAGE : string :=
  "Cannot destructure property 'message' of 'pubsubMessage' as it is null.".

(** [unauthenticated.admin(shop)]: the admin access of the stored session of
    the shop, or an exception. *)
Class Sessions (Env : Type) : Type := {
  unauthenticatedAdmin : string -> Env -> result unit * Env
}.

Definition PUBSUB_LOCK_TTL_MS : Z := 24 * 60 * 60 * 1000.

Section WebhookRoutes.

Context {Env : Type} `{Environment Env} `{Sessions Env}.

(** [JSON.parse(Buffer.from(data, "base64").toString("utf-8"))]. *)
Variable decode : string -> Decoded.

(** Modelled from the spec: the lock store's lookup by id,
    [db.syncLock.findUnique({ where: { id } })]; it does not look at the
    expiry. *)
Definition syncLock_findUnique (id : string) : M Env (option SyncLock.t) :=
  fun w =>
    (Ok (find (fun l => (SyncLock.id l =? id)%string) (syncLocks w)), w).

(** The route of the direct webhook, from the outcome of
    [authenticate.webhook(request)] on. *)
Definition webhookAction (authenticated : result WebhookContext.t)
  : M Env Response.t :=
  context <- lift authenticated ;;
  if negb (WebhookContext.admin context) then ret (Response.mk None 200)
  else
    try_catch
      (result <-
         processInventoryUpdate
           (InventoryUpdateEvent.mk
              (WebhookContext.inventory_item_id context)
              (WebhookContext.location_id context)
              (WebhookContext.available context)
              (WebhookContext.shop context)) ;;
       ret tt)
      (fun _ => ret tt) ;;;
    ret (Response.mk None 200).

(** [pubsub-${messageId}]. *)
Definition pubsubLockId (messageId : string) : string :=
  ("pubsub-" ++ messageId)%string.

(** [attributes?.["X-Shopify-Shop-Domain"] ?? attributes?.["shop"] ??
    attributes?.["shopDomain"] ?? inventoryPayload.shop_domain]. *)
Definition shopOf (attributes : option (JsMap.t string))
  (inventoryPayload : InventoryLevelUpdatePayload.t) : option string :=
  let attribute key :=
    match attributes with
    | Some attributes => JsMap.get attributes key
    | None => None
    end in
  match attribute "X-Shopify-Shop-Domain" with
  | Some shop => Some shop
  | None =>
      match attribute "shop" with
      | Some shop => Some shop
      | None =>
          match attribute "shopDomain" with
          | Some shop => Some shop
          | None => InventoryLevelUpdatePayload.shop_domain inventoryPayload
          end
      end
  end.

(** The route of the Pub/Sub push from the duplicate check on. *)
Definition processMessage (messageId shop : string)
  (event : InventoryUpdateEvent.t) : M Env Response.t :=
  existingLock <- syncLock_findUnique (pubsubLockId messageId) ;;
  match existingLock with
  | Some _ => ret (Response.mk None 200)
  | None =>
      created <-
        try_catch
          (now <- Date_now ;;
           syncLock_create
             (SyncLock.mk (pubsubLockId messageId) "pubsub-dedup"
                (now + PUBSUB_LOCK_TTL_MS)) ;;;
           ret true)
          (fun _ => ret false) ;;
      if negb created then ret (Response.mk None 200)
      else
        try_catch
          (request (unauthenticatedAdmin shop) ;;;
           result <- processInventoryUpdate event ;;
           ret (Response.mk None 200))
          (fun _ =>
             try_catch (syncLock_delete (pubsubLockId messageId))
               (fun _ => ret tt) ;;;
             ret (Response.mk (Some "Processing failed") 500))
  end.

(** The route of the Pub/Sub push, from the outcome of [request.json()]
    on.  The destructuring of the parsed body stands outside every [try]:
    on the body [null] it throws. *)
Definition pubsubAction (json : RequestJson) : M Env Response.t :=
  match json with
  | NotJson => ret (Response.mk (Some "Invalid JSON") 400)
  | JsonNull => lift (Throw (JsError DESTRUCTURE_NULL_MESSAGE))
  | JsonValue pubsubMessage =>
      match PubSubEnvelope.message pubsubMessage with
      | None => ret (Response.mk (Some "Missing message data") 400)
      | Some message =>
          if negb (truthy (nullish (PubSubMessage.data message) ""))
          then ret (Response.mk (Some "Missing message data") 400)
          else
            match decode (nullish (PubSubMessage.data message) "") with
            | Malformed => ret (Response.mk (Some "Invalid message data") 400)
            | NotAnObject => ret (Response.mk None 200)
            | Parsed inventoryPayload =>
                match
                  InventoryLevelUpdatePayload.inventory_item_id inventoryPayload,
                  InventoryLevelUpdatePayload.location_id inventoryPayload,
                  InventoryLevelUpdatePayload.available inventoryPayload
                with
                | Some inventory_item_id, Some location_id, Some available =>
                    let shop :=
                      shopOf (PubSubMessage.attributes message)
                        inventoryPayload in
                    if negb (truthy (nullish shop ""))
                    then ret (Response.mk (Some "Missing shop attribute") 400)
                    else
                      processMessage (PubSubMessage.messageId message)
                        (nullish shop "")
                        (InventoryUpdateEvent.mk inventory_item_id
                           location_id available (nullish shop ""))
                | _, _, _ => ret (Response.mk None 200)
                end
            end
      end
  end.

End WebhookRoutes.

(** The shop that keeps its books has a stored session for every shop. *)
#[export] Instance Ledger_Sessions : Sessions Ledger.t := {
  unauthenticatedAdmin _ e := (Ok tt, e)
}.

(* ------------------------------------------------------------------------- *)
(** ** Reading the data of a push

    [Buffer.from(data, "base64").toString("utf-8")] followed by
    [JSON.parse], for the texts a payload is: [null], a scalar, or a flat
    object whose members are integers, strings, booleans or [null], with
    the three numbers and the shop domain of the interface typed as it
    declares them.  On these texts, and on texts that are not JSON, the
    reader gives what the two calls give; any other text (nested values,
    fractions and exponents, escapes in strings, a member of the interface
    with another type) lies outside the model and is reported as
    malformed.  The decoded text is kept as its bytes. *)
Module Wire.

(** The value of a character of the base64 alphabet, URL-safe or not. *)
Definition sextet (c : ascii) : option N :=
  let n := N_of_ascii c in
  if ((65 <=? n) && (n <=? 90))%N then Some (n - 65)%N
  else if ((97 <=? n) && (n <=? 122))%N then Some (n - 71)%N
  else if ((48 <=? n) && (n <=? 57))%N then Some (n + 4)%N
  else if ((n =? 43) || (n =? 45))%N then Some 62%N
  else if ((n =? 47) || (n =? 95))%N then Some 63%N
  else None.

(** The values of the legal characters up to the first [=]; a character
    outside the alphabet is skipped. *)
Fixpoint sextets (data : string) : list N :=
  match data with
  | EmptyString => []
  | String c rest =>
      if (N_of_ascii c =? 61)%N then []
      else
        match sextet c with
        | Some v => v :: sextets rest
        | None => sextets rest
        end
  end.

(** Four values make three bytes; three left over make two and two make
    one. *)
Fixpoint bytes (values : list N) : list ascii :=
  match values with
  | a :: b :: c :: d :: rest =>
      let v := (((a * 64 + b) * 64 + c) * 64 + d)%N in
      ascii_of_N (v / 65536) :: ascii_of_N ((v / 256) mod 256)
      :: ascii_of_N (v mod 256) :: bytes rest
  | [a; b; c] =>
      let v := ((a * 64 + b) * 64 + c)%N in
      [ascii_of_N (v / 1024); ascii_of_N ((v / 4) mod 256)]
  | [a; b] => [ascii_of_N ((a * 64 + b) / 16)]
  | _ => []
  end.

Definition base64Decode (data : string) : string :=
  string_of_list_ascii (bytes (sextets data)).

(** The value of a member. *)
Inductive Scalar : Type :=
| JNumber (z : Z)
| JString (s : string)
| JBoolean (b : bool)
| JNull.

Definition isWhitespace (c : ascii) : bool :=
  let n := N_of_ascii c in
  ((n =? 32) || (n =? 9) || (n =? 10) || (n =? 13))%N.

Definition isDigit (c : ascii) : bool :=
  let n := N_of_ascii c in ((48 <=? n) && (n <=? 57))%N.

Fixpoint skipWhitespace (text : string) : string :=
  match text with
  | String c rest => if isWhitespace c then skipWhitespace rest else text
  | EmptyString => text
  end.

(** [text] without the prefix [word], when it starts with it. *)
Fixpoint after (word text : string) : option string :=
  match word, text with
  | EmptyString, _ => Some text
  | String a word', String b text' =>
      if Ascii.eqb a b then after word' text' else None
  | String _ _, EmptyString => None
  end.

(** A string from behind its opening quote: its content and what follows
    its closing quote.  Escapes are outside the model; a control character
    is no JSON. *)
Fixpoint readString (text : string) : option (string * string) :=
  match text with
  | EmptyString => None
  | String c rest =>
      if Ascii.eqb c QUOTE then Some (EmptyString, rest)
      else if Ascii.eqb c "\"%char then None
      else if (N_of_ascii c <? 32)%N then None
      else
        match readString rest with
        | Some (content, rest') => Some (String c content, rest')
        | None => None
        end
  end.

Fixpoint readDigits (text : string) (value : Z) : Z * string :=
  match text with
  | String c rest =>
      if isDigit c
      then readDigits rest (10 * value + (Z.of_N (N_of_ascii c) - 48))
      else (value, text)
  | EmptyString => (value, text)
  end.

(** The text goes on as a fraction or an exponent. *)
Definition fractional (text : string) : bool :=
  match text with
  | String c _ =>
      Ascii.eqb c "."%char || Ascii.eqb c "e"%char || Ascii.eqb c "E"%char
  | EmptyString => false
  end.

(** An integer: an optional minus sign and digits without a leading
    zero. *)
Definition readInteger (text : string) : option (Z * string) :=
  let negative :=
    match text with
    | String c _ => Ascii.eqb c "-"%char
    | EmptyString => false
    end in
  let digits := if negative then nullish (after "-" text) "" else text in
  match digits with
  | String c rest =>
      if negb (isDigit c) then None
      else
        let (value, rest') :=
          if Ascii.eqb c "0"%char then (0, rest) else readDigits digits 0 in
        match rest' with
        | String d _ =>
            if isDigit d || fractional rest' then None
            else Some (if negative then - value else value, rest')
        | EmptyString => Some (if negative then - value else value, rest')
        end
  | EmptyString => None
  end.

Definition readScalar (text : string) : option (Scalar * string) :=
  match text with
  | String c rest =>
      if Ascii.eqb c QUOTE
      then
        match readString rest with
        | Some (content, rest') => Some (JString content, rest')
        | None => None
        end
      else
        match after "null" text, after "true" text, after "false" text with
        | Some rest', _, _ => Some (JNull, rest')
        | _, Some rest', _ => Some (JBoolean true, rest')
        | _, _, Some rest' => Some (JBoolean false, rest')
        | None, None, None =>
            match readInteger text with
            | Some (z, rest') => Some (JNumber z, rest')
            | None => None
            end
        end
  | EmptyString => None
  end.

(** The members of an object from behind its opening brace or a comma, up
    to the closing brace; a repeated key keeps its last value.  The fuel
    bounds the number of members. *)
Fixpoint readMembers (fuel : nat) (text : string) (members : JsMap.t Scalar)
  : option (JsMap.t Scalar * string) :=
  match fuel with
  | O => None
  | S fuel' =>
      match after (char QUOTE) (skipWhitespace text) with
      | None => None
      | Some text1 =>
          match readString text1 with
          | None => None
          | Some (key, text2) =>
              match after ":" (skipWhitespace text2) with
              | None => None
              | Some text3 =>
                  match readScalar (skipWhitespace text3) with
                  | None => None
                  | Some (value, text4) =>
                      let members' := JsMap.set members key value in
                      match
                        after "," (skipWhitespace text4),
                        after "}" (skipWhitespace text4)
                      with
                      | Some text5, _ => readMembers fuel' text5 members'
                      | None, Some text5 => Some (members', text5)
                      | None, None => None
                      end
                  end
              end
          end
      end
  end.

(** A member of the interface that is a number: absent, present, or of
    another type. *)
Definition numberMember (members : JsMap.t Scalar) (key : string)
  : option (option Z) :=
  match JsMap.get members key with
  | None => Some None
  | Some (JNumber z) => Some (Some z)
  | Some _ => None
  end.

Definition stringMember (members : JsMap.t Scalar) (key : string)
  : option (option string) :=
  match JsMap.get members key with
  | None => Some None
  | Some (JString s) => Some (Some s)
  | Some _ => None
  end.

Definition payloadOf (members : JsMap.t Scalar) : Decoded :=
  match
    numberMember members "inventory_item_id",
    numberMember members "location_id",
    numberMember members "available",
    stringMember members "shop_domain"
  with
  | Some inventory_item_id, Some location_id, Some available,
    Some shop_domain =>
      Parsed
        (InventoryLevelUpdatePayload.mk inventory_item_id location_id
           available shop_domain)
  | _, _, _, _ => Malformed
  end.

(** [JSON.parse(text)]. *)
Definition parse (text : string) : Decoded :=
  let text1 := skipWhitespace text in
  match after "{" text1 with
  | Some text2 =>
      match after "}" (skipWhitespace text2) with
      | Some text3 =>
          if (skipWhitespace text3 =? "")%string
          then payloadOf JsMap.empty else Malformed
      | None =>
          match readMembers (String.length text) text2 JsMap.empty with
          | Some (members, text3) =>
              if (skipWhitespace text3 =? "")%string
              then payloadOf members else Malformed
          | None => Malformed
          end
      end
  | None =>
      match readScalar text1 with
      | Some (_, text2) =>
          if (skipWhitespace text2 =? "")%string
          then NotAnObject else Malformed
      | None => Malformed
      end
  end.

Definition decode (data : string) : Decoded := parse (base64Decode data).

End Wire.

(** A Pub/Sub push for the cans of the sample shop: the data are the
    base64 of the text
    [{"inventory_item_id":1,"location_id":7,"available":48}]. *)
Module Push.

Definition DATA : string :=
  "eyJpbnZlbnRvcnlfaXRlbV9pZCI6MSwibG9jYXRpb25faWQiOjcsImF2YWlsYWJsZSI6NDh9".

Definition message : PubSubMessage.t :=
  PubSubMessage.mk (Some DATA) "8401"
    (Some [("X-Shopify-Shop-Domain", Sample.SHOP)]).

Definition json : RequestJson :=
  JsonValue (PubSubEnvelope.mk (Some message)).

(** The row that marks the message as seen. *)
Definition seen : SyncLock.t :=
  SyncLock.mk "pubsub-8401" "pubsub-dedup" 1767312000000.

End Push.

(* ------------------------------------------------------------------------- *)
(** ** The pick list pipeline *)

(** The members of [PickListFilters.statuses]. *)
Inductive FulfillmentStatus : Type :=
| unfulfilled
| partially_fulfilled.

Definition FulfillmentStatus_eqb (a b : FulfillmentStatus) : bool :=
  match a, b with
  | unfulfilled, unfulfilled => true
  | partially_fulfilled, partially_fulfilled => true
  | _, _ => false
  end.

(** A [Date] filter is kept as the string its [toISOString()] gives. *)
Module PickListFilters.
Record t : Type := mk {
  shop : string;
  startDate : option string;
  endDate : option string;
  statuses : list FulfillmentStatus;
  orderIds : option (list string)
}.
End PickListFilters.

(** [OrdersQueryResult] and its parts, as far as [fetchOrders] reads them. *)
Module PageInfo.
Record t : Type := mk {
  hasNextPage : bool;
  endCursor : option string
}.
End PageInfo.

(** [lineItems.nodes[].variant]; [product_title] is [product?.title]. *)
Module OrderVariant.
Record t : Type := mk {
  id : string;
  title : option string;
  sku : option string;
  product_title : option string
}.
End OrderVariant.

Module LineItemNode.
Record t : Type := mk {
  quantity : Z;
  variant : option OrderVariant.t
}.
End LineItemNode.

(** [lineItems_nodes] is [order.lineItems?.nodes]. *)
Module OrderNode.
Record t : Type := mk {
  id : string;
  name : string;
  lineItems_nodes : option (list LineItemNode.t)
}.
End OrderNode.

Module OrdersQueryResult.
Record t : Type := mk {
  pageInfo : option PageInfo.t;
  nodes : option (list OrderNode.t)
}.
End OrdersQueryResult.

(** A node of [VariantsQueryResult]; [product_title] is [product?.title]. *)
Module VariantNode.
Record t : Type := mk {
  id : option string;
  title : option string;
  sku : option string;
  product_title : option string
}.
End VariantNode.

(** The values of the map [fetchVariantInfo] returns. *)
Module VariantInfo.
Record t : Type := mk {
  productTitle : string;
  variantTitle : string;
  sku : option string
}.
End VariantInfo.

(** The elements of the array [fetchOrders] returns. *)
Module Order.
Record t : Type := mk {
  id : string;
  name : string;
  lineItems : list OrderLineItem.t
}.
End Order.

Module PickListResult.
Record t : Type := mk {
  items : list PickListItem.t;
  orderCount : Z;
  totalItems : Z;
  generatedAt : Z
}.
End PickListResult.

(** A row of the [Bundle] table as the pick list service reads it: the
    columns of [BundleWithChildren] and the column [expandOnPick]. *)
Module BundleRow.
Record t : Type := mk {
  bundle : Bundle.t;
  expandOnPick : bool
}.
Definition shopId (b : t) : string := Bundle.shopId (bundle b).
Definition parentGid (b : t) : string := Bundle.parentGid (bundle b).
Definition children (b : t) : list BundleChild.t := Bundle.children (bundle b).
End BundleRow.

(** A row of the [BinLocation] table. *)
Module BinLocation.
Record t : Type := mk {
  id : string;
  shopId : string;
  variantGid : string;
  location : string
}.
End BinLocation.

(** The requests the pick list service sends through [admin.graphql], each
    with the part of the response it reads, and the clock. *)
Class AdminApi (Env : Type) : Type := {
  (** query [getOrders] with [first], [after] and [query]:
      [data.data?.orders]. *)
  queryOrders :
    Z -> option string -> string ->
    Env -> result (option OrdersQueryResult.t) * Env;
  (** query [getVariants] with [ids]: [data.data?.nodes]. *)
  queryVariants :
    list string -> Env -> result (option (list (option VariantNode.t))) * Env;
  (** [new Date()], as milliseconds. *)
  newDate : Env -> Z * Env
}.

(** What the pick list service works on: the two tables it reads and the
    shop behind [admin]. *)
Record PickWorld (Env : Type) : Type := mkPickWorld {
  bundleRows : list BundleRow.t;
  binLocations : list BinLocation.t;
  admin : Env
}.

Arguments mkPickWorld {Env} bundleRows binLocations admin.
Arguments bundleRows {Env} _.
Arguments binLocations {Env} _.
Arguments admin {Env} _.

(** The monad of the [async] functions of the pick list service. *)
Definition P (Env A : Type) : Type := PickWorld Env -> result A * PickWorld Env.

Definition pret {Env A : Type} (a : A) : P Env A := fun w => (Ok a, w).

Definition pbind {Env A B : Type} (m : P Env A) (k : A -> P Env B) : P Env B :=
  fun w =>
    match m w with
    | (Ok a, w') => k a w'
    | (Throw e, w') => (Throw e, w')
    end.

(** [await admin.graphql(...)] followed by [await response.json()]. *)
Definition graphql {Env A : Type} (f : Env -> result A * Env) : P Env A :=
  fun w =>
    let (r, e) := f (admin w) in
    (r, mkPickWorld (bundleRows w) (binLocations w) e).

Declare Scope pick_scope.
Delimit Scope pick_scope with pick.
Notation "x <- m ;; k" := (pbind m (fun x => k))
  (at level 61, m at next level, right associativity) : pick_scope.

(** [for (const x of xs) { acc = body(acc, x) }] with an awaited body. *)
Fixpoint pfoldM {Env A B : Type} (body : B -> A -> P Env B) (xs : list A)
  (acc : B) : P Env B :=
  match xs with
  | [] => pret acc
  | x :: rest => pbind (body acc x) (fun acc' => pfoldM body rest acc')
  end.

(** [new Map(entries)]: the entries are set one after the other. *)
Definition JsMap_of {V : Type} (entries : list (string * V)) : JsMap.t V :=
  fold_left (fun m entry => JsMap.set m (fst entry) (snd entry)) entries
    JsMap.empty.

(** [sortedItems.reduce((sum, item) => sum + item.quantity, 0)]; the sum
    of the code as long as the partial sums are safe integers. *)
Definition pickTotal (items : list PickListItem.t) : Z :=
  fold_left (fun sum item => sum + PickListItem.quantity item) items 0.

Section PickListService.

Context {Env : Type} `{AdminApi Env}.

(** [a.localeCompare(b)] of the host. *)
Variable localeCompare : string -> string -> Z.

Local Open Scope pick_scope.

(** [new Date()]. *)
Definition New_Date : P Env Z :=
  fun w =>
    let (t, e) := newDate (admin w) in
    (Ok t, mkPickWorld (bundleRows w) (binLocations w) e).

(** Modelled from the spec: the bundle table's query
    [db.bundle.findMany({ where, include: { children: true } })]: the
    matching rows in table order, with their children. *)
Definition bundleRow_findMany (where_ : BundleRow.t -> bool)
  : P Env (list BundleRow.t) :=
  fun w => (Ok (filter where_ (bundleRows w)), w).

(** Modelled from the spec: the bin location table's query
    [db.binLocation.findMany({ where })]: the matching rows in table
    order. *)
Definition binLocation_findMany (where_ : BinLocation.t -> bool)
  : P Env (list BinLocation.t) :=
  fun w => (Ok (filter where_ (binLocations w)), w).

(** The query string [fetchOrders] builds from the filters. *)
Definition queryString (filters : PickListFilters.t) : string :=
  let queryParts :=
    ((if existsb (FulfillmentStatus_eqb unfulfilled)
           (PickListFilters.statuses filters)
      then ["fulfillment_status:unfulfilled"] else [])
     ++ (if existsb (FulfillmentStatus_eqb partially_fulfilled)
              (PickListFilters.statuses filters)
         then ["fulfillment_status:partial"] else [])
     ++ match PickListFilters.startDate filters with
        | Some startDate => [("created_at:>=" ++ startDate)%string]
        | None => []
        end
     ++ match PickListFilters.endDate filters with
        | Some endDate => [("created_at:<=" ++ endDate)%string]
        | None => []
        end)%list in
  if (0 <? List.length queryParts)%nat
  then String.concat " AND " queryParts
  else "fulfillment_status:unfulfilled".

(** The inner loop of [fetchOrders]: a line item without a variant is
    skipped. *)
Definition pushLineItem (lineItems : list OrderLineItem.t)
  (lineItem : LineItemNode.t) : list OrderLineItem.t :=
  match LineItemNode.variant lineItem with
  | None => lineItems
  | Some variant =>
      (lineItems
       ++ [OrderLineItem.mk
             (OrderVariant.id variant)
             (nullish (OrderVariant.product_title variant) "Unknown Product")
             (nullish (OrderVariant.title variant) "Default")
             (OrderVariant.sku variant)
             (LineItemNode.quantity lineItem)])%list
  end.

(** The loop of [fetchOrders] over the orders of one page.  A given array
    of order ids, empty or not, admits only its members. *)
Definition pushOrder (filters : PickListFilters.t) (orders : list Order.t)
  (order : OrderNode.t) : list Order.t :=
  let skipped :=
    match PickListFilters.orderIds filters with
    | Some orderIds =>
        negb (existsb (fun id => (id =? OrderNode.id order)%string) orderIds)
    | None => false
    end in
  if skipped then orders
  else
    let lineItems :=
      fold_left pushLineItem (nullish (OrderNode.lineItems_nodes order) [])
        [] in
    (orders ++ [Order.mk (OrderNode.id order) (OrderNode.name order) lineItems])%list.

(** The [while (hasNextPage)] loop of [fetchOrders].  The fuel bounds the
    number of pages requested; the result is [None] when the shop still
    announces a next page after that many. *)
Fixpoint fetchOrderPages (fuel : nat) (filters : PickListFilters.t)
  (cursor : option string) (orders : list Order.t)
  : P Env (option (list Order.t)) :=
  match fuel with
  | O => pret None
  | S fuel' =>
      ordersData <- graphql (queryOrders 50 cursor (queryString filters)) ;;
      match ordersData with
      | None => pret (Some orders)
      | Some ordersData =>
          let orders' :=
            fold_left (pushOrder filters)
              (nullish (OrdersQueryResult.nodes ordersData) []) orders in
          let hasNextPage :=
            match OrdersQueryResult.pageInfo ordersData with
            | Some pageInfo => PageInfo.hasNextPage pageInfo
            | None => false
            end in
          let cursor' :=
            match OrdersQueryResult.pageInfo ordersData with
            | Some pageInfo => PageInfo.endCursor pageInfo
            | None => None
            end in
          if hasNextPage then fetchOrderPages fuel' filters cursor' orders'
          else pret (Some orders')
      end
  end.

Definition fetchOrders (fuel : nat) (filters : PickListFilters.t)
  : P Env (option (list Order.t)) :=
  fetchOrderPages fuel filters None [].

(** The loop of [fetchVariantInfo] over the nodes of one response. *)
Definition setVariantInfo (result : JsMap.t VariantInfo.t)
  (node : option VariantNode.t) : JsMap.t VariantInfo.t :=
  match node with
  | Some node =>
      match VariantNode.id node with
      | Some id =>
          if truthy id
          then
            JsMap.set result id
              (VariantInfo.mk
                 (nullish (VariantNode.product_title node) "Unknown Product")
                 (nullish (VariantNode.title node) "Default")
                 (VariantNode.sku node))
          else result
      | None => result
      end
  | None => result
  end.

Definition fetchVariantInfo (variantGids : list string)
  : P Env (JsMap.t VariantInfo.t) :=
  let result := JsMap.empty in
  if (List.length variantGids =? 0)%nat then pret result
  else
    let batchSize := 50%nat in
    pfoldM
      (fun result batch =>
         nodes <- graphql (queryVariants batch) ;;
         pret (fold_left setVariantInfo (nullish nodes []) result))
      (batches batchSize variantGids) result.

(** The body of the loop of [expandBundles] over the line items;
    [item.quantity * child.quantity] is the product of the code as long as
    it is a safe integer. *)
Definition expandLine (bundleMap : JsMap.t BundleRow.t)
  (childVariantInfo : JsMap.t VariantInfo.t)
  (result : list OrderLineItem.t) (item : OrderLineItem.t)
  : list OrderLineItem.t :=
  match JsMap.get bundleMap (OrderLineItem.variantGid item) with
  | Some bundle =>
      fold_left
        (fun result child =>
           let childInfo :=
             JsMap.get childVariantInfo (BundleChild.childGid child) in
           (result
            ++ [OrderLineItem.mk
                  (BundleChild.childGid child)
                  (nullish (option_map VariantInfo.productTitle childInfo)
                     "Unknown Product")
                  (nullish (option_map VariantInfo.variantTitle childInfo)
                     "Unknown Variant")
                  (match childInfo with
                   | Some info => VariantInfo.sku info
                   | None => None
                   end)
                  (OrderLineItem.quantity item * BundleChild.quantity child)])%list)
        (BundleRow.children bundle) result
  | None => (result ++ [item])%list
  end.

Definition expandBundles (shop : string) (lineItems : list OrderLineItem.t)
  : P Env (list OrderLineItem.t) :=
  let variantGids := uniqueStrings (map OrderLineItem.variantGid lineItems) in
  expandableBundles <-
    bundleRow_findMany (fun b =>
      (BundleRow.shopId b =? shop)%string
      && existsb (fun gid => (gid =? BundleRow.parentGid b)%string) variantGids
      && BundleRow.expandOnPick b) ;;
  let bundleMap :=
    JsMap_of (map (fun b => (BundleRow.parentGid b, b)) expandableBundles) in
  let childGids :=
    flat_map (fun b => map BundleChild.childGid (BundleRow.children b))
      expandableBundles in
  childVariantInfo <- fetchVariantInfo childGids ;;
  pret (fold_left (expandLine bundleMap childVariantInfo) lineItems []).

Definition addBinLocations (shop : string) (items : list OrderLineItem.t)
  : P Env (list PickListItem.t) :=
  let variantGids := map OrderLineItem.variantGid items in
  locations <-
    binLocation_findMany (fun l =>
      (BinLocation.shopId l =? shop)%string
      && existsb (fun gid => (gid =? BinLocation.variantGid l)%string)
           variantGids) ;;
  let locationMap :=
    JsMap_of
      (map (fun l => (BinLocation.variantGid l, BinLocation.location l))
         locations) in
  pret
    (map
       (fun item =>
          PickListItem.mk
            (OrderLineItem.productTitle item)
            (OrderLineItem.variantTitle item)
            (OrderLineItem.sku item)
            (OrderLineItem.variantGid item)
            (OrderLineItem.quantity item)
            (JsMap.get locationMap (OrderLineItem.variantGid item)))
       items).

Definition generatePickList (fuel : nat) (filters : PickListFilters.t)
  (sortBy : SortField) (sortDirection : SortDirection)
  : P Env (option PickListResult.t) :=
  orders <- fetchOrders fuel filters ;;
  match orders with
  | None => pret None
  | Some orders =>
      let lineItems :=
        fold_left (fun lineItems order => (lineItems ++ Order.lineItems order)%list)
          orders [] in
      expandedItems <- expandBundles (PickListFilters.shop filters) lineItems ;;
      let aggregated := aggregateItems expandedItems in
      itemsWithLocations <-
        addBinLocations (PickListFilters.shop filters) aggregated ;;
      let sortedItems :=
        sortItems localeCompare itemsWithLocations sortBy sortDirection in
      generatedAt <- New_Date ;;
      pret
        (Some
           (PickListResult.mk sortedItems (Z.of_nat (List.length orders))
              (pickTotal sortedItems) generatedAt))
  end.

End PickListService.

(* ------------------------------------------------------------------------- *)
(** ** A shop front that answers from its books *)

(** A shop that serves its order pages by cursor, answers a variant query
    with the node of each id it knows and [null] for the others, and never
    fails. *)
Module Storefront.

Record t : Type := mk {
  orderPages : list (option string * OrdersQueryResult.t);
  variants : list VariantNode.t;
  clock : Z
}.

Definition sameCursor (a b : option string) : bool :=
  match a, b with
  | Some x, Some y => (x =? y)%string
  | None, None => true
  | _, _ => false
  end.

Definition page (s : t) (after : option string)
  : option OrdersQueryResult.t :=
  option_map snd (find (fun p => sameCursor (fst p) after) (orderPages s)).

Definition node (s : t) (id : string) : option VariantNode.t :=
  find
    (fun n =>
       match VariantNode.id n with
       | Some i => (i =? id)%string
       | None => false
       end)
    (variants s).

End Storefront.

#[export] Instance Storefront_AdminApi : AdminApi Storefront.t := {
  queryOrders _ after _ s := (Ok (Storefront.page s after), s);
  queryVariants ids s := (Ok (Some (map (Storefront.node s) ids)), s);
  newDate s := (Storefront.clock s, s)
}.

(** Two pages of orders for packs and cans; the packs are expanded on the
    pick list and the cans have a bin. *)
Module Counter.

Definition pack : BundleRow.t := BundleRow.mk Sample.bundle true.

Definition page1 : OrdersQueryResult.t :=
  OrdersQueryResult.mk
    (Some (PageInfo.mk true (Some "cursor-1")))
    (Some
       [OrderNode.mk "gid://shopify/Order/1" "#1001"
          (Some
             [LineItemNode.mk 2
                (Some (OrderVariant.mk Sample.PACK (Some "24-Pack") None
                         (Some "Lager")));
              LineItemNode.mk 3
                (Some (OrderVariant.mk Sample.CAN (Some "Single")
                         (Some "LAGER-1") (Some "Lager")));
              LineItemNode.mk 1 None])]).

Definition page2 : OrdersQueryResult.t :=
  OrdersQueryResult.mk
    (Some (PageInfo.mk false None))
    (Some
       [OrderNode.mk "gid://shopify/Order/2" "#1002"
          (Some
             [LineItemNode.mk 1
                (Some (OrderVariant.mk Sample.CAN (Some "Single")
                         (Some "LAGER-1") (Some "Lager")))])]).

Definition storefront : Storefront.t :=
  Storefront.mk
    [(None, page1); (Some "cursor-1", page2)]
    [VariantNode.mk (Some Sample.CAN) (Some "Single") (Some "LAGER-1")
       (Some "Lager")]
    1767225600000.

Definition world : PickWorld Storefront.t :=
  mkPickWorld [pack]
    [BinLocation.mk "bin-1" Sample.SHOP Sample.CAN "A-01"] storefront.

(** The same tables before a shop that has no answer about orders. *)
Definition silent : PickWorld Storefront.t :=
  mkPickWorld [pack]
    [BinLocation.mk "bin-1" Sample.SHOP Sample.CAN "A-01"]
    (Storefront.mk [] [] 1767225600000).

Definition filters (orderIds : option (list string)) : PickListFilters.t :=
  PickListFilters.mk Sample.SHOP None None [unfulfilled] orderIds.

Definition packLine : OrderLineItem.t :=
  OrderLineItem.mk Sample.PACK "Lager" "24-Pack" None 2.

Definition canLine : OrderLineItem.t :=
  OrderLineItem.mk Sample.CAN "Lager" "Single" (Some "LAGER-1") 3.

End Counter.

(* ------------------------------------------------------------------------- *)
(** ** Vocabulary of the pick list properties *)

(** The variant queries of the shop never fail. *)
Definition reliableVariants (Env : Type) `{AdminApi Env} : Prop :=
  forall ids e, exists nodes e', queryVariants ids e = (Ok nodes, e').

(** The last row of a table that satisfies a condition: the one a [Map]
    built from the rows keeps for a key. *)
Definition lastRow {A : Type} (p : A -> bool) (rows : list A) : option A :=
  find p (rev rows).

(** The bundle of the shop that has the variant as its parent and is to be
    expanded on pick lists (the table's unique index on shop and parent
    allows one bundle per parent). *)
Definition expandableBundle (rows : list BundleRow.t) (shop gid : string)
  : option BundleRow.t :=
  lastRow
    (fun b =>
       (BundleRow.shopId b =? shop)%string
       && (BundleRow.parentGid b =? gid)%string
       && BundleRow.expandOnPick b)
    rows.

(** What is to be picked for a line item: for an expandable bundle, each
    child times the ordered quantity; otherwise the variant itself. *)
Definition pickedUnits (rows : list BundleRow.t) (shop : string)
  (item : OrderLineItem.t) : list (string * Z) :=
  match expandableBundle rows shop (OrderLineItem.variantGid item) with
  | Some b =>
      map
        (fun child =>
           (BundleChild.childGid child,
            OrderLineItem.quantity item * BundleChild.quantity child))
        (BundleRow.children b)
  | None => [(OrderLineItem.variantGid item, OrderLineItem.quantity item)]
  end.

(** The quantities that meet in the expansion of the line items are safe
    integers, and so are their products. *)
Definition safeExpansion (rows : list BundleRow.t) (shop : string)
  (lineItems : list OrderLineItem.t) : Prop :=
  forall item,
    In item lineItems ->
    safeInteger (OrderLineItem.quantity item)
    /\ forall b child,
         expandableBundle rows shop (OrderLineItem.variantGid item) = Some b ->
         In child (BundleRow.children b) ->
         safeInteger (BundleChild.quantity child)
         /\ safeInteger
              (OrderLineItem.quantity item * BundleChild.quantity child).

(** The variant and the quantity of a line item. *)
Definition unitsOfLine (item : OrderLineItem.t) : string * Z :=
  (OrderLineItem.variantGid item, OrderLineItem.quantity item).

(** The units to pick of one variant, and of all of them. *)
Definition unitsOf (gid : string) (units : list (string * Z)) : Z :=
  fold_right Z.add 0
    (map snd (filter (fun u => (fst u =? gid)%string) units)).

Definition allUnits (units : list (string * Z)) : Z :=
  fold_right Z.add 0 (map snd units).

(** The bin of a variant in a shop (the table's unique index on shop and
    variant allows one row). *)
Definition locationOf (rows : list BinLocation.t) (shop gid : string)
  : option string :=
  option_map BinLocation.location
    (lastRow
       (fun l =>
          (BinLocation.shopId l =? shop)%string
          && (BinLocation.variantGid l =? gid)%string)
       rows).

(** A line item with its bin. *)
Definition shelved (rows : list BinLocation.t) (shop : string)
  (item : OrderLineItem.t) : PickListItem.t :=
  PickListItem.mk
    (OrderLineItem.productTitle item)
    (OrderLineItem.variantTitle item)
    (OrderLineItem.sku item)
    (OrderLineItem.variantGid item)
    (OrderLineItem.quantity item)
    (locationOf rows shop (OrderLineItem.variantGid item)).

(** What [fetchVariantInfo] keeps of a node. *)
Definition infoOfNode (node : VariantNode.t) : VariantInfo.t :=
  VariantInfo.mk
    (nullish (VariantNode.product_title node) "Unknown Product")
    (nullish (VariantNode.title node) "Default")
    (VariantNode.sku node).

(** The line items of the orders, in order. *)
Definition linesOf (orders : list Order.t) : list OrderLineItem.t :=
  flat_map Order.lineItems orders.

(** A small pick list: two shelved items, one without a location and one
    whose location is the empty string. *)
Module Picks.

Definition lager : PickListItem.t :=
  PickListItem.mk "Lager" "Single" (Some "LAGER-1") "gid://1" 10 (Some "B-02").

Definition ale : PickListItem.t :=
  PickListItem.mk "Ale" "Single" None "gid://2" 5 None.

Definition stout : PickListItem.t :=
  PickListItem.mk "Stout" "6 Pack" None "gid://3" 5 (Some "A-01").

Definition porter : PickListItem.t :=
  PickListItem.mk "Porter" "Single" None "gid://4" 7 (Some "").

Definition items : list PickListItem.t := [lager; ale; stout; porter].

End Picks.

(* ========================================================================= *)
(** * Part II: properties *)
(* ========================================================================= *)

(* ------------------------------------------------------------------------- *)
(** ** The availability calculator *)

Lemma calculateBundleAvailability_pos s m :
  0 < m -> calculateBundleAvailability s m = Ok (s / m).
Proof.
  intros Hm. unfold calculateBundleAvailability.
  destruct (Z.leb_spec m 0); [lia | reflexivity].
Qed.

Lemma componentAvailability_pos c :
  0 < Component.quantity c ->
  componentAvailability c = Ok (Component.stock c / Component.quantity c).
Proof.
  intros Hq. unfold componentAvailability.
  destruct (Z.leb_spec (Component.quantity c) 0); [lia | reflexivity].
Qed.

Lemma rmap_componentAvailability_pos cs :
  (forall c, In c cs -> 0 < Component.quantity c) ->
  rmap componentAvailability cs = Ok (quotients cs).
Proof.
  induction cs as [|c cs IH]; intros Hpos; simpl; [reflexivity|].
  rewrite componentAvailability_pos by (apply Hpos; now left).
  simpl. rewrite IH by (intros; apply Hpos; now right).
  reflexivity.
Qed.

Lemma rmap_componentAvailability_throw cs :
  (exists c, In c cs /\ Component.quantity c <= 0) ->
  rmap componentAvailability cs = Throw (JsError QUANTITY_MESSAGE).
Proof.
  induction cs as [|c cs IH]; intros (c' & Hin & Hq); [destruct Hin|].
  simpl. unfold componentAvailability at 1.
  destruct (Z.leb_spec (Component.quantity c) 0) as [Hle|Hgt]; [reflexivity|].
  destruct Hin as [->|Hin]; [lia|].
  simpl. rewrite IH by eauto. reflexivity.
Qed.

Lemma Math_min_le_first a rest : Math_min a rest <= a.
Proof.
  unfold Math_min. revert a.
  induction rest as [|b rest IH]; intros a; simpl; [lia|].
  specialize (IH (Z.min a b)). lia.
Qed.

Lemma Math_min_le_rest a rest x : In x rest -> Math_min a rest <= x.
Proof.
  unfold Math_min. revert a.
  induction rest as [|b rest IH]; intros a Hin; simpl; [destruct Hin|].
  destruct Hin as [->|Hin].
  - pose proof (Math_min_le_first (Z.min a x) rest) as H.
    unfold Math_min in H. lia.
  - now apply IH.
Qed.

Lemma Math_min_In a rest : In (Math_min a rest) (a :: rest).
Proof.
  unfold Math_min. revert a.
  induction rest as [|b rest IH]; intros a; simpl; [now left|].
  destruct (IH (Z.min a b)) as [H|H].
  - rewrite <- H. destruct (Z.min_spec a b) as [[_ ->]|[_ ->]]; auto.
  - auto.
Qed.

(** With positive quantities the mixed calculator returns a lower bound of
    the per-component quotients that is one of them. *)
Lemma calculateMixedBundleAvailability_min cs :
  cs <> [] ->
  (forall c, In c cs -> 0 < Component.quantity c) ->
  exists r,
    calculateMixedBundleAvailability cs = Ok r /\
    In r (quotients cs) /\
    (forall q, In q (quotients cs) -> r <= q).
Proof.
  destruct cs as [|c cs]; [congruence|]. intros _ Hpos.
  unfold calculateMixedBundleAvailability.
  rewrite componentAvailability_pos by (apply Hpos; now left).
  simpl. rewrite rmap_componentAvailability_pos
    by (intros; apply Hpos; now right).
  simpl. eexists. split; [reflexivity|]. split.
  - apply (Math_min_In _ (quotients cs)).
  - intros q [<-|Hq].
    + apply Math_min_le_first.
    + now apply Math_min_le_rest.
Qed.

Example scenario_A :
  calculateBundleAvailability 48 24 = Ok 2 /\
  calculateBundleAvailability 48 6 = Ok 8 /\
  calculateBundleAvailability 48 4 = Ok 12 /\
  calculateBundleAvailability 48 1 = Ok 48.
Proof. repeat split. Qed.

Example scenario_B :
  calculateMixedBundleAvailability
    [Component.mk 100 6; Component.mk 40 4; Component.mk 10 2] = Ok 5.
Proof. reflexivity. Qed.

(** C2.  For a non-negative stock [s] and a positive multiplier [m], both
    safe integers, [calculateBundleAvailability s m] returns the floor of
    [s / m]: the integer [q] with [m * q <= s < m * (q + 1)].  Hence it is
    monotone in [s] (over the safe integers), returns [s] for [m = 1], and
    returns [0] when [s < m]. *)
Theorem calculateBundleAvailability_floor (s m : Z) :
  0 <= s -> 0 < m ->
  safeInteger s -> safeInteger m ->
  (exists q,
      calculateBundleAvailability s m = Ok q /\
      m * q <= s < m * (q + 1) /\ 0 <= q) /\
  (forall s' q q',
      s <= s' ->
      safeInteger s' ->
      calculateBundleAvailability s m = Ok q ->
      calculateBundleAvailability s' m = Ok q' ->
      q <= q') /\
  (m = 1 -> calculateBundleAvailability s m = Ok s) /\
  (s < m -> calculateBundleAvailability s m = Ok 0).
Proof.
  intros Hs Hm _ _. repeat split.
  - exists (s / m). rewrite calculateBundleAvailability_pos by assumption.
    split; [reflexivity|].
    pose proof (Z.mul_div_le s m Hm).
    pose proof (Z.mul_succ_div_gt s m Hm).
    pose proof (Z.div_pos s m Hs Hm). lia.
  - intros s' q q' Hle _.
    rewrite !calculateBundleAvailability_pos by assumption.
    intros [= <-] [= <-]. apply Z.div_le_mono; lia.
  - intros ->. rewrite calculateBundleAvailability_pos by lia.
    now rewrite Z.div_1_r.
  - intros Hlt. rewrite calculateBundleAvailability_pos by lia.
    now rewrite Z.div_small by lia.
Qed.

Lemma calculateBundleAvailability_floor_witness :
  (exists q,
      calculateBundleAvailability 40 6 = Ok q /\
      6 * q <= 40 < 6 * (q + 1) /\ 0 <= q) /\
  (forall s' q q',
      40 <= s' ->
      safeInteger s' ->
      calculateBundleAvailability 40 6 = Ok q ->
      calculateBundleAvailability s' 6 = Ok q' ->
      q <= q') /\
  (6 = 1 -> calculateBundleAvailability 40 6 = Ok 40) /\
  (40 < 6 -> calculateBundleAvailability 40 6 = Ok 0).
Proof.
  apply (calculateBundleAvailability_floor 40 6);
    unfold safeInteger, MAX_SAFE_INTEGER; lia.
Defined.

(** C3.  For a component list whose quantities are positive and whose
    stocks are non-negative, all of them safe integers,
    [calculateMixedBundleAvailability] returns the minimum of the floor
    divisions [stock / quantity] (an element of them that is below all of
    them); the empty list yields [0]; and a component without stock forces
    the result [0]. *)
Theorem calculateMixedBundleAvailability_minimum (cs : list Component.t) :
  (forall c, In c cs -> 0 < Component.quantity c /\ 0 <= Component.stock c) ->
  (forall c,
      In c cs ->
      safeInteger (Component.quantity c) /\ safeInteger (Component.stock c)) ->
  (cs = [] -> calculateMixedBundleAvailability cs = Ok 0) /\
  (cs <> [] ->
   exists r,
     calculateMixedBundleAvailability cs = Ok r /\
     In r (quotients cs) /\
     (forall c, In c cs -> r <= Component.stock c / Component.quantity c)) /\
  ((exists c, In c cs /\ Component.stock c = 0) ->
   calculateMixedBundleAvailability cs = Ok 0).
Proof.
  intros Hcs _.
  assert (Hpos : forall c, In c cs -> 0 < Component.quantity c)
    by (intros c Hc; now apply Hcs).
  split; [intros ->; reflexivity|]. split.
  - intros Hne.
    destruct (calculateMixedBundleAvailability_min cs Hne Hpos)
      as (r & Hr & Hin & Hmin).
    exists r. repeat split; try assumption.
    intros c Hc. apply Hmin. unfold quotients.
    apply (in_map (fun c => Component.stock c / Component.quantity c)), Hc.
  - intros (c & Hc & Hzero).
    assert (Hne : cs <> []) by (intros ->; destruct Hc).
    destruct (calculateMixedBundleAvailability_min cs Hne Hpos)
      as (r & Hr & Hin & Hmin).
    rewrite Hr. f_equal.
    assert (r <= 0).
    { assert (E : Component.stock c / Component.quantity c = 0)
        by (rewrite Hzero; apply Z.div_0_l; specialize (Hpos c Hc); lia).
      rewrite <- E. apply Hmin. unfold quotients.
      apply (in_map (fun c => Component.stock c / Component.quantity c)), Hc. }
    assert (0 <= r).
    { unfold quotients in Hin. apply in_map_iff in Hin.
      destruct Hin as (c' & <- & Hc').
      destruct (Hcs c' Hc'). apply Z.div_pos; lia. }
    lia.
Qed.

Lemma calculateMixedBundleAvailability_minimum_witness :
  let cs := [Component.mk 10 1; Component.mk 0 1; Component.mk 10 1] in
  (cs = [] -> calculateMixedBundleAvailability cs = Ok 0) /\
  (cs <> [] ->
   exists r,
     calculateMixedBundleAvailability cs = Ok r /\
     In r (quotients cs) /\
     (forall c, In c cs -> r <= Component.stock c / Component.quantity c)) /\
  ((exists c, In c cs /\ Component.stock c = 0) ->
   calculateMixedBundleAvailability cs = Ok 0).
Proof.
  intros cs. apply (calculateMixedBundleAvailability_minimum cs).
  - intros c [<-|[<-|[<-|[]]]]; simpl; lia.
  - intros c [<-|[<-|[<-|[]]]];
      unfold safeInteger, MAX_SAFE_INTEGER; simpl; lia.
Defined.

(** C6.  A non-positive multiplier makes [calculateBundleAvailability]
    throw, whatever the stock, and a component with a non-positive quantity
    makes [calculateMixedBundleAvailability] throw; in neither case is a
    value returned. *)
Theorem calculator_rejects_non_positive :
  (forall s m,
      m <= 0 ->
      calculateBundleAvailability s m = Throw (JsError MULTIPLIER_MESSAGE) /\
      forall v, calculateBundleAvailability s m <> Ok v) /\
  (forall cs,
      (exists c, In c cs /\ Component.quantity c <= 0) ->
      calculateMixedBundleAvailability cs = Throw (JsError QUANTITY_MESSAGE) /\
      forall v, calculateMixedBundleAvailability cs <> Ok v).
Proof.
  split.
  - intros s m Hm.
    assert (E : calculateBundleAvailability s m
                = Throw (JsError MULTIPLIER_MESSAGE)).
    { unfold calculateBundleAvailability.
      destruct (Z.leb_spec m 0); [reflexivity | lia]. }
    split; [exact E | intros v; rewrite E; discriminate].
  - intros cs Hbad.
    assert (E : calculateMixedBundleAvailability cs
                = Throw (JsError QUANTITY_MESSAGE)).
    { destruct cs as [|c cs]; [destruct Hbad as (? & [] & _)|].
      unfold calculateMixedBundleAvailability, componentAvailability at 1.
      destruct (Z.leb_spec (Component.quantity c) 0) as [Hle|Hgt];
        [reflexivity|].
      simpl. rewrite rmap_componentAvailability_throw; [reflexivity|].
      destruct Hbad as (c' & [->|Hin] & Hq); [lia | eauto]. }
    split; [exact E | intros v; rewrite E; discriminate].
Qed.

Lemma calculator_rejects_non_positive_witness :
  (calculateBundleAvailability 48 (-1) = Throw (JsError MULTIPLIER_MESSAGE) /\
   forall v, calculateBundleAvailability 48 (-1) <> Ok v) /\
  (calculateMixedBundleAvailability [Component.mk 10 1; Component.mk 10 0]
   = Throw (JsError QUANTITY_MESSAGE) /\
   forall v,
     calculateMixedBundleAvailability [Component.mk 10 1; Component.mk 10 0]
     <> Ok v).
Proof.
  split.
  - apply (proj1 calculator_rejects_non_positive 48 (-1)). lia.
  - apply (proj2 calculator_rejects_non_positive
             [Component.mk 10 1; Component.mk 10 0]).
    exists (Component.mk 10 0). simpl. split; [auto | lia].
Defined.

Example calculator_rejects_zero_and_minus_one :
  calculateBundleAvailability 48 0 = Throw (JsError MULTIPLIER_MESSAGE) /\
  calculateBundleAvailability 48 (-1) = Throw (JsError MULTIPLIER_MESSAGE) /\
  calculateMixedBundleAvailability [Component.mk 10 1; Component.mk 10 0]
  = Throw (JsError QUANTITY_MESSAGE) /\
  calculateMixedBundleAvailability [Component.mk 10 1; Component.mk 10 (-2)]
  = Throw (JsError QUANTITY_MESSAGE).
Proof. repeat split. Qed.

(** C10.  Stock is not validated.  A negative stock with a positive
    multiplier, both safe integers, yields a negative availability (the
    floor of the negative quotient), and a mixed bundle with positive
    quantities and some negative stock yields a negative availability. *)
Theorem calculator_negative_stock :
  (forall s m,
      s < 0 -> 0 < m ->
      safeInteger s -> safeInteger m ->
      exists q,
        calculateBundleAvailability s m = Ok q /\
        m * q <= s < m * (q + 1) /\ q < 0) /\
  (forall cs,
      (forall c, In c cs -> 0 < Component.quantity c) ->
      (exists c, In c cs /\ Component.stock c < 0) ->
      exists r, calculateMixedBundleAvailability cs = Ok r /\ r < 0).
Proof.
  split.
  - intros s m Hs Hm _ _. exists (s / m).
    rewrite calculateBundleAvailability_pos by assumption.
    split; [reflexivity|].
    pose proof (Z.mul_div_le s m Hm).
    pose proof (Z.mul_succ_div_gt s m Hm).
    assert (s / m < 0) by (apply Z.div_lt_upper_bound; lia). lia.
  - intros cs Hpos (c & Hc & Hneg).
    assert (Hne : cs <> []) by (intros ->; destruct Hc).
    destruct (calculateMixedBundleAvailability_min cs Hne Hpos)
      as (r & Hr & _ & Hmin).
    exists r. split; [assumption|].
    assert (r <= Component.stock c / Component.quantity c).
    { apply Hmin. unfold quotients.
      apply (in_map (fun c => Component.stock c / Component.quantity c)), Hc. }
    assert (Component.stock c / Component.quantity c < 0)
      by (apply Z.div_lt_upper_bound; [apply Hpos, Hc | lia]).
    lia.
Qed.

Lemma calculator_negative_stock_witness :
  (exists q,
      calculateBundleAvailability (-1) 24 = Ok q /\
      24 * q <= -1 < 24 * (q + 1) /\ q < 0) /\
  (exists r,
      calculateMixedBundleAvailability
        [Component.mk 10 2; Component.mk (-3) 2] = Ok r /\ r < 0).
Proof.
  split.
  - apply (proj1 calculator_negative_stock (-1) 24);
      unfold safeInteger, MAX_SAFE_INTEGER; lia.
  - apply (proj2 calculator_negative_stock
             [Component.mk 10 2; Component.mk (-3) 2]).
    + intros c [<-|[<-|[]]]; simpl; lia.
    + exists (Component.mk (-3) 2). simpl. split; [auto | lia].
Defined.

(* ------------------------------------------------------------------------- *)
(** ** The monad and the store *)

Section Store.

Context {Env : Type} `{Environment Env}.

Lemma world_eta (w : World Env) :
  mkWorld (syncLocks w) (bundles w) (env w) = w.
Proof. now destruct w. Qed.

Lemma keeps_store_ret A (a : A) : keeps_store (@ret Env A a).
Proof. intros w r w' [= _ <-]. auto. Qed.

Lemma keeps_store_lift A (x : result A) : keeps_store (@lift Env A x).
Proof. intros w r w' [= _ <-]. auto. Qed.

Lemma keeps_store_request A (f : Env -> result A * Env) :
  keeps_store (request f).
Proof.
  intros w r w'. unfold request. destruct (f (env w)).
  intros [= _ <-]. auto.
Qed.

Lemma keeps_store_Date_now : keeps_store Date_now.
Proof.
  intros w r w'. unfold Date_now. destruct (dateNow (env w)).
  intros [= _ <-]. auto.
Qed.

Lemma keeps_store_bind A B (m : M Env A) (k : A -> M Env B) :
  keeps_store m -> (forall a, keeps_store (k a)) -> keeps_store (bind m k).
Proof.
  intros Hm Hk w r w'. unfold bind.
  destruct (m w) as [[a|e] w1] eqn:E; intros E2.
  - destruct (Hm _ _ _ E) as [<- <-]. exact (Hk a _ _ _ E2).
  - injection E2 as <- <-. exact (Hm _ _ _ E).
Qed.

Lemma keeps_store_foldM A B (body : B -> A -> M Env B) xs acc :
  (forall b a, keeps_store (body b a)) -> keeps_store (foldM body xs acc).
Proof.
  intros Hbody. revert acc.
  induction xs as [|x xs IH]; intros acc; simpl.
  - apply keeps_store_ret.
  - apply keeps_store_bind; [apply Hbody | intros; apply IH].
Qed.

Lemma keeps_store_bundle_findMany where_ :
  keeps_store (@bundle_findMany Env where_).
Proof. intros w r w' [= _ <-]. auto. Qed.

Lemma keeps_store_getInventoryLevels ids locationId :
  keeps_store (getInventoryLevels ids locationId).
Proof.
  apply keeps_store_foldM. intros levels batch.
  apply keeps_store_bind; [apply keeps_store_request|].
  intros; apply keeps_store_ret.
Qed.

Lemma keeps_store_adjustInventoryLevels adjustments reason :
  keeps_store (adjustInventoryLevels adjustments reason).
Proof.
  unfold adjustInventoryLevels.
  destruct adjustments as [|a rest]; [apply keeps_store_ret|].
  destruct (filter _ (a :: rest)); [apply keeps_store_ret|].
  apply keeps_store_foldM. intros; apply keeps_store_request.
Qed.

Lemma keeps_store_calculateBundleAdjustments bundle locationGid changed avail :
  keeps_store (calculateBundleAdjustments bundle locationGid changed avail).
Proof.
  unfold calculateBundleAdjustments.
  apply keeps_store_bind.
  { apply keeps_store_foldM. intros m v.
    apply keeps_store_bind; [apply keeps_store_request|].
    intros [id|]; [destruct (truthy id)|]; apply keeps_store_ret. }
  intros inventoryItemMap.
  apply keeps_store_bind; [apply keeps_store_getInventoryLevels|].
  intros currentLevels.
  destruct (Bundle.children bundle) as [|c [|c' rest]];
    (apply keeps_store_bind; [apply keeps_store_lift|]);
    intros; apply keeps_store_ret.
Qed.

Lemma keeps_store_findBundlesForVariant shop variantGid :
  keeps_store (@findBundlesForVariant Env shop variantGid).
Proof.
  unfold findBundlesForVariant.
  apply keeps_store_bind; [apply keeps_store_bundle_findMany|]. intros ps.
  apply keeps_store_bind; [apply keeps_store_bundle_findMany|]. intros cs.
  apply keeps_store_ret.
Qed.

(** *** Acquire and release, as functions of the lock table *)

Lemma acquireSyncLock_run lockId bundleId (w : World Env) :
  let now := fst (dateNow (env w)) in
  let e := snd (dateNow (env w)) in
  let live := liveLocks now (syncLocks w) in
  acquireSyncLock lockId bundleId w =
  if existsb (fun l => (SyncLock.id l =? lockId)%string) live
  then (Ok false, mkWorld live (bundles w) e)
  else (Ok true,
        mkWorld (live ++ [SyncLock.mk lockId bundleId (now + SYNC_LOCK_TTL_MS)])
          (bundles w) e).
Proof.
  unfold acquireSyncLock, bind, Date_now, try_catch,
    syncLock_deleteMany_expired, syncLock_create, ret, liveLocks.
  destruct (dateNow (env w)) as [now e]. simpl.
  destruct (existsb _ _); reflexivity.
Qed.

Lemma releaseSyncLock_run lockId (w : World Env) :
  releaseSyncLock lockId w =
  (Ok tt,
   mkWorld
     (filter (fun l => negb (SyncLock.id l =? lockId)%string) (syncLocks w))
     (bundles w) (env w)).
Proof.
  unfold releaseSyncLock, try_catch, syncLock_delete, ret.
  destruct (existsb _ _) eqn:E; [reflexivity|].
  f_equal. rewrite <- (world_eta w) at 1. f_equal.
  symmetry. apply forallb_filter_id.
  apply forallb_forall. intros l Hl.
  destruct (SyncLock.id l =? lockId)%string eqn:El; [|reflexivity].
  assert (existsb (fun l => (SyncLock.id l =? lockId)%string) (syncLocks w)
          = true) by (apply existsb_exists; eauto).
  congruence.
Qed.

End Store.

(* ------------------------------------------------------------------------- *)
(** ** Sync locks *)

Section Locks.

Context {Env : Type} `{Environment Env}.

Lemma existsb_id_liveLocks lockId now (locks : list SyncLock.t) :
  existsb (fun l => (SyncLock.id l =? lockId)%string) (liveLocks now locks)
  = true <->
  exists l,
    In l locks /\ SyncLock.id l = lockId /\ SyncLock.expired now l = false.
Proof.
  rewrite existsb_exists. unfold liveLocks. split.
  - intros (l & Hin & Hid). apply filter_In in Hin as [Hin Hlive].
    exists l. repeat split; [assumption | now apply String.eqb_eq |].
    now apply negb_true_iff.
  - intros (l & Hin & Hid & Hlive). exists l. split.
    + apply filter_In. split; [assumption | now rewrite Hlive].
    + now apply String.eqb_eq.
Qed.

Lemma fresh_lock_live now lockId bundleId :
  SyncLock.expired now (SyncLock.mk lockId bundleId (now + SYNC_LOCK_TTL_MS))
  = false.
Proof.
  unfold SyncLock.expired, SYNC_LOCK_TTL_MS. simpl. apply Z.ltb_ge. lia.
Qed.

(** C4.  [acquireSyncLock] reads the clock, deletes every expired lock
    (and nothing else), and then answers [true] exactly when no live lock
    with the requested id was in the table; in that case the table now
    holds the new lock, expiring one TTL later.  If that lock is never
    released, a later call for the same id made after the TTL has elapsed
    succeeds again. *)
Theorem acquireSyncLock_contract lockId bundleId (w : World Env) :
  let now := fst (dateNow (env w)) in
  let live_holder :=
    exists l,
      In l (syncLocks w) /\ SyncLock.id l = lockId /\
      SyncLock.expired now l = false in
  exists acquired w',
    acquireSyncLock lockId bundleId w = (Ok acquired, w') /\
    (forall l, In l (syncLocks w') -> SyncLock.expired now l = false) /\
    (forall l,
        In l (syncLocks w) -> SyncLock.expired now l = false ->
        In l (syncLocks w')) /\
    (acquired = true <-> ~ live_holder) /\
    (acquired = false <-> live_holder) /\
    (acquired = true ->
     In (SyncLock.mk lockId bundleId (now + SYNC_LOCK_TTL_MS)) (syncLocks w')) /\
    (acquired = true ->
     forall (w2 : World Env) bundleId2,
       (forall l,
           In l (syncLocks w2) -> SyncLock.id l = lockId ->
           In l (syncLocks w')) ->
       now + SYNC_LOCK_TTL_MS < fst (dateNow (env w2)) ->
       exists w3, acquireSyncLock lockId bundleId2 w2 = (Ok true, w3)).
Proof.
  intros now live_holder.
  pose proof (acquireSyncLock_run lockId bundleId w) as Hrun.
  cbv zeta in Hrun. fold now in Hrun.
  pose proof (existsb_id_liveLocks lockId now (syncLocks w)) as Hex.
  fold live_holder in Hex.
  destruct (existsb _ (liveLocks now (syncLocks w))) eqn:E.
  - (* a live lock holds the id *)
    exists false, (mkWorld (liveLocks now (syncLocks w)) (bundles w)
                     (snd (dateNow (env w)))).
    split; [exact Hrun|]. simpl.
    assert (Hlive : live_holder) by now apply Hex.
    repeat split; try discriminate; try tauto.
    + intros l Hl. apply filter_In in Hl as [_ Hl].
      now apply negb_true_iff.
    + intros l Hin Hl. apply filter_In. now rewrite Hl.
  - (* the id is free *)
    exists true, (mkWorld
                    (liveLocks now (syncLocks w)
                     ++ [SyncLock.mk lockId bundleId (now + SYNC_LOCK_TTL_MS)])
                    (bundles w) (snd (dateNow (env w)))).
    split; [exact Hrun|]. simpl.
    assert (Hfree : ~ live_holder)
      by (intros Hl; apply Hex in Hl; discriminate).
    repeat split; try discriminate; try tauto.
    + intros l Hl. apply in_app_or in Hl as [Hl|[<-|[]]].
      * apply filter_In in Hl as [_ Hl]. now apply negb_true_iff.
      * apply fresh_lock_live.
    + intros l Hin Hl. apply in_or_app. left.
      apply filter_In. now rewrite Hl.
    + intros _. apply in_or_app. right. now left.
    + intros _ w2 bundleId2 Hkept Hlater.
      pose proof (acquireSyncLock_run lockId bundleId2 w2) as Hrun2.
      cbv zeta in Hrun2.
      destruct (existsb _ (liveLocks (fst (dateNow (env w2))) (syncLocks w2)))
        eqn:E2; [|eauto].
      exfalso. apply existsb_id_liveLocks in E2.
      destruct E2 as (l & Hin2 & Hid & Hlive2).
      specialize (Hkept l Hin2 Hid).
      apply in_app_or in Hkept as [Hl|[<-|[]]].
      * apply filter_In in Hl as [Hin Hl]. apply Hfree. exists l.
        repeat split; try assumption. now apply negb_true_iff.
      * unfold SyncLock.expired in Hlive2. simpl in Hlive2.
        apply Z.ltb_ge in Hlive2. lia.
Qed.

(** *** Release *)

Lemma syncLockedBundle_locks lockId bundle locationGid variantGid available
  (w w' : World Env) r :
  syncLockedBundle lockId bundle locationGid variantGid available w = (r, w') ->
  syncLocks w' =
  filter (fun l => negb (SyncLock.id l =? lockId)%string) (syncLocks w) /\
  bundles w' = bundles w.
Proof.
  unfold syncLockedBundle, try_finally.
  match goal with |- context [let (_, _) := ?body w in _] =>
    assert (Hbody : keeps_store body) end.
  { apply keeps_store_bind;
      [apply keeps_store_calculateBundleAdjustments|].
    intros adjustments. apply keeps_store_bind;
      [apply keeps_store_adjustInventoryLevels|].
    intros; apply keeps_store_ret. }
  match goal with |- context [let (_, _) := ?body w in _] =>
    destruct (body w) as [r1 w1] eqn:E end.
  destruct (Hbody _ _ _ E) as [Hl Hb].
  rewrite releaseSyncLock_run. intros [= _ <-]. simpl.
  now rewrite Hl, Hb.
Qed.

Lemma filter_other_id_live lockId now (locks : list SyncLock.t) data :
  existsb (fun l => (SyncLock.id l =? lockId)%string) (liveLocks now locks)
  = false ->
  SyncLock.id data = lockId ->
  filter (fun l => negb (SyncLock.id l =? lockId)%string)
    (liveLocks now locks ++ [data])
  = liveLocks now locks.
Proof.
  intros Hfree Hid. rewrite filter_app. simpl.
  rewrite Hid, String.eqb_refl. simpl.
  rewrite app_nil_r. apply forallb_filter_id.
  apply forallb_forall. intros l Hl.
  destruct (SyncLock.id l =? lockId)%string eqn:El; [|reflexivity].
  assert (existsb (fun l => (SyncLock.id l =? lockId)%string)
            (liveLocks now locks) = true) by (apply existsb_exists; eauto).
  congruence.
Qed.

(** Whatever happens to the bundles, the loop only removes locks. *)
Lemma syncBundles_locks bs locationId locationGid variantGid available :
  forall total (w w' : World Env) r,
    syncBundles bs locationId locationGid variantGid available total w
    = (r, w') ->
    incl (syncLocks w') (syncLocks w) /\ bundles w' = bundles w.
Proof.
  induction bs as [|b bs IH]; intros total w w' r; simpl.
  - intros [= _ <-]. split; [apply incl_refl | reflexivity].
  - unfold bind at 1.
    destruct (Date_now w) as [[now|e] w1] eqn:Enow.
    2:{ unfold Date_now in Enow. destruct (dateNow (env w)). discriminate. }
    destruct (keeps_store_Date_now _ _ _ Enow) as [Hl1 Hb1].
    unfold bind at 1. rewrite acquireSyncLock_run. cbv zeta.
    set (t := fst (dateNow (env w1))). set (e1 := snd (dateNow (env w1))).
    set (lockId := syncLockId b locationId now).
    destruct (existsb _ (liveLocks t (syncLocks w1))) eqn:Efree; simpl.
    + intros Hrest. apply IH in Hrest as [Hincl Hb]. simpl in *.
      split; [|congruence].
      intros l Hl. apply Hincl in Hl. apply filter_In in Hl as [Hl _].
      now rewrite <- Hl1.
    + unfold bind at 1.
      destruct (syncLockedBundle _ _ _ _ _ _) as [[made|e] w2] eqn:Ebody;
        apply syncLockedBundle_locks in Ebody as [Hl2 Hb2]; simpl in Hl2, Hb2;
        rewrite (filter_other_id_live lockId t (syncLocks w1)) in Hl2
          by (assumption || reflexivity).
      * intros Hrest. apply IH in Hrest as [Hincl Hb].
        split; [|congruence].
        intros l Hl. apply Hincl in Hl. rewrite Hl2 in Hl.
        apply filter_In in Hl as [Hl _]. now rewrite <- Hl1.
      * intros [= _ <-]. split; [|congruence].
        intros l Hl. rewrite Hl2 in Hl.
        apply filter_In in Hl as [Hl _]. now rewrite <- Hl1.
Qed.

Lemma findBundlesForVariant_run shop variantGid (w : World Env) :
  findBundlesForVariant shop variantGid w
  = (Ok (foundBundles shop variantGid w), w).
Proof. reflexivity. Qed.

Lemma foundBundles_table shop variantGid (w w' : World Env) :
  bundles w' = bundles w ->
  foundBundles shop variantGid w' = foundBundles shop variantGid w.
Proof.
  intros Hb. unfold foundBundles, findBundlesForVariant, bind,
    bundle_findMany, ret. now rewrite Hb.
Qed.

(** C5.  Once the lock of a bundle is held, the guarded part of the loop
    body leaves no lock with that id in the table, whether it completes or
    throws (for any behaviour of the shop, failing adjustments included),
    so the id can be acquired again; and a whole call of
    [processInventoryUpdate], however it ends, leaves no lock behind that
    was not in the table before it. *)
Theorem syncLock_released_on_every_exit :
  (forall lockId bundle locationGid variantGid available (w w' : World Env) r,
      syncLockedBundle lockId bundle locationGid variantGid available w
      = (r, w') ->
      (forall l, In l (syncLocks w') -> SyncLock.id l <> lockId) /\
      (forall bundleId,
          exists w'', acquireSyncLock lockId bundleId w' = (Ok true, w''))) /\
  (forall event (w w' : World Env) r,
      processInventoryUpdate event w = (r, w') ->
      incl (syncLocks w') (syncLocks w)).
Proof.
  split.
  - intros lockId bundle locationGid variantGid available w w' r Hrun.
    apply syncLockedBundle_locks in Hrun as [Hlocks _].
    assert (Hgone : forall l, In l (syncLocks w') -> SyncLock.id l <> lockId).
    { intros l Hl. rewrite Hlocks in Hl. apply filter_In in Hl as [_ Hl].
      apply negb_true_iff in Hl. now apply String.eqb_neq. }
    split; [exact Hgone|].
    intros bundleId. rewrite acquireSyncLock_run. cbv zeta.
    destruct (existsb _ _) eqn:E; [|eauto].
    apply existsb_exists in E as (l & Hl & Hid).
    apply filter_In in Hl as [Hl _]. apply String.eqb_eq in Hid.
    now apply Hgone in Hl.
  - intros event w w' r. unfold processInventoryUpdate.
    unfold bind at 1.
    destruct (findVariantForInventoryItem _ w) as [[found|e] w1] eqn:Efind.
    2:{ intros [= _ <-].
        apply keeps_store_request in Efind as [-> _]. apply incl_refl. }
    apply keeps_store_request in Efind as [Hl1 Hb1].
    destruct found as [variantGid|].
    2:{ intros [= _ <-]. rewrite Hl1. apply incl_refl. }
    destruct (truthy variantGid); simpl.
    2:{ intros [= _ <-]. rewrite Hl1. apply incl_refl. }
    unfold bind at 1. rewrite findBundlesForVariant_run.
    destruct (foundBundles _ _ w1) as [|b bs].
    { intros [= _ <-]. rewrite Hl1. apply incl_refl. }
    unfold bind.
    destruct (syncBundles _ _ _ _ _ _ w1) as [[total|e] w2] eqn:Eloop;
      apply syncBundles_locks in Eloop as [Hincl _];
      intros [= _ <-]; now rewrite <- Hl1.
Qed.

(** C9.  When [processInventoryUpdate] returns a result, either the variant
    could not be resolved and the result is the resolution-failure skip, or
    [bundlesAffected] is the number of bundles found for the variant -
    locked or not - and [skipped] is set only when that number is zero. *)
Theorem processInventoryUpdate_bundlesAffected event (w w' : World Env) r :
  processInventoryUpdate event w = (Ok r, w') ->
  exists found w1,
    findVariantForInventoryItem (InventoryUpdateEvent.inventoryItemId event) w
    = (Ok found, w1) /\
    match found with
    | Some variantGid =>
        if truthy variantGid then
          let affected :=
            foundBundles (InventoryUpdateEvent.shop event) variantGid w in
          SyncResult.processed r = true /\
          SyncResult.bundlesAffected r = Z.of_nat (List.length affected) /\
          (affected <> [] -> SyncResult.skipped r = None) /\
          (affected = [] -> r = NO_BUNDLES)
        else r = RESOLUTION_FAILED
    | None => r = RESOLUTION_FAILED
    end.
Proof.
  unfold processInventoryUpdate. unfold bind at 1.
  destruct (findVariantForInventoryItem _ w) as [[found|e] w1] eqn:Efind;
    [|discriminate].
  intros Hrun. exists found, w1. split; [reflexivity|].
  apply keeps_store_request in Efind as [_ Hb1].
  destruct found as [variantGid|]; [|now injection Hrun as <- _].
  destruct (truthy variantGid); simpl in Hrun;
    [|now injection Hrun as <- _].
  unfold bind at 1 in Hrun. rewrite findBundlesForVariant_run in Hrun.
  cbv zeta.
  rewrite <- (foundBundles_table _ _ w w1 Hb1).
  destruct (foundBundles _ _ w1) as [|b bs].
  - injection Hrun as <- _. repeat split. congruence.
  - unfold bind in Hrun.
    destruct (syncBundles _ _ _ _ _ _ w1) as [[total|e] w2];
      [|discriminate].
    injection Hrun as <- _. simpl. repeat split. discriminate.
Qed.

End Locks.

(* ------------------------------------------------------------------------- *)
(** ** Insertion-ordered maps *)

Section JsMapFacts.

Context {V : Type}.

Lemma JsMap_get_set_same (m : JsMap.t V) k v :
  JsMap.get (JsMap.set m k v) k = Some v.
Proof.
  induction m as [|[k' v'] m IH]; simpl.
  - now rewrite String.eqb_refl.
  - destruct (k' =? k)%string eqn:E; simpl; now rewrite E.
Qed.

Lemma JsMap_get_set_other (m : JsMap.t V) k v k' :
  k <> k' -> JsMap.get (JsMap.set m k v) k' = JsMap.get m k'.
Proof.
  intros Hne. induction m as [|[k0 v0] m IH]; simpl.
  - apply String.eqb_neq in Hne. now rewrite Hne.
  - destruct (k0 =? k)%string eqn:E; simpl.
    + apply String.eqb_eq in E. subst k0.
      apply String.eqb_neq in Hne. now rewrite Hne.
    + destruct (k0 =? k')%string; [reflexivity | exact IH].
Qed.

Lemma JsMap_get_None (m : JsMap.t V) k :
  JsMap.get m k = None <-> ~ In k (JsMap.keys m).
Proof.
  induction m as [|[k0 v0] m IH]; simpl; [tauto|].
  destruct (k0 =? k)%string eqn:E.
  - apply String.eqb_eq in E. split; [discriminate | intros Hn; tauto].
  - apply String.eqb_neq in E. rewrite IH. tauto.
Qed.

Lemma JsMap_get_Some_In (m : JsMap.t V) k v :
  JsMap.get m k = Some v -> In (k, v) m.
Proof.
  induction m as [|[k0 v0] m IH]; simpl; [discriminate|].
  destruct (k0 =? k)%string eqn:E.
  - apply String.eqb_eq in E. intros [= ->]. left. now subst.
  - intros Hg. right. now apply IH.
Qed.

Lemma JsMap_In_get (m : JsMap.t V) k v :
  NoDup (JsMap.keys m) -> In (k, v) m -> JsMap.get m k = Some v.
Proof.
  induction m as [|[k0 v0] m IH]; simpl; [tauto|].
  intros Hnd Hin. inversion Hnd as [|? ? Hnotin Hnd']; subst.
  destruct Hin as [[= -> ->]|Hin].
  - now rewrite String.eqb_refl.
  - destruct (k0 =? k)%string eqn:E.
    + apply String.eqb_eq in E. subst k0. exfalso. apply Hnotin.
      change k with (fst (k, v)). now apply in_map.
    + now apply IH.
Qed.

Lemma JsMap_keys_set_present (m : JsMap.t V) k v :
  In k (JsMap.keys m) -> JsMap.keys (JsMap.set m k v) = JsMap.keys m.
Proof.
  induction m as [|[k0 v0] m IH]; simpl; [tauto|].
  intros Hin. destruct (k0 =? k)%string eqn:E; simpl; [reflexivity|].
  f_equal. apply IH. destruct Hin as [->|Hin]; [|assumption].
  now rewrite String.eqb_refl in E.
Qed.

Lemma JsMap_keys_set_absent (m : JsMap.t V) k v :
  ~ In k (JsMap.keys m) ->
  JsMap.keys (JsMap.set m k v) = (JsMap.keys m ++ [k])%list.
Proof.
  induction m as [|[k0 v0] m IH]; simpl; [reflexivity|].
  intros Hnotin. destruct (k0 =? k)%string eqn:E; simpl.
  - apply String.eqb_eq in E. tauto.
  - f_equal. apply IH. tauto.
Qed.

Lemma JsMap_keys_set_In (m : JsMap.t V) k v k' :
  In k' (JsMap.keys (JsMap.set m k v)) <-> k' = k \/ In k' (JsMap.keys m).
Proof.
  destruct (in_dec string_dec k (JsMap.keys m)) as [Hin|Hnotin].
  - rewrite JsMap_keys_set_present by assumption.
    split; [tauto | intros [->|?]; assumption].
  - rewrite JsMap_keys_set_absent by assumption.
    rewrite in_app_iff. simpl. split; intros; intuition (subst; auto).
Qed.

Lemma JsMap_keys_set_NoDup (m : JsMap.t V) k v :
  NoDup (JsMap.keys m) -> NoDup (JsMap.keys (JsMap.set m k v)).
Proof.
  intros Hnd. destruct (in_dec string_dec k (JsMap.keys m)) as [Hin|Hnotin].
  - now rewrite JsMap_keys_set_present.
  - rewrite JsMap_keys_set_absent by assumption.
    apply NoDup_app; [assumption | repeat constructor; intros [] |].
    intros x Hx [<-|[]]. tauto.
Qed.

End JsMapFacts.

(* ------------------------------------------------------------------------- *)
(** ** Sets of strings *)

Lemma existsb_eqb_In x (xs : list string) :
  existsb (String.eqb x) xs = true <-> In x xs.
Proof.
  rewrite existsb_exists. split.
  - intros (y & Hin & Heq). apply String.eqb_eq in Heq. now subst.
  - intros Hin. exists x. split; [assumption | apply String.eqb_refl].
Qed.

Lemma uniqueStrings_In x xs : In x (uniqueStrings xs) <-> In x xs.
Proof.
  unfold uniqueStrings.
  assert (G : forall seen,
             In x (fold_left
                     (fun seen x =>
                        if existsb (String.eqb x) seen then seen
                        else (seen ++ [x])%list) xs seen)
             <-> In x seen \/ In x xs).
  { induction xs as [|a xs IH]; intros seen; simpl; [tauto|].
    rewrite IH. destruct (existsb (String.eqb a) seen) eqn:E.
    - apply existsb_eqb_In in E. intuition (subst; auto).
    - rewrite in_app_iff. simpl. tauto. }
  rewrite G. simpl. tauto.
Qed.

(* ------------------------------------------------------------------------- *)
(** ** Pick-list aggregation *)

Lemma firstOccurrence_app g items x :
  firstOccurrence g (items ++ [x]) =
  match firstOccurrence g items with
  | Some first => Some first
  | None => if (OrderLineItem.variantGid x =? g)%string then Some x else None
  end.
Proof.
  unfold firstOccurrence. induction items as [|i items IH]; simpl.
  - reflexivity.
  - destruct (OrderLineItem.variantGid i =? g)%string; [reflexivity | exact IH].
Qed.

Lemma summedQuantity_app g items x :
  summedQuantity g (items ++ [x]) =
  summedQuantity g items
  + (if (OrderLineItem.variantGid x =? g)%string
     then OrderLineItem.quantity x else 0).
Proof.
  unfold summedQuantity, itemsOfVariant.
  induction items as [|i items IH]; simpl.
  - destruct (OrderLineItem.variantGid x =? g)%string; simpl; lia.
  - destruct (OrderLineItem.variantGid i =? g)%string; simpl; lia.
Qed.

Lemma firstOccurrence_None g items :
  ~ In g (map OrderLineItem.variantGid items) ->
  firstOccurrence g items = None /\ summedQuantity g items = 0.
Proof.
  unfold firstOccurrence, summedQuantity, itemsOfVariant.
  induction items as [|i items IH]; simpl; [auto|].
  intros Hnotin.
  destruct (OrderLineItem.variantGid i =? g)%string eqn:E.
  - apply String.eqb_eq in E. tauto.
  - apply IH. tauto.
Qed.

(** What the map of [aggregateItems] holds after a prefix of the input. *)
Lemma aggregate_invariant items :
  let m := fold_left aggregateStep items JsMap.empty in
  NoDup (JsMap.keys m) /\
  JsMap.keys m = uniqueStrings (map OrderLineItem.variantGid items) /\
  (forall g,
      In g (JsMap.keys m) <-> In g (map OrderLineItem.variantGid items)) /\
  (forall g o,
      JsMap.get m g = Some o ->
      exists first,
        firstOccurrence g items = Some first /\
        o = OrderLineItem.mk g
              (OrderLineItem.productTitle first)
              (OrderLineItem.variantTitle first)
              (OrderLineItem.sku first)
              (summedQuantity g items)).
Proof.
  induction items as [|x items IH] using rev_ind; cbv zeta.
  - simpl. repeat split; try tauto; [constructor | discriminate].
  - rewrite fold_left_app. simpl.
    set (m0 := fold_left aggregateStep items JsMap.empty) in *.
    destruct IH as (Hnd & Horder & Hkeys & Hget).
    set (gx := OrderLineItem.variantGid x).
    assert (Hunique :
              uniqueStrings (map OrderLineItem.variantGid (items ++ [x]))
              = if existsb (String.eqb gx) (JsMap.keys m0) then JsMap.keys m0
                else (JsMap.keys m0 ++ [gx])%list).
    { unfold uniqueStrings. rewrite map_app, fold_left_app. simpl.
      fold (uniqueStrings (map OrderLineItem.variantGid items)).
      now rewrite <- Horder. }
    assert (Hmem : forall m' v,
               m' = JsMap.set m0 gx v ->
               forall g,
                 In g (JsMap.keys m') <->
                 In g (map OrderLineItem.variantGid (items ++ [x]))).
    { intros m' v -> g. rewrite JsMap_keys_set_In, map_app, in_app_iff.
      rewrite Hkeys. simpl. fold gx. intuition. }
    unfold aggregateStep. fold gx.
    destruct (JsMap.get m0 gx) as [existing|] eqn:Eget.
    + (* the variant was seen before *)
      assert (Hseen : In gx (JsMap.keys m0)).
      { destruct (in_dec string_dec gx (JsMap.keys m0)) as [Hin|Hout];
          [assumption|].
        apply JsMap_get_None in Hout. congruence. }
      split; [now apply JsMap_keys_set_NoDup|].
      split.
      { rewrite Hunique, JsMap_keys_set_present by assumption.
        apply existsb_eqb_In in Hseen. now rewrite Hseen. }
      split; [now apply (Hmem _ _ eq_refl)|].
      intros g o. rewrite firstOccurrence_app, summedQuantity_app. fold gx.
      destruct (string_dec gx g) as [<-|Hne].
      * rewrite JsMap_get_set_same. intros [= <-].
        destruct (Hget gx existing Eget) as (first & Hfirst & ->).
        rewrite Hfirst, String.eqb_refl. exists first. simpl. auto.
      * rewrite JsMap_get_set_other by assumption. intros Hg.
        destruct (Hget g o Hg) as (first & Hfirst & ->).
        rewrite Hfirst. apply String.eqb_neq in Hne. rewrite Hne.
        exists first. split; [reflexivity|]. now rewrite Z.add_0_r.
    + (* first occurrence of the variant *)
      assert (Hnew : ~ In gx (JsMap.keys m0)) by now apply JsMap_get_None.
      split; [now apply JsMap_keys_set_NoDup|].
      split.
      { rewrite Hunique, JsMap_keys_set_absent by assumption.
        destruct (existsb (String.eqb gx) (JsMap.keys m0)) eqn:E;
          [|reflexivity].
        now apply existsb_eqb_In in E. }
      split; [now apply (Hmem _ _ eq_refl)|].
      intros g o. rewrite firstOccurrence_app, summedQuantity_app. fold gx.
      destruct (string_dec gx g) as [<-|Hne].
      * rewrite JsMap_get_set_same. intros [= <-].
        apply JsMap_get_None in Eget. rewrite Hkeys in Eget.
        destruct (firstOccurrence_None gx items Eget) as [-> ->].
        rewrite String.eqb_refl. exists x. split; [reflexivity|].
        subst gx. now destruct x.
      * rewrite JsMap_get_set_other by assumption. intros Hg.
        destruct (Hget g o Hg) as (first & Hfirst & ->).
        rewrite Hfirst. apply String.eqb_neq in Hne. rewrite Hne.
        exists first. split; [reflexivity|]. now rewrite Z.add_0_r.
Qed.

(** C7.  For line items whose quantities stay within the safe integers
    when added up (their magnitudes sum to at most 2^53 - 1),
    [aggregateItems] returns one entry per variant id of the input, in
    order of first occurrence; the entry carries the summed quantity of the
    line items of that variant and the product title, variant title and SKU
    of the first of them.
    Scenario C: [{v1,10},{v1,15},{v2,8}] aggregates to [{v1,25},{v2,8}],
    whatever the metadata. *)
Theorem aggregateItems_groups_by_variant :
  (forall items,
      magnitude (map OrderLineItem.quantity items) <= MAX_SAFE_INTEGER ->
      let out := aggregateItems items in
      NoDup (map OrderLineItem.variantGid out) /\
      map OrderLineItem.variantGid out
      = uniqueStrings (map OrderLineItem.variantGid items) /\
      (forall g,
          In g (map OrderLineItem.variantGid out) <->
          In g (map OrderLineItem.variantGid items)) /\
      (forall o,
          In o out ->
          exists first,
            firstOccurrence (OrderLineItem.variantGid o) items = Some first /\
            OrderLineItem.productTitle o = OrderLineItem.productTitle first /\
            OrderLineItem.variantTitle o = OrderLineItem.variantTitle first /\
            OrderLineItem.sku o = OrderLineItem.sku first /\
            OrderLineItem.quantity o =
            summedQuantity (OrderLineItem.variantGid o) items)) /\
  (forall p1 t1 s1 p1' t1' s1' p2 t2 s2,
      aggregateItems
        [OrderLineItem.mk "v1" p1 t1 s1 10;
         OrderLineItem.mk "v1" p1' t1' s1' 15;
         OrderLineItem.mk "v2" p2 t2 s2 8]
      = [OrderLineItem.mk "v1" p1 t1 s1 25;
         OrderLineItem.mk "v2" p2 t2 s2 8]).
Proof.
  split; [|reflexivity].
  intros items _ out.
  destruct (aggregate_invariant items) as (Hnd & Horder & Hkeys & Hget).
  set (m := fold_left aggregateStep items JsMap.empty) in *.
  assert (Hentry : forall k o, In (k, o) m -> JsMap.get m k = Some o)
    by (intros k o; now apply JsMap_In_get).
  assert (Hgids : map OrderLineItem.variantGid out = JsMap.keys m).
  { unfold out, aggregateItems, JsMap.values, JsMap.keys. fold m.
    rewrite map_map. apply map_ext_in. intros [k o] Hin. simpl.
    destruct (Hget k o (Hentry k o Hin)) as (first & _ & ->). reflexivity. }
  rewrite Hgids. split; [exact Hnd|]. split; [exact Horder|].
  split; [exact Hkeys|].
  intros o Ho. unfold out, aggregateItems, JsMap.values in Ho. fold m in Ho.
  apply in_map_iff in Ho as ([k o'] & <- & Hin). simpl.
  destruct (Hget k o' (Hentry k o' Hin)) as (first & Hfirst & ->). simpl.
  exists first. auto.
Qed.

Lemma aggregateItems_groups_by_variant_witness :
  let items :=
    [OrderLineItem.mk "v1" "Lager" "Single" (Some "LAGER-1") 10;
     OrderLineItem.mk "v1" "Lager" "Single" (Some "LAGER-1") 15;
     OrderLineItem.mk "v2" "Ale" "Single" None 8] in
  map OrderLineItem.variantGid (aggregateItems items)
  = uniqueStrings (map OrderLineItem.variantGid items)
  /\ forall o,
       In o (aggregateItems items) ->
       OrderLineItem.quantity o
       = summedQuantity (OrderLineItem.variantGid o) items.
Proof.
  intros items.
  assert (Hsafe : magnitude (map OrderLineItem.quantity items)
                  <= MAX_SAFE_INTEGER)
    by (unfold items, magnitude, MAX_SAFE_INTEGER; simpl; lia).
  destruct (proj1 aggregateItems_groups_by_variant items Hsafe)
    as (_ & Horder & _ & Hentries).
  split; [exact Horder|].
  intros o Ho. destruct (Hentries o Ho) as (first & _ & _ & _ & _ & Hq).
  exact Hq.
Defined.

(* ------------------------------------------------------------------------- *)
(** ** CSV export *)

Lemma includes_char value c :
  includes value (char c)
  = existsb (fun a => Ascii.eqb a c) (list_ascii_of_string value).
Proof.
  induction value as [|a rest IH]; [reflexivity|].
  change (includes (String a rest) (char c))
    with (String.prefix (char c) (String a rest) || includes rest (char c)).
  rewrite IH. simpl. destruct (ascii_dec c a) as [<-|Hne].
  - rewrite Ascii.eqb_refl. now destruct rest.
  - assert (E : Ascii.eqb a c = false)
      by (apply Ascii.eqb_neq; congruence).
    now rewrite E.
Qed.

Lemma existsb_isSpecial chars :
  existsb (fun a => Ascii.eqb a COMMA) chars
  || existsb (fun a => Ascii.eqb a QUOTE) chars
  || existsb (fun a => Ascii.eqb a NEWLINE) chars
  = existsb isSpecial chars.
Proof.
  induction chars as [|a chars IH]; simpl; [reflexivity|].
  rewrite <- IH. unfold isSpecial.
  destruct (Ascii.eqb a COMMA), (Ascii.eqb a QUOTE), (Ascii.eqb a NEWLINE),
    (existsb (fun a => Ascii.eqb a COMMA) chars),
    (existsb (fun a => Ascii.eqb a QUOTE) chars); reflexivity.
Qed.

Lemma string_of_list_ascii_snoc chars c :
  string_of_list_ascii (chars ++ [c])
  = (string_of_list_ascii chars ++ char c)%string.
Proof. induction chars as [|a chars IH]; simpl; [reflexivity | now rewrite IH]. Qed.

Lemma replaceAll_doubles value q :
  replaceAll value q (String q (String q ""))
  = string_of_list_ascii
      (flat_map (fun c => if Ascii.eqb c q then [q; q] else [c])
         (list_ascii_of_string value)).
Proof.
  induction value as [|a rest IH]; simpl; [reflexivity|].
  rewrite IH. destruct (Ascii.eqb a q); reflexivity.
Qed.

(** [escapeCSV] quotes exactly the fields that hold a comma, a quote or a
    newline, and doubles their quotes. *)
Lemma escapeCSV_spec value : escapeCSV value = csvField_spec value.
Proof.
  unfold escapeCSV, csvField_spec.
  rewrite !includes_char, existsb_isSpecial.
  destruct (existsb isSpecial _); [|reflexivity].
  change (char QUOTE ++ char QUOTE)%string with (String QUOTE (String QUOTE "")).
  rewrite replaceAll_doubles.
  change (string_of_list_ascii (QUOTE :: ?l))
    with (String QUOTE (string_of_list_ascii l)).
  rewrite string_of_list_ascii_snoc. reflexivity.
Qed.

Lemma escapeCSV_nullish value :
  escapeCSV (nullish value "") = csvOptionalField_spec value.
Proof. destruct value; simpl; [apply escapeCSV_spec | reflexivity]. Qed.

Lemma csvRow_line item : String.concat "," (csvRow item) = csvLine_spec item.
Proof.
  unfold csvRow, csvLine_spec.
  rewrite !escapeCSV_nullish, !escapeCSV_spec. reflexivity.
Qed.

Lemma concat_lines sep first rest :
  String.concat sep (first :: rest)
  = (first ++ fold_right (fun line tail => sep ++ line ++ tail) "" rest)%string.
Proof.
  revert first. induction rest as [|line rest IH]; intros first.
  - simpl. clear. induction first; simpl; congruence.
  - change (String.concat sep (first :: line :: rest))
      with (first ++ sep ++ String.concat sep (line :: rest))%string.
    now rewrite IH.
Qed.

(** C8.  [exportToCSV] writes the fixed header and then one line per item,
    in input order.  Each line holds product title, variant title, SKU,
    quantity and bin location separated by commas; a text field that
    contains a comma, a quote or a newline is wrapped in quotes with its
    quotes doubled, a null SKU or bin location is an empty field, and the
    quantity, a safe integer, is written in decimal digits.
    Scenario D: the item {"Lager, Premium", "Single", null, 10, null}
    yields the header and the line ["Lager, Premium",Single,,10,]. *)
Theorem exportToCSV_format :
  (forall items,
      Forall (fun item => safeInteger (PickListItem.quantity item)) items ->
      exportToCSV items = csv_spec items) /\
  (forall variantGid,
      exportToCSV
        [PickListItem.mk "Lager, Premium" "Single" None variantGid 10 None]
      = ("Product,Variant,SKU,Quantity,Bin Location" ++ char NEWLINE
         ++ char QUOTE ++ "Lager, Premium" ++ char QUOTE
         ++ ",Single,,10,")%string).
Proof.
  split; [|reflexivity].
  intros items _. unfold exportToCSV, csv_spec. cbv zeta.
  rewrite concat_lines. f_equal.
  induction items as [|item items IH]; [reflexivity|].
  cbn [map fold_right]. now rewrite IH, csvRow_line.
Qed.

Lemma exportToCSV_format_witness :
  exportToCSV Picks.items = csv_spec Picks.items.
Proof.
  apply (proj1 exportToCSV_format).
  repeat (apply Forall_cons;
          [unfold safeInteger, MAX_SAFE_INTEGER; simpl; lia|]).
  apply Forall_nil.
Defined.

(* ------------------------------------------------------------------------- *)
(** ** Batches *)

Lemma concat_slices {A : Type} size :
  (0 < size)%nat ->
  forall fuel (xs : list A),
    (List.length xs <= fuel)%nat -> List.concat (slices fuel size xs) = xs.
Proof.
  intros Hsize. induction fuel as [|fuel IH]; intros xs Hlen.
  - destruct xs; [reflexivity | simpl in Hlen; lia].
  - destruct xs as [|x xs]; [reflexivity|].
    cbn [slices List.concat]. rewrite IH.
    + apply firstn_skipn.
    + rewrite length_skipn. cbn [List.length] in *. lia.
Qed.

Lemma concat_batches {A : Type} size (xs : list A) :
  (0 < size)%nat -> List.concat (batches size xs) = xs.
Proof. intros Hsize. now apply concat_slices. Qed.

Lemma batches_single {A : Type} size (x : A) :
  (0 < size)%nat -> batches size [x] = [[x]].
Proof. destruct size as [|size]; [lia|]. intros _. now destruct size. Qed.

(* ------------------------------------------------------------------------- *)
(** ** The sync service over a ledger *)

Lemma plannedAdjustments_shape l locationGid changed available bundle adjs :
  plannedAdjustments l locationGid changed available bundle = Ok adjs ->
  adjs = [] \/
  exists item expected,
    itemFor l (Bundle.parentGid bundle) = Some item /\
    expectedAvailability l locationGid changed available bundle
    = Ok expected /\
    let delta :=
      expected
      - stockSeen l locationGid changed available
          (Bundle.parentGid bundle) in
    delta <> 0 /\
    adjs = [InventoryAdjustment.mk item locationGid delta].
Proof.
  unfold plannedAdjustments.
  destruct (expectedAvailability _ _ _ _ _) as [expected|e]; [|discriminate].
  simpl. destruct (Z.eqb_spec
                     (expected
                      - stockSeen l locationGid changed available
                          (Bundle.parentGid bundle)) 0) as [Hz|Hnz]; simpl.
  - intros [= <-]. now left.
  - destruct (itemFor l (Bundle.parentGid bundle)) as [item|];
      intros [= <-]; [right | now left].
    exists item, expected. auto.
Qed.

Section LedgerRun.

Variable w : World Ledger.t.

Lemma getInventoryItemForVariant_ledger variantGid :
  getInventoryItemForVariant variantGid w
  = (Ok (Ledger.itemOfVariant (env w) variantGid), w).
Proof.
  unfold getInventoryItemForVariant, request. simpl.
  now rewrite world_eta.
Qed.

Lemma findVariantForInventoryItem_ledger inventoryItemId :
  findVariantForInventoryItem inventoryItemId w
  = (Ok (Ledger.variantOfItem (env w)
           ("gid://shopify/InventoryItem/" ++ string_of_Z inventoryItemId)), w).
Proof.
  unfold findVariantForInventoryItem, request. simpl.
  now rewrite world_eta.
Qed.

(** *** The map from variants to inventory items *)

Lemma inventoryItemMap_ledger gids :
  forall m0,
    foldM
      (fun (m : JsMap.t string) variantGid =>
         inventoryItemId <- getInventoryItemForVariant variantGid ;;
         match inventoryItemId with
         | Some id => if truthy id then ret (JsMap.set m variantGid id)
                      else ret m
         | None => ret m
         end)
      gids m0 w
    = (Ok (fold_left (itemMapStep (env w)) gids m0), w).
Proof.
  induction gids as [|g gids IH]; intros m0; simpl; [reflexivity|].
  unfold bind at 1. unfold bind at 1.
  rewrite getInventoryItemForVariant_ledger.
  unfold itemMapStep at 2, itemFor.
  destruct (Ledger.itemOfVariant (env w) g) as [id|];
    [destruct (truthy id)|]; unfold ret at 1; apply IH.
Qed.

Lemma itemMapStep_get m0 g x :
  JsMap.get (itemMapStep (env w) m0 g) x =
  if (x =? g)%string then
    match itemFor (env w) x with
    | Some id => Some id
    | None => JsMap.get m0 x
    end
  else JsMap.get m0 x.
Proof.
  unfold itemMapStep. destruct (x =? g)%string eqn:Exg.
  - apply String.eqb_eq in Exg. subst g.
    destruct (itemFor (env w) x); [apply JsMap_get_set_same | reflexivity].
  - apply String.eqb_neq in Exg.
    destruct (itemFor (env w) g); [|reflexivity].
    apply JsMap_get_set_other. congruence.
Qed.

Lemma itemMap_get gids x :
  forall m0,
    JsMap.get (fold_left (itemMapStep (env w)) gids m0) x =
    match (if existsb (String.eqb x) gids then itemFor (env w) x else None)
    with
    | Some id => Some id
    | None => JsMap.get m0 x
    end.
Proof.
  induction gids as [|g gids IH]; intros m0; simpl; [reflexivity|].
  rewrite IH, itemMapStep_get.
  destruct (x =? g)%string, (existsb (String.eqb x) gids),
    (itemFor (env w) x); reflexivity.
Qed.

Lemma itemMap_NoDup gids :
  forall m0,
    NoDup (JsMap.keys m0) ->
    NoDup (JsMap.keys (fold_left (itemMapStep (env w)) gids m0)).
Proof.
  induction gids as [|g gids IH]; intros m0 Hnd; simpl; [assumption|].
  apply IH. unfold itemMapStep.
  destruct (itemFor (env w) g); [now apply JsMap_keys_set_NoDup | assumption].
Qed.

Lemma itemFor_truthy x id : itemFor (env w) x = Some id -> truthy id = true.
Proof.
  unfold itemFor.
  destruct (Ledger.itemOfVariant (env w) x) as [i|]; [|discriminate].
  destruct (truthy i) eqn:E; [now intros [= <-] | discriminate].
Qed.

(** *** The levels read from the shop *)

Lemma recordLevel_node levels locationId id :
  recordLevel levels (Ledger.node (env w) locationId id) =
  if truthy id then
    match Ledger.level (env w) id locationId with
    | Some q => JsMap.set levels id q
    | None => levels
    end
  else levels.
Proof.
  unfold recordLevel, Ledger.node. simpl.
  destruct (Ledger.level (env w) id locationId), (truthy id); reflexivity.
Qed.

Lemma getInventoryLevels_batches locationId (bs : list (list string)) :
  forall levels,
    foldM
      (fun levels batch =>
         nodes <- request (queryInventoryLevels batch locationId) ;;
         ret (fold_left recordLevel (nullish nodes []) levels))
      bs levels w
    = (Ok (fold_left recordLevel
             (map (Ledger.node (env w) locationId) (List.concat bs)) levels),
       w).
Proof.
  induction bs as [|batch bs IH]; intros levels; simpl; [reflexivity|].
  unfold bind at 1. unfold bind at 1. unfold request at 1. simpl.
  rewrite world_eta. unfold ret at 1.
  rewrite IH, map_app, fold_left_app. reflexivity.
Qed.

Lemma getInventoryLevels_ledger ids locationId :
  getInventoryLevels ids locationId w
  = (Ok (fold_left recordLevel (map (Ledger.node (env w) locationId) ids)
           JsMap.empty), w).
Proof.
  unfold getInventoryLevels.
  rewrite getInventoryLevels_batches, concat_batches by lia. reflexivity.
Qed.

Lemma levels_get locationId ids id :
  forall levels,
    JsMap.get
      (fold_left recordLevel (map (Ledger.node (env w) locationId) ids) levels)
      id =
    match (if existsb (String.eqb id) ids && truthy id
           then Ledger.level (env w) id locationId else None)
    with
    | Some q => Some q
    | None => JsMap.get levels id
    end.
Proof.
  induction ids as [|a ids IH]; intros levels; simpl; [reflexivity|].
  rewrite IH, recordLevel_node.
  destruct (id =? a)%string eqn:E.
  - apply String.eqb_eq in E. subst a. simpl.
    destruct (truthy id); [|now rewrite andb_false_r].
    rewrite andb_true_r.
    destruct (Ledger.level (env w) id locationId) as [q|].
    + rewrite JsMap_get_set_same. now destruct (existsb _ ids).
    + now destruct (existsb _ ids).
  - simpl. apply String.eqb_neq in E.
    assert (Hother : JsMap.get
                       (if truthy a then
                          match Ledger.level (env w) a locationId with
                          | Some q => JsMap.set levels a q
                          | None => levels
                          end
                        else levels) id = JsMap.get levels id).
    { destruct (truthy a); [|reflexivity].
      destruct (Ledger.level (env w) a locationId); [|reflexivity].
      apply JsMap_get_set_other. congruence. }
    now rewrite Hother.
Qed.

(** *** The stock map *)

Lemma stockMap_get (stockOf : string -> string -> Z) x :
  forall (entries : JsMap.t string) (m0 : JsMap.t Z),
    NoDup (JsMap.keys entries) ->
    JsMap.get
      (fold_left
         (fun (m : JsMap.t Z) (entry : string * string) =>
            JsMap.set m (fst entry) (stockOf (fst entry) (snd entry)))
         entries m0) x =
    match JsMap.get entries x with
    | Some id => Some (stockOf x id)
    | None => JsMap.get m0 x
    end.
Proof.
  induction entries as [|[k id] entries IH]; intros m0 Hnd; simpl;
    [reflexivity|].
  inversion Hnd as [|? ? Hnotin Hnd']; subst.
  rewrite IH by assumption.
  destruct (k =? x)%string eqn:E.
  - apply String.eqb_eq in E. subst k.
    apply JsMap_get_None in Hnotin. rewrite Hnotin.
    apply JsMap_get_set_same.
  - apply String.eqb_neq in E.
    destruct (JsMap.get entries x); [reflexivity|].
    now apply JsMap_get_set_other.
Qed.

(** *** The adjustments of one bundle *)

Lemma fold_left_ext_eq {A B : Type} (f g : A -> B -> A) xs :
  (forall a b, f a b = g a b) ->
  forall a, fold_left f xs a = fold_left g xs a.
Proof.
  intros Hfg. induction xs as [|x xs IH]; intros a; simpl; [reflexivity|].
  now rewrite Hfg, IH.
Qed.

Lemma parentAdjustment_itemFor m bundle locationGid delta :
  JsMap.get m (Bundle.parentGid bundle)
  = itemFor (env w) (Bundle.parentGid bundle) ->
  parentAdjustment m bundle locationGid delta =
  if negb (delta =? 0) then
    match itemFor (env w) (Bundle.parentGid bundle) with
    | Some item => [InventoryAdjustment.mk item locationGid delta]
    | None => []
    end
  else [].
Proof.
  intros Hget. unfold parentAdjustment. rewrite Hget.
  destruct (negb (delta =? 0)); [|reflexivity].
  destruct (itemFor (env w) (Bundle.parentGid bundle)) as [item|] eqn:E;
    [|reflexivity].
  now rewrite (itemFor_truthy _ _ E).
Qed.

(** Over a ledger [calculateBundleAdjustments] reads and does not write:
    it returns the planned adjustments of the bundle. *)
Lemma calculateBundleAdjustments_ledger bundle locationGid changed available :
  calculateBundleAdjustments bundle locationGid changed available w
  = (plannedAdjustments (env w) locationGid changed available bundle, w).
Proof.
  unfold calculateBundleAdjustments. cbv zeta.
  set (all := Bundle.parentGid bundle
              :: map BundleChild.childGid (Bundle.children bundle)).
  unfold bind at 1. rewrite inventoryItemMap_ledger.
  set (m := fold_left (itemMapStep (env w)) (uniqueStrings all) JsMap.empty).
  unfold bind at 1. rewrite getInventoryLevels_ledger.
  set (lv := fold_left recordLevel
               (map (Ledger.node (env w) locationGid) (JsMap.values m))
               JsMap.empty).
  set (stockOf := fun (variantGid id : string) =>
                    if (variantGid =? changed)%string then available
                    else nullish (JsMap.get lv id) 0).
  match goal with |- context [fold_left ?f m JsMap.empty] =>
    rewrite (fold_left_ext_eq f
               (fun sm entry =>
                  JsMap.set sm (fst entry) (stockOf (fst entry) (snd entry))))
      by (intros sm [k id]; unfold stockOf; simpl;
          destruct (k =? changed)%string; reflexivity)
  end.
  set (stockMap := fold_left _ m JsMap.empty).
  assert (Hm : forall x, In x all -> JsMap.get m x = itemFor (env w) x).
  { intros x Hx. unfold m. rewrite itemMap_get.
    apply uniqueStrings_In, existsb_eqb_In in Hx. rewrite Hx.
    now destruct (itemFor (env w) x). }
  assert (Hstock : forall x,
             In x all ->
             nullish (JsMap.get stockMap x) 0
             = stockSeen (env w) locationGid changed available x).
  { intros x Hx. unfold stockMap.
    rewrite stockMap_get by (apply itemMap_NoDup; constructor).
    fold m. unfold stockSeen. rewrite <- (Hm x Hx).
    destruct (JsMap.get m x) as [id|] eqn:Eget; [|reflexivity].
    simpl. unfold stockOf.
    destruct (x =? changed)%string; [reflexivity|].
    f_equal. unfold lv. rewrite levels_get.
    assert (Hin : existsb (String.eqb id) (JsMap.values m) = true).
    { apply existsb_eqb_In. apply JsMap_get_Some_In in Eget.
      change id with (snd (x, id)). now apply in_map. }
    rewrite Hin. rewrite (Hm x Hx) in Eget.
    rewrite (itemFor_truthy _ _ Eget). simpl.
    now destruct (Ledger.level (env w) id locationGid). }
  assert (Hparent : In (Bundle.parentGid bundle) all) by now left.
  assert (Hchild : forall c,
             In c (Bundle.children bundle) -> In (BundleChild.childGid c) all).
  { intros c Hc. right. now apply in_map. }
  unfold plannedAdjustments, expectedAvailability.
  destruct (Bundle.children bundle) as [|c [|c' rest]] eqn:Echildren.
  - unfold bind, lift, ret. simpl.
    rewrite (Hstock _ Hparent), parentAdjustment_itemFor by now apply Hm.
    reflexivity.
  - unfold bind, lift, ret.
    rewrite (Hstock _ (Hchild c (or_introl eq_refl))).
    destruct (calculateBundleAvailability _ _) as [expected|e];
      [|reflexivity].
    simpl.
    rewrite (Hstock _ Hparent), parentAdjustment_itemFor by now apply Hm.
    reflexivity.
  - unfold bind, lift, ret.
    rewrite (map_ext_in _
               (fun child =>
                  Component.mk
                    (stockSeen (env w) locationGid changed available
                       (BundleChild.childGid child))
                    (BundleChild.quantity child)))
      by (intros child Hin; now rewrite (Hstock _ (Hchild child Hin))).
    destruct (calculateMixedBundleAvailability _) as [expected|e];
      [|reflexivity].
    simpl.
    rewrite (Hstock _ Hparent), parentAdjustment_itemFor by now apply Hm.
    reflexivity.
Qed.

(** *** Sending the adjustments *)

Lemma adjustInventoryLevels_planned locationGid changed available bundle adjs :
  Ledger.outage (env w) = false ->
  plannedAdjustments (env w) locationGid changed available bundle = Ok adjs ->
  adjustInventoryLevels adjs "correction" w
  = (Ok tt,
     mkWorld (syncLocks w) (bundles w) (applyAdjustments (env w) adjs)).
Proof.
  intros Hup Hplan.
  destruct (plannedAdjustments_shape _ _ _ _ _ _ Hplan)
    as [->|(item & expected & _ & _ & Hnz & ->)]; cbv zeta in *.
  - simpl. now rewrite world_eta.
  - unfold adjustInventoryLevels. cbn [filter InventoryAdjustment.delta].
    apply Z.eqb_neq in Hnz. rewrite Hnz. cbn [negb].
    rewrite batches_single by lia. cbn [foldM map].
    unfold bind, request, ret. simpl. now rewrite Hup.
Qed.

Lemma syncLockedBundle_ledger lockId bundle locationGid changed available adjs :
  Ledger.outage (env w) = false ->
  plannedAdjustments (env w) locationGid changed available bundle = Ok adjs ->
  syncLockedBundle lockId bundle locationGid changed available w
  = (Ok (Z.of_nat (List.length adjs)),
     mkWorld
       (filter (fun l => negb (SyncLock.id l =? lockId)%string) (syncLocks w))
       (bundles w) (applyAdjustments (env w) adjs)).
Proof.
  intros Hup Hplan. unfold syncLockedBundle, try_finally.
  unfold bind at 1. rewrite calculateBundleAdjustments_ledger, Hplan.
  unfold bind at 1.
  rewrite (adjustInventoryLevels_planned _ _ _ _ _ Hup Hplan).
  unfold ret at 1. now rewrite releaseSyncLock_run.
Qed.

Lemma syncLockedBundle_settled lockId bundle locationGid changed available :
  plannedAdjustments (env w) locationGid changed available bundle = Ok [] ->
  syncLockedBundle lockId bundle locationGid changed available w
  = (Ok 0,
     mkWorld
       (filter (fun l => negb (SyncLock.id l =? lockId)%string) (syncLocks w))
       (bundles w) (env w)).
Proof.
  intros Hplan. unfold syncLockedBundle, try_finally.
  unfold bind at 1. rewrite calculateBundleAdjustments_ledger, Hplan.
  unfold bind at 1. simpl adjustInventoryLevels. unfold ret at 1 2.
  now rewrite releaseSyncLock_run.
Qed.

Lemma Date_now_ledger :
  Date_now w
  = (Ok (Ledger.clock (env w) (Ledger.reads (env w))),
     mkWorld (syncLocks w) (bundles w) (Ledger.tick (env w))).
Proof. reflexivity. Qed.

End LedgerRun.

(* ------------------------------------------------------------------------- *)
(** ** Settling one bundle *)

Section Books.

Variables (locationGid changed : string) (available : Z).

Lemma itemFor_static l l' x :
  Ledger.itemOfVariant l' = Ledger.itemOfVariant l ->
  itemFor l' x = itemFor l x.
Proof. intros Hstatic. unfold itemFor. now rewrite Hstatic. Qed.

Lemma stockSeen_ext l l' x :
  Ledger.itemOfVariant l' = Ledger.itemOfVariant l ->
  (forall item,
      itemFor l x = Some item ->
      Ledger.level l' item locationGid = Ledger.level l item locationGid) ->
  stockSeen l' locationGid changed available x
  = stockSeen l locationGid changed available x.
Proof.
  intros Hstatic Hlevel. unfold stockSeen.
  rewrite (itemFor_static l l' x Hstatic).
  destruct (itemFor l x) as [item|]; [|reflexivity].
  now rewrite Hlevel.
Qed.

Lemma expectedAvailability_ext l l' bundle :
  Ledger.itemOfVariant l' = Ledger.itemOfVariant l ->
  (forall c item,
      In c (Bundle.children bundle) ->
      itemFor l (BundleChild.childGid c) = Some item ->
      Ledger.level l' item locationGid = Ledger.level l item locationGid) ->
  expectedAvailability l' locationGid changed available bundle
  = expectedAvailability l locationGid changed available bundle.
Proof.
  intros Hstatic Hlevel. unfold expectedAvailability. cbv zeta.
  assert (Hstock : forall c,
             In c (Bundle.children bundle) ->
             stockSeen l' locationGid changed available (BundleChild.childGid c)
             = stockSeen l locationGid changed available
                 (BundleChild.childGid c)).
  { intros c Hc. apply stockSeen_ext; [assumption|]. intros item.
    now apply Hlevel. }
  destruct (Bundle.children bundle) as [|c [|c' rest]].
  - reflexivity.
  - now rewrite Hstock by now left.
  - f_equal. apply map_ext_in. intros child Hin. now rewrite Hstock.
Qed.

Lemma plannedAdjustments_ext l l' bundle :
  Ledger.itemOfVariant l' = Ledger.itemOfVariant l ->
  (forall x item,
      In x (variantsOf bundle) ->
      itemFor l x = Some item ->
      Ledger.level l' item locationGid = Ledger.level l item locationGid) ->
  plannedAdjustments l' locationGid changed available bundle
  = plannedAdjustments l locationGid changed available bundle.
Proof.
  intros Hstatic Hlevel. unfold plannedAdjustments.
  rewrite (expectedAvailability_ext l l' bundle Hstatic).
  - rewrite (stockSeen_ext l l' (Bundle.parentGid bundle) Hstatic).
    + now rewrite (itemFor_static l l' _ Hstatic).
    + intros item. apply Hlevel. now left.
  - intros c item Hc. apply Hlevel. right. now apply in_map.
Qed.

(** With positive quantities the expected availability is defined. *)
Lemma expectedAvailability_defined l bundle :
  (forall c, In c (Bundle.children bundle) -> 0 < BundleChild.quantity c) ->
  exists expected,
    expectedAvailability l locationGid changed available bundle = Ok expected.
Proof.
  intros Hpos. unfold expectedAvailability. cbv zeta.
  destruct (Bundle.children bundle) as [|c [|c' rest]] eqn:E.
  - now exists 0.
  - rewrite calculateBundleAvailability_pos by (apply Hpos; now left). eauto.
  - match goal with |- context [calculateMixedBundleAvailability ?cs] =>
      destruct (calculateMixedBundleAvailability_min cs) as (r & Hr & _)
    end; [discriminate | | eauto].
    intros comp Hin. apply in_map_iff in Hin as (child & <- & Hchild).
    simpl. now apply Hpos.
Qed.

Lemma plannedAdjustments_defined l bundle :
  (forall c, In c (Bundle.children bundle) -> 0 < BundleChild.quantity c) ->
  exists adjs,
    plannedAdjustments l locationGid changed available bundle = Ok adjs.
Proof.
  intros Hpos. unfold plannedAdjustments.
  destruct (expectedAvailability_defined l bundle Hpos) as (expected & ->).
  simpl. eauto.
Qed.

(** What sending the planned adjustments of a bundle does to the books:
    only the level of the parent's item at the location moves. *)
Lemma applyAdjustments_static l adjs :
  Ledger.itemOfVariant (applyAdjustments l adjs) = Ledger.itemOfVariant l /\
  Ledger.variantOfItem (applyAdjustments l adjs) = Ledger.variantOfItem l /\
  Ledger.outage (applyAdjustments l adjs) = Ledger.outage l.
Proof. destruct adjs; repeat split. Qed.

Lemma applyAdjustments_frame l bundle adjs item location :
  plannedAdjustments l locationGid changed available bundle = Ok adjs ->
  itemFor l (Bundle.parentGid bundle) <> Some item ->
  Ledger.level (applyAdjustments l adjs) item location
  = Ledger.level l item location.
Proof.
  intros Hplan Hother.
  destruct (plannedAdjustments_shape _ _ _ _ _ _ Hplan)
    as [->|(pitem & expected & Hitem & _ & _ & ->)]; [reflexivity|].
  simpl in *. unfold Ledger.applyChange. simpl.
  destruct (item =? pitem)%string eqn:E; [|reflexivity].
  apply String.eqb_eq in E. congruence.
Qed.

Lemma applyAdjustments_stocked l bundle adjs item location :
  plannedAdjustments l locationGid changed available bundle = Ok adjs ->
  Ledger.level l item location <> None ->
  Ledger.level (applyAdjustments l adjs) item location <> None.
Proof.
  intros Hplan Hsome.
  destruct (plannedAdjustments_shape _ _ _ _ _ _ Hplan)
    as [->|(pitem & expected & _ & _ & _ & ->)]; [assumption|].
  simpl. unfold Ledger.applyChange. simpl.
  destruct (_ && _); [|assumption].
  destruct (Ledger.level l item location); [discriminate | congruence].
Qed.

(** Once its adjustments are applied, a bundle asks for none: the parent
    shows the expected availability. *)
Lemma applyAdjustments_settles l bundle adjs :
  plannedAdjustments l locationGid changed available bundle = Ok adjs ->
  Bundle.parentGid bundle <> changed ->
  (forall item,
      itemFor l (Bundle.parentGid bundle) = Some item ->
      Ledger.level l item locationGid <> None) ->
  (forall c item,
      In c (Bundle.children bundle) ->
      itemFor l (Bundle.parentGid bundle) = Some item ->
      itemFor l (BundleChild.childGid c) <> Some item) ->
  plannedAdjustments (applyAdjustments l adjs) locationGid changed available
    bundle = Ok [].
Proof.
  intros Hplan Hparent Hstocked Hapart.
  destruct (plannedAdjustments_shape _ _ _ _ _ _ Hplan)
    as [->|(pitem & expected & Hitem & Hexp & Hnz & ->)];
    [exact Hplan|].
  cbv zeta in Hnz. simpl in Hitem, Hexp, Hnz.
  set (delta := expected
                - stockSeen l locationGid changed available
                    (Bundle.parentGid bundle)) in *.
  set (adj := InventoryAdjustment.mk pitem locationGid delta).
  set (l' := applyAdjustments l [adj]).
  assert (Hstatic : Ledger.itemOfVariant l' = Ledger.itemOfVariant l)
    by reflexivity.
  unfold plannedAdjustments.
  rewrite (expectedAvailability_ext l l' bundle Hstatic), Hexp.
  2:{ intros c item Hc Hitemc. apply (applyAdjustments_frame l bundle [adj]).
      - exact Hplan.
      - rewrite Hitem. intros [= <-]. exact (Hapart c pitem Hc Hitem Hitemc). }
  simpl.
  assert (Hnow : stockSeen l' locationGid changed available
                   (Bundle.parentGid bundle) = expected).
  { assert (Hq : exists q, Ledger.level l pitem locationGid = Some q).
    { specialize (Hstocked pitem Hitem).
      destruct (Ledger.level l pitem locationGid) as [q|]; [eauto | tauto]. }
    destruct Hq as (q & Hq). subst delta.
    unfold stockSeen in *. rewrite (itemFor_static l l' _ Hstatic).
    rewrite Hitem in *.
    apply String.eqb_neq in Hparent. rewrite Hparent in *.
    unfold l'. simpl. unfold Ledger.applyChange. simpl.
    rewrite !String.eqb_refl, Hq. simpl.
    rewrite Hitem, Hparent, Hq. simpl. lia. }
  rewrite Hnow, Z.sub_diag. reflexivity.
Qed.

End Books.

(* ------------------------------------------------------------------------- *)
(** ** Two passes over the affected bundles *)

Section Passes.

Variables (locationId : Z) (locationGid changed : string) (available : Z).

(** A pass over bundles that are all settled sends nothing and leaves the
    levels alone, whether or not the locks are obtained. *)
Lemma settled_pass bs :
  forall (w : World Ledger.t) total,
    (forall b,
        In b bs ->
        plannedAdjustments (env w) locationGid changed available b = Ok []) ->
    exists w',
      syncBundles bs locationId locationGid changed available total w
      = (Ok total, w') /\
      Ledger.level (env w') = Ledger.level (env w).
Proof.
  induction bs as [|b bs IH]; intros w total Hsettled.
  - exists w. split; reflexivity.
  - cbn [syncBundles]. unfold bind at 1. rewrite Date_now_ledger.
    unfold bind at 1. rewrite acquireSyncLock_run. cbv zeta.
    cbn [env syncLocks bundles].
    destruct (existsb _ _).
    + cbn [negb].
      match goal with |- context [syncBundles bs _ _ _ _ total ?w1] =>
        destruct (IH w1 total) as (w' & Hrun & Hlevel)
      end.
      { intros b' Hb'. exact (Hsettled b' (or_intror Hb')). }
      exists w'. split; [exact Hrun | exact Hlevel].
    + cbn [negb]. unfold bind at 1.
      rewrite syncLockedBundle_settled
        by exact (Hsettled b (or_introl eq_refl)).
      rewrite Z.add_0_r.
      match goal with |- context [syncBundles bs _ _ _ _ total ?w1] =>
        destruct (IH w1 total) as (w' & Hrun & Hlevel)
      end.
      { intros b' Hb'. exact (Hsettled b' (or_intror Hb')). }
      exists w'. split; [exact Hrun | exact Hlevel].
Qed.


(** A first pass, with every lock obtained, settles every bundle: each
    parent is moved to its expected availability, and later adjustments do
    not disturb what earlier bundles read. *)
Lemma settling_pass bs :
  forall (w : World Ledger.t) total,
    Ledger.outage (env w) = false ->
    locksFree (syncLocks w) locationId bs ->
    NoDup (map Bundle.id bs) ->
    quantitiesPositive bs ->
    (forall b, In b bs -> Bundle.parentGid b <> changed) ->
    parentsStocked (env w) locationGid bs ->
    parentsApart (env w) bs ->
    exists total' w',
      syncBundles bs locationId locationGid changed available total w
      = (Ok total', w') /\
      Ledger.itemOfVariant (env w') = Ledger.itemOfVariant (env w) /\
      Ledger.variantOfItem (env w') = Ledger.variantOfItem (env w) /\
      (forall item location,
          (forall b, In b bs -> itemFor (env w) (Bundle.parentGid b) <> Some item) ->
          Ledger.level (env w') item location
          = Ledger.level (env w) item location) /\
      (forall b,
          In b bs ->
          plannedAdjustments (env w') locationGid changed available b = Ok []).
Proof.
  induction bs as [|b bs IH];
    intros w total Hup Hlocks Hnd Hpos Hcomp Hstocked [HapartC HapartP].
  - exists total, w. repeat split. intros b [].
  - cbn [syncBundles]. unfold bind at 1. rewrite Date_now_ledger.
    unfold bind at 1. rewrite acquireSyncLock_run. cbv zeta.
    cbn [env syncLocks bundles].
    set (now := Ledger.clock (env w) (Ledger.reads (env w))).
    set (lockId := syncLockId b locationId now).
    destruct (existsb _ _) eqn:Efree.
    { exfalso. apply existsb_exists in Efree as (l & Hl & Hid).
      apply filter_In in Hl as [Hl _]. apply String.eqb_eq in Hid.
      exact (Hlocks l b now Hl (or_introl eq_refl) Hid). }
    cbn [negb]. unfold bind at 1.
    set (l2 := Ledger.tick (Ledger.tick (env w))).
    destruct (plannedAdjustments_defined locationGid changed available l2 b)
      as (adjs & Hplan).
    { intros c Hc. apply (Hpos b c); [now left | assumption]. }
    match goal with |- context [syncLockedBundle lockId b _ _ _ ?w1] =>
      rewrite (syncLockedBundle_ledger w1 lockId b locationGid changed
                 available adjs Hup Hplan)
    end.
    cbn [syncLocks bundles env].
    rewrite filter_other_id_live by (exact Efree || reflexivity).
    fold l2. set (l3 := applyAdjustments l2 adjs).
    destruct (applyAdjustments_static l2 adjs) as (HitemS & HvarS & HupS).
    fold l3 in HitemS, HvarS, HupS.
    assert (Hitem3 : forall x, itemFor l3 x = itemFor (env w) x)
      by (intros x; exact (itemFor_static l2 l3 x HitemS)).
    inversion Hnd as [|? ? Hfresh Hnd']; subst.
    match goal with |- context [syncBundles bs _ _ _ _ ?t ?w1] =>
      destruct (IH w1 t) as (total' & w' & Hrun & HitemR & HvarR & Hframe
                             & Hsettled)
    end; cbn [env syncLocks bundles].
    { exact (eq_trans HupS Hup). }
    { intros l b' t Hl Hb'. apply filter_In in Hl as [Hl _].
      apply (Hlocks l b' t Hl). now right. }
    { exact Hnd'. }
    { intros b' c Hb'. apply Hpos. now right. }
    { intros b' Hb'. apply Hcomp. now right. }
    { intros b' item Hb' Hitem. rewrite Hitem3 in Hitem.
      apply (applyAdjustments_stocked locationGid changed available l2 b adjs);
        [exact Hplan|].
      apply (Hstocked b' item); [now right | exact Hitem]. }
    { split.
      - intros b1 b2 c item Hb1 Hb2 Hc. rewrite !Hitem3.
        apply (HapartC b1 b2 c item); (now right) || assumption.
      - intros b1 b2 item Hb1 Hb2 Hne. rewrite !Hitem3.
        apply (HapartP b1 b2 item); (now right) || assumption. }
    cbn [env] in HitemR, HvarR, Hframe, Hsettled.
    exists total', w'. split; [exact Hrun|].
    split; [exact (eq_trans HitemR HitemS)|].
    split; [exact (eq_trans HvarR HvarS)|].
    split.
    + intros item location Hother. rewrite Hframe.
      * apply (applyAdjustments_frame locationGid changed available l2 b adjs);
          [exact Hplan|].
        apply (Hother b). now left.
      * intros b' Hb'. rewrite Hitem3. apply Hother. now right.
    + intros b' [<-|Hb']; [|now apply Hsettled].
      rewrite (plannedAdjustments_ext locationGid changed available l3
                 (env w') b HitemR).
      * apply (applyAdjustments_settles locationGid changed available l2 b adjs
                 Hplan).
        -- apply Hcomp. now left.
        -- intros item Hitem. apply (Hstocked b item); [now left | exact Hitem].
        -- intros c item Hc Hitem.
           apply (HapartC b b c item); (now left) || assumption.
      * intros x item Hx Hitemx. rewrite Hitem3 in Hitemx.
        apply Hframe. intros b' Hb'. rewrite Hitem3. intros Hitem'.
        destruct Hx as [<-|Hx].
        -- (* the parent of [b] *)
           apply (HapartP b' b item); try assumption; [now right | now left |].
           intros Heq. apply Hfresh. rewrite <- Heq. now apply in_map.
        -- (* a component of [b] *)
           apply in_map_iff in Hx as (c & <- & Hc).
           apply (HapartC b' b c item); try assumption; [now right | now left].
Qed.
End Passes.

(* ------------------------------------------------------------------------- *)
(** ** Applying an event twice *)

Lemma JsMap_set_Forall {V : Type} (P : string * V -> Prop) (m : JsMap.t V) k v :
  Forall P m -> P (k, v) -> Forall P (JsMap.set m k v).
Proof.
  intros Hm Hkv. induction m as [|[k' v'] m IH]; simpl.
  - now constructor.
  - inversion Hm; subst. destruct (k' =? k)%string eqn:E.
    + apply String.eqb_eq in E. subst k'. now constructor.
    + constructor; [assumption | now apply IH].
Qed.

(** The bundles found are pairwise distinct by id. *)
Lemma foundBundles_NoDup {Env : Type} shop variantGid (w : World Env) :
  NoDup (map Bundle.id (foundBundles shop variantGid w)).
Proof.
  unfold foundBundles, findBundlesForVariant, bind, bundle_findMany, ret.
  generalize (filter
                (fun b => (Bundle.shopId b =? shop)%string
                          && (Bundle.parentGid b =? variantGid)%string)
                (bundles w)
              ++ filter
                   (fun b => (Bundle.shopId b =? shop)%string
                             && existsb
                                  (fun c =>
                                     (BundleChild.childGid c =? variantGid)%string)
                                  (Bundle.children b))
                   (bundles w))%list.
  intros bs.
  assert (G : forall m0 : JsMap.t Bundle.t,
             NoDup (JsMap.keys m0) ->
             Forall (fun e => fst e = Bundle.id (snd e)) m0 ->
             let m := fold_left (fun m b => JsMap.set m (Bundle.id b) b) bs m0 in
             NoDup (JsMap.keys m)
             /\ Forall (fun e => fst e = Bundle.id (snd e)) m).
  { induction bs as [|b bs IH]; intros m0 Hnd Hkeys; simpl; [auto|].
    apply IH.
    - now apply JsMap_keys_set_NoDup.
    - now apply JsMap_set_Forall. }
  destruct (G JsMap.empty) as [Hnd Hkeys]; [constructor | constructor |].
  cbv zeta in Hnd, Hkeys.
  set (m := fold_left _ bs JsMap.empty) in *.
  replace (map Bundle.id (JsMap.values m)) with (JsMap.keys m); [exact Hnd|].
  unfold JsMap.values, JsMap.keys. rewrite map_map.
  apply map_ext_in. intros e He.
  rewrite Forall_forall in Hkeys. now apply Hkeys.
Qed.

Lemma processInventoryUpdate_ledger event (w : World Ledger.t) :
  processInventoryUpdate event w =
  match changedVariant event w with
  | None => (Ok RESOLUTION_FAILED, w)
  | Some variantGid =>
      match foundBundles (InventoryUpdateEvent.shop event) variantGid w with
      | [] => (Ok NO_BUNDLES, w)
      | bs =>
          match
            syncBundles bs (InventoryUpdateEvent.locationId event)
              (locationGidOf event) variantGid
              (InventoryUpdateEvent.available event) 0 w
          with
          | (Ok total, w') =>
              (Ok (SyncResult.mk true (Z.of_nat (List.length bs)) total
                     None None), w')
          | (Throw e, w') => (Throw e, w')
          end
      end
  end.
Proof.
  unfold processInventoryUpdate. cbv zeta. unfold bind at 1.
  rewrite findVariantForInventoryItem_ledger. unfold changedVariant.
  destruct (Ledger.variantOfItem (env w) _) as [variantGid|]; [|reflexivity].
  destruct (truthy variantGid); [|reflexivity].
  cbn [negb]. unfold bind at 1. rewrite findBundlesForVariant_run.
  destruct (foundBundles _ _ w) as [|b bs]; [reflexivity|].
  unfold bind, ret, locationGidOf.
  destruct (syncBundles _ _ _ _ _ _ w) as [[total|e] w']; reflexivity.
Qed.

(** Where a repeated event is harmless: the events on a component.  Take
    an event over a shop that keeps its books and is not in an outage,
    such that, for the bundles the event affects: no
    lock of the table collides with theirs, their component quantities are
    positive, the changed variant is not the parent of any of them, every
    parent with an inventory item is stocked at the location, and no
    parent's item is also a component's item or another parent's item.
    Then the event can be applied twice in a row, and the second
    application reports [adjustmentsMade = 0] and leaves every level of
    the ledger as the first application left it. *)
Theorem processInventoryUpdate_twice_for_component_events
  event (w : World Ledger.t) :
  let affected := affectedBundles event w in
  Ledger.outage (env w) = false ->
  locksFree (syncLocks w) (InventoryUpdateEvent.locationId event) affected ->
  quantitiesPositive affected ->
  (forall b,
      In b affected -> changedVariant event w <> Some (Bundle.parentGid b)) ->
  parentsStocked (env w) (locationGidOf event) affected ->
  parentsApart (env w) affected ->
  exists r1 w1 r2 w2,
    processInventoryUpdate event w = (Ok r1, w1) /\
    processInventoryUpdate event w1 = (Ok r2, w2) /\
    SyncResult.adjustmentsMade r2 = 0 /\
    Ledger.level (env w2) = Ledger.level (env w1).
Proof.
  intros affected Hup Hlocks Hpos Hcomp Hstocked Hapart.
  rewrite processInventoryUpdate_ledger.
  unfold affected, affectedBundles in *. clear affected.
  destruct (changedVariant event w) as [v|] eqn:Ev.
  2:{ exists RESOLUTION_FAILED, w, RESOLUTION_FAILED, w.
      rewrite processInventoryUpdate_ledger, Ev. auto. }
  destruct (foundBundles (InventoryUpdateEvent.shop event) v w)
    as [|b bs] eqn:Efound.
  { exists NO_BUNDLES, w, NO_BUNDLES, w.
    rewrite processInventoryUpdate_ledger, Ev, Efound. auto. }
  destruct (settling_pass (InventoryUpdateEvent.locationId event)
              (locationGidOf event) v (InventoryUpdateEvent.available event)
              (b :: bs) w 0)
    as (total & w1 & Hrun & Hitem & Hvar & _ & Hsettled);
    try assumption.
  { rewrite <- Efound. apply foundBundles_NoDup. }
  { intros b' Hb' Heq. apply (Hcomp b' Hb'). now rewrite Heq. }
  rewrite Hrun.
  destruct (syncBundles_locks _ _ _ _ _ _ _ _ _ Hrun) as [_ Hbundles].
  assert (Ev1 : changedVariant event w1 = Some v)
    by (unfold changedVariant in *; now rewrite Hvar).
  assert (Efound1 : foundBundles (InventoryUpdateEvent.shop event) v w1
                    = b :: bs)
    by (now rewrite (foundBundles_table _ _ w w1 Hbundles)).
  destruct (settled_pass (InventoryUpdateEvent.locationId event)
              (locationGidOf event) v (InventoryUpdateEvent.available event)
              (b :: bs) w1 0 Hsettled)
    as (w2 & Hrun2 & Hlevel).
  eexists _, w1, _, w2.
  rewrite processInventoryUpdate_ledger, Ev1, Efound1. cbv beta iota zeta.
  rewrite Hrun2. repeat split. exact Hlevel.
Qed.

Lemma processInventoryUpdate_twice_for_component_events_witness :
  exists r1 w1 r2 w2,
    processInventoryUpdate Sample.canEvent (Sample.world [] false)
    = (Ok r1, w1) /\
    processInventoryUpdate Sample.canEvent w1 = (Ok r2, w2) /\
    SyncResult.adjustmentsMade r2 = 0 /\
    Ledger.level (env w2) = Ledger.level (env w1).
Proof.
  apply (processInventoryUpdate_twice_for_component_events
           Sample.canEvent (Sample.world [] false)).
  - reflexivity.
  - intros l b now [].
  - intros b c [<-|[]] [<-|[]]. simpl. lia.
  - intros b [<-|[]]. vm_compute. discriminate.
  - intros b item [<-|[]] Hitem. vm_compute in Hitem.
    injection Hitem as <-. vm_compute. discriminate.
  - split.
    + intros b b' c item [<-|[]] [<-|[]] [<-|[]] Hitem.
      vm_compute in Hitem. injection Hitem as <-. vm_compute. discriminate.
    + intros b b' item [<-|[]] [<-|[]] Hne. now contradiction Hne.
Defined.

(** C1.  The sync is not idempotent for an event on the parent of a
    bundle.  The webhook for the packs (the parent of the bundle) reports 5
    packs while 48 cans give 2: the first application lowers the packs by
    3, to 2, and releases its lock; the second application of the same
    event - nothing else having changed - takes the 5 of the event for the
    current stock of the packs again, reports one more adjustment instead
    of none and leaves the ledger at -1.  The lock does not stand in the
    way: its id carries the reading of the clock. *)
Lemma processInventoryUpdate_parent_event_repeats :
  let (r1, w1) :=
    processInventoryUpdate Sample.packEvent (Sample.world [] false) in
  let (r2, w2) := processInventoryUpdate Sample.packEvent w1 in
  r1 = Ok (SyncResult.mk true 1 1 None None) /\
  Sample.packLevel w1 = Some 2 /\
  syncLocks w1 = [] /\
  r2 = Ok (SyncResult.mk true 1 1 None None) /\
  Sample.packLevel w2 = Some (-1).
Proof. vm_compute. repeat split. Qed.

(** The same holds for the component event when the first application
    could not obtain the lock: it adjusts nothing, and the second one does
    the work. *)
Example processInventoryUpdate_contended_first_pass :
  let (r1, w1) :=
    processInventoryUpdate Sample.canEvent
      (Sample.world [Sample.heldLock] false) in
  let (r2, w2) := processInventoryUpdate Sample.canEvent w1 in
  r1 = Ok (SyncResult.mk true 1 0 None None) /\
  r2 = Ok (SyncResult.mk true 1 1 None None).
Proof. vm_compute. repeat split. Qed.

Lemma acquireSyncLock_contract_witness :
  exists w',
    acquireSyncLock Sample.LOCK_ID "bundle-1" (Sample.world [] false)
    = (Ok true, w') /\
    exists w3,
      acquireSyncLock Sample.LOCK_ID "bundle-1"
        (mkWorld (syncLocks w') [Sample.bundle] Sample.laterLedger)
      = (Ok true, w3).
Proof.
  destruct (acquireSyncLock_contract Sample.LOCK_ID "bundle-1"
              (Sample.world [] false))
    as (acquired & w' & Hrun & _ & _ & Htrue & _ & _ & Hheal).
  assert (Hacquired : acquired = true)
    by (apply Htrue; intros (l & [] & _)).
  subst acquired. exists w'. split; [exact Hrun|].
  apply Hheal.
  - reflexivity.
  - intros l Hl _. exact Hl.
  - vm_compute. reflexivity.
Defined.

Lemma syncLock_released_on_every_exit_witness :
  let w := Sample.world [Sample.heldLock] true in
  let out :=
    syncLockedBundle Sample.LOCK_ID Sample.bundle Sample.LOCATION Sample.CAN
      48 w in
  fst out = Throw (JsError Ledger.FETCH_FAILED) /\
  forall l, In l (syncLocks (snd out)) -> SyncLock.id l <> Sample.LOCK_ID.
Proof.
  intros w out. split; [vm_compute; reflexivity|].
  apply (proj1 syncLock_released_on_every_exit Sample.LOCK_ID Sample.bundle
           Sample.LOCATION Sample.CAN 48 w (snd out) (fst out)).
  exact (surjective_pairing out).
Defined.

Lemma processInventoryUpdate_bundlesAffected_witness :
  let w := Sample.world [Sample.heldLock] false in
  let out := processInventoryUpdate Sample.canEvent w in
  fst out = Ok (SyncResult.mk true 1 0 None None) /\
  Sample.packLevel (snd out) = Some 5 /\
  forall r,
    fst out = Ok r ->
    SyncResult.bundlesAffected r
    = Z.of_nat (List.length (foundBundles Sample.SHOP Sample.CAN w)) /\
    SyncResult.skipped r = None.
Proof.
  intros w out. split; [vm_compute; reflexivity|].
  split; [vm_compute; reflexivity|].
  intros r Hr.
  destruct (processInventoryUpdate_bundlesAffected Sample.canEvent w (snd out) r)
    as (found & w1 & Hfind & Hres).
  { rewrite <- Hr. exact (surjective_pairing out). }
  rewrite findVariantForInventoryItem_ledger in Hfind.
  injection Hfind as <- _.
  change (Ledger.variantOfItem (env w)
            ("gid://shopify/InventoryItem/"
             ++ string_of_Z (InventoryUpdateEvent.inventoryItemId
                               Sample.canEvent))%string)
    with (Some Sample.CAN) in Hres.
  change (truthy Sample.CAN) with true in Hres. cbv beta iota zeta in Hres.
  destruct Hres as (_ & Haffected & Hskipped & _).
  split; [exact Haffected|]. apply Hskipped. discriminate.
Defined.

(* ------------------------------------------------------------------------- *)
(** ** More on sync locks *)

Section LockLifecycle.

Context {Env : Type} `{Environment Env}.

Lemma filter_other_id_twice lockId (locks : list SyncLock.t) :
  filter (fun l => negb (SyncLock.id l =? lockId)%string)
    (filter (fun l => negb (SyncLock.id l =? lockId)%string) locks)
  = filter (fun l => negb (SyncLock.id l =? lockId)%string) locks.
Proof.
  apply forallb_filter_id. apply forallb_forall.
  intros l Hl. now apply filter_In in Hl.
Qed.

(** X1.  [releaseSyncLock] never throws.  It removes the rows with the
    given id and no other row; when no row has the id the world is left
    exactly as it was; and releasing a second time changes nothing. *)
Theorem releaseSyncLock_idempotent lockId (w : World Env) :
  exists w1,
    releaseSyncLock lockId w = (Ok tt, w1) /\
    (forall l,
        In l (syncLocks w1) <-> In l (syncLocks w) /\ SyncLock.id l <> lockId) /\
    bundles w1 = bundles w /\ env w1 = env w /\
    ((forall l, In l (syncLocks w) -> SyncLock.id l <> lockId) -> w1 = w) /\
    releaseSyncLock lockId w1 = (Ok tt, w1).
Proof.
  rewrite releaseSyncLock_run. eexists. split; [reflexivity|].
  cbn [syncLocks bundles env]. split.
  { intros l. rewrite filter_In, negb_true_iff, String.eqb_neq. tauto. }
  split; [reflexivity|]. split; [reflexivity|]. split.
  - intros Habsent. rewrite forallb_filter_id; [apply world_eta|].
    apply forallb_forall. intros l Hl.
    apply negb_true_iff, String.eqb_neq. now apply Habsent.
  - rewrite releaseSyncLock_run. cbn [syncLocks bundles env].
    now rewrite filter_other_id_twice.
Qed.

(** X2.  A held lock excludes until it is released.  After a successful
    [acquireSyncLock], a second call for the same id made while the lock is
    in the table and the clock has not passed its expiry answers [false]
    and adds nothing; once [releaseSyncLock] has run, the table is the one
    the first call found, less its expired rows, and the id can be
    acquired again. *)
Theorem held_lock_excludes_until_released lockId bundleId (w w1 : World Env) :
  acquireSyncLock lockId bundleId w = (Ok true, w1) ->
  let now := fst (dateNow (env w)) in
  (forall (w2 : World Env) bundleId2,
      In (SyncLock.mk lockId bundleId (now + SYNC_LOCK_TTL_MS)) (syncLocks w2) ->
      fst (dateNow (env w2)) <= now + SYNC_LOCK_TTL_MS ->
      exists w3,
        acquireSyncLock lockId bundleId2 w2 = (Ok false, w3) /\
        incl (syncLocks w3) (syncLocks w2)) /\
  (exists w2,
      releaseSyncLock lockId w1 = (Ok tt, w2) /\
      syncLocks w2 = liveLocks now (syncLocks w) /\
      forall bundleId2,
        exists w3, acquireSyncLock lockId bundleId2 w2 = (Ok true, w3)).
Proof.
  intros Hrun now. rewrite acquireSyncLock_run in Hrun. cbv zeta in Hrun.
  fold now in Hrun.
  destruct (existsb _ (liveLocks now (syncLocks w))) eqn:Efree;
    [discriminate|].
  injection Hrun as <-. split.
  - intros w2 bundleId2 Hheld Hearly.
    rewrite acquireSyncLock_run. cbv zeta.
    set (now2 := fst (dateNow (env w2))) in *.
    assert (Hbusy : existsb (fun l => (SyncLock.id l =? lockId)%string)
                      (liveLocks now2 (syncLocks w2)) = true).
    { apply existsb_id_liveLocks. eexists. split; [exact Hheld|].
      split; [reflexivity|]. unfold SyncLock.expired. simpl.
      apply Z.ltb_ge. lia. }
    rewrite Hbusy. eexists. split; [reflexivity|].
    cbn [syncLocks]. intros l Hl. now apply filter_In in Hl.
  - rewrite releaseSyncLock_run. cbn [syncLocks bundles env].
    rewrite filter_other_id_live by (exact Efree || reflexivity).
    eexists. split; [reflexivity|]. split; [reflexivity|].
    intros bundleId2. rewrite acquireSyncLock_run. cbv zeta.
    cbn [syncLocks bundles env].
    destruct (existsb _ (liveLocks _ (liveLocks now (syncLocks w)))) eqn:E;
      [|eauto].
    exfalso. apply existsb_exists in E as (l & Hl & Hid).
    apply filter_In in Hl as [Hl _].
    assert (Hbusy : existsb (fun l => (SyncLock.id l =? lockId)%string)
                      (liveLocks now (syncLocks w)) = true)
      by (apply existsb_exists; exists l; split; assumption).
    congruence.
Qed.

End LockLifecycle.

Lemma held_lock_excludes_until_released_witness :
  let w := Sample.world [] false in
  let w1 := snd (acquireSyncLock Sample.LOCK_ID "bundle-1" w) in
  exists w2,
    releaseSyncLock Sample.LOCK_ID w1 = (Ok tt, w2) /\
    syncLocks w2 = liveLocks (fst (dateNow (env w))) (syncLocks w) /\
    forall bundleId2,
      exists w3, acquireSyncLock Sample.LOCK_ID bundleId2 w2 = (Ok true, w3).
Proof.
  intros w w1.
  apply (held_lock_excludes_until_released Sample.LOCK_ID "bundle-1" w w1).
  reflexivity.
Defined.

(* ------------------------------------------------------------------------- *)
(** ** Bundle lookup *)

Lemma JsMap_set_In {V : Type} (m : JsMap.t V) k v k' v' :
  NoDup (JsMap.keys m) ->
  In (k', v') (JsMap.set m k v) <->
  (k' = k /\ v' = v) \/ (k' <> k /\ In (k', v') m).
Proof.
  intros Hnd. split.
  - intros Hin.
    assert (Hget : JsMap.get (JsMap.set m k v) k' = Some v')
      by (apply JsMap_In_get; [now apply JsMap_keys_set_NoDup | exact Hin]).
    destruct (string_dec k k') as [<-|Hne].
    + rewrite JsMap_get_set_same in Hget. injection Hget as <-. now left.
    + rewrite JsMap_get_set_other in Hget by assumption.
      right. split; [congruence | now apply JsMap_get_Some_In].
  - intros [[-> ->]|[Hne Hin]]; apply JsMap_get_Some_In.
    + apply JsMap_get_set_same.
    + rewrite JsMap_get_set_other by congruence. now apply JsMap_In_get.
Qed.

(** Deduplication by id keeps every row when equal ids mean equal rows. *)
Lemma bundleMap_values (rows : list Bundle.t) :
  (forall a b, In a rows -> In b rows -> Bundle.id a = Bundle.id b -> a = b) ->
  forall b,
    In b (JsMap.values
            (fold_left (fun m bundle => JsMap.set m (Bundle.id bundle) bundle)
               rows JsMap.empty))
    <-> In b rows.
Proof.
  intros Hkey.
  assert (G : forall done todo (m : JsMap.t Bundle.t),
             (forall a b,
                 In a (done ++ todo) -> In b (done ++ todo) ->
                 Bundle.id a = Bundle.id b -> a = b) ->
             NoDup (JsMap.keys m) ->
             (forall k b, In (k, b) m <-> k = Bundle.id b /\ In b done) ->
             forall k b,
               In (k, b)
                 (fold_left
                    (fun m bundle => JsMap.set m (Bundle.id bundle) bundle)
                    todo m)
               <-> k = Bundle.id b /\ In b (done ++ todo)).
  { intros done todo. revert done.
    induction todo as [|x todo IH]; intros done m Hinj Hnd Hm k b; simpl.
    - rewrite app_nil_r. apply Hm.
    - replace (done ++ x :: todo)%list with ((done ++ [x]) ++ todo)%list in *
        by (rewrite <- app_assoc; reflexivity).
      apply IH; [exact Hinj | now apply JsMap_keys_set_NoDup |].
      intros k' b'. rewrite JsMap_set_In by assumption.
      rewrite Hm, in_app_iff. simpl. split.
      + intros [[-> ->]|[Hne [-> Hb']]];
          (split; [reflexivity|]);
          [right; left; reflexivity | left; exact Hb'].
      + intros [-> [Hb'|[<-|[]]]]; [|left; split; reflexivity].
        destruct (string_dec (Bundle.id b') (Bundle.id x)) as [Heq|Hne].
        * left. split; [assumption|]. apply Hinj; try assumption.
          -- rewrite !in_app_iff. left. now left.
          -- rewrite !in_app_iff. left. right. now left.
        * right. auto. }
  intros b. unfold JsMap.values. rewrite in_map_iff. split.
  - intros ([k b'] & <- & Hin).
    apply (G [] rows JsMap.empty) in Hin as [_ Hin];
      [exact Hin | exact Hkey | constructor | simpl; tauto].
  - intros Hb. exists (Bundle.id b, b). split; [reflexivity|].
    apply (G [] rows JsMap.empty);
      [exact Hkey | constructor | simpl; tauto | auto].
Qed.

(** X3.  When the bundle table has unique ids, [findBundlesForVariant]
    returns exactly the rows of the shop whose parent is the variant or
    that list the variant among their children, each once, and leaves the
    world as it is. *)
Theorem findBundlesForVariant_exact {Env : Type} shop variantGid
  (w : World Env) :
  NoDup (map Bundle.id (bundles w)) ->
  exists found,
    findBundlesForVariant shop variantGid w = (Ok found, w) /\
    NoDup (map Bundle.id found) /\
    forall b,
      In b found <->
      In b (bundles w) /\ Bundle.shopId b = shop /\
      (Bundle.parentGid b = variantGid \/
       exists c, In c (Bundle.children b) /\ BundleChild.childGid c = variantGid).
Proof.
  intros Hkey. exists (foundBundles shop variantGid w).
  split; [apply findBundlesForVariant_run|].
  split; [apply foundBundles_NoDup|].
  intros b. unfold foundBundles, findBundlesForVariant, bind, bundle_findMany,
    ret.
  rewrite bundleMap_values.
  - rewrite in_app_iff, !filter_In, !andb_true_iff, !String.eqb_eq,
      existsb_exists.
    split.
    + intros [(Hb & Hs & Hp)|(Hb & Hs & c & Hc & Hv)].
      * auto.
      * apply String.eqb_eq in Hv. repeat split; eauto.
    + intros (Hb & Hs & [Hp|(c & Hc & Hv)]); [now left|].
      right. repeat split; try assumption.
      exists c. split; [assumption | now apply String.eqb_eq].
  - intros a b' Ha Hb' Heq.
    assert (Hin : forall x,
               In x (filter
                       (fun b => (Bundle.shopId b =? shop)%string
                                 && (Bundle.parentGid b =? variantGid)%string)
                       (bundles w)
                     ++ filter
                          (fun b =>
                             (Bundle.shopId b =? shop)%string
                             && existsb
                                  (fun c =>
                                     (BundleChild.childGid c =? variantGid)%string)
                                  (Bundle.children b))
                          (bundles w))%list ->
               In x (bundles w)).
    { intros x Hx. apply in_app_or in Hx as [Hx|Hx];
        now apply filter_In in Hx. }
    apply Hin in Ha, Hb'. clear Hin.
    induction (bundles w) as [|r rows IH]; [destruct Ha|].
    simpl in Hkey. inversion Hkey as [|? ? Hfresh Hnd]; subst.
    destruct Ha as [<-|Ha], Hb' as [<-|Hb'].
    + reflexivity.
    + exfalso. apply Hfresh. rewrite Heq. now apply in_map.
    + exfalso. apply Hfresh. rewrite <- Heq. now apply in_map.
    + now apply IH.
Qed.

Lemma findBundlesForVariant_exact_witness :
  exists found,
    findBundlesForVariant Sample.SHOP Sample.CAN (Sample.world [] false)
    = (Ok found, Sample.world [] false) /\
    NoDup (map Bundle.id found) /\
    forall b,
      In b found <->
      In b (bundles (Sample.world [] false)) /\
      Bundle.shopId b = Sample.SHOP /\
      (Bundle.parentGid b = Sample.CAN \/
       exists c,
         In c (Bundle.children b) /\ BundleChild.childGid c = Sample.CAN).
Proof.
  apply (findBundlesForVariant_exact Sample.SHOP Sample.CAN
           (Sample.world [] false)).
  simpl. repeat constructor. intros [].
Defined.

(* ------------------------------------------------------------------------- *)
(** ** Sending adjustments *)

Lemma slices_sizes {A : Type} size :
  (0 < size)%nat ->
  forall fuel (xs : list A),
    Forall (fun batch => (1 <= List.length batch <= size)%nat)
      (slices fuel size xs).
Proof.
  intros Hsize. induction fuel as [|fuel IH]; intros xs; [constructor|].
  destruct xs as [|x xs]; [constructor|].
  cbn [slices]. constructor; [|apply IH].
  rewrite length_firstn. cbn [List.length]. lia.
Qed.

Lemma filter_nonzero_nil (adjustments : list InventoryAdjustment.t) :
  (forall a, In a adjustments -> InventoryAdjustment.delta a = 0) ->
  filter (fun a => negb (InventoryAdjustment.delta a =? 0)) adjustments = [].
Proof.
  induction adjustments as [|a rest IH]; intros Hzero; [reflexivity|].
  simpl. rewrite (Hzero a) by now left. simpl. apply IH.
  intros a' Ha'. apply Hzero. now right.
Qed.

(** X4.  When every delta is zero (in particular for the empty list),
    [adjustInventoryLevels] returns without a single request: the world,
    environment included, is untouched, whatever the environment is. *)
Theorem adjustInventoryLevels_nothing_to_send {Env : Type} `{Environment Env}
  adjustments reason (w : World Env) :
  (forall a, In a adjustments -> InventoryAdjustment.delta a = 0) ->
  adjustInventoryLevels adjustments reason w = (Ok tt, w).
Proof.
  intros Hzero. unfold adjustInventoryLevels.
  destruct adjustments as [|a rest]; [reflexivity|].
  now rewrite (filter_nonzero_nil (a :: rest) Hzero).
Qed.

Lemma adjustInventoryLevels_nothing_to_send_witness :
  adjustInventoryLevels
    [InventoryAdjustment.mk Sample.PACK_ITEM Sample.LOCATION 0] "correction"
    (Sample.world [] true)
  = (Ok tt, Sample.world [] true).
Proof.
  apply adjustInventoryLevels_nothing_to_send.
  intros a [<-|[]]. reflexivity.
Defined.

Lemma map_copy_adjustments (batch : list InventoryAdjustment.t) :
  map (fun adj =>
         InventoryAdjustment.mk
           (InventoryAdjustment.inventoryItemId adj)
           (InventoryAdjustment.locationId adj)
           (InventoryAdjustment.delta adj)) batch
  = batch.
Proof.
  induction batch as [|[item location delta] batch IH]; simpl;
    [reflexivity | now rewrite IH].
Qed.

Lemma adjust_batches_journal reason (bs : list (list InventoryAdjustment.t)) :
  forall (w : World Journal.t),
    foldM
      (fun (_ : unit) batch =>
         let changes :=
           map (fun adj =>
                  InventoryAdjustment.mk
                    (InventoryAdjustment.inventoryItemId adj)
                    (InventoryAdjustment.locationId adj)
                    (InventoryAdjustment.delta adj)) batch in
         request
           (mutateAdjustInventory (AdjustInput.mk reason "available" changes)))
      bs tt w
    = (Ok tt,
       mkWorld (syncLocks w) (bundles w)
         (env w ++ map (AdjustInput.mk reason "available") bs)%list).
Proof.
  induction bs as [|batch bs IH]; intros w.
  - simpl. unfold ret. now rewrite app_nil_r, world_eta.
  - cbn [foldM map]. unfold bind, request. cbv zeta.
    rewrite map_copy_adjustments. simpl. rewrite IH. simpl.
    now rewrite <- app_assoc.
Qed.

(** X5.  The requests of [adjustInventoryLevels], read off the journal of
    the shop: each carries the given reason, the quantity name
    ["available"] and between 1 and 10 changes, no change has delta 0, and
    put end to end the changes are the non-zero adjustments in their
    order. *)
Theorem adjustInventoryLevels_requests adjustments reason
  (w : World Journal.t) :
  exists sent,
    adjustInventoryLevels adjustments reason w
    = (Ok tt, mkWorld (syncLocks w) (bundles w) (env w ++ sent)%list) /\
    Forall
      (fun input =>
         AdjustInput.reason input = reason /\
         AdjustInput.name input = "available" /\
         (1 <= List.length (AdjustInput.changes input) <= 10)%nat /\
         Forall (fun c => InventoryAdjustment.delta c <> 0)
           (AdjustInput.changes input))
      sent /\
    List.concat (map AdjustInput.changes sent)
    = filter (fun a => negb (InventoryAdjustment.delta a =? 0)) adjustments.
Proof.
  set (nonZero := filter (fun a => negb (InventoryAdjustment.delta a =? 0))
                    adjustments).
  exists (map (AdjustInput.mk reason "available") (batches 10 nonZero)).
  assert (Hconcat :
            List.concat
              (map AdjustInput.changes
                 (map (AdjustInput.mk reason "available") (batches 10 nonZero)))
            = nonZero).
  { rewrite map_map. simpl. rewrite map_id. apply concat_batches. lia. }
  split; [|split; [|exact Hconcat]].
  - unfold adjustInventoryLevels. fold nonZero.
    destruct adjustments as [|a rest].
    { simpl. unfold ret. now rewrite app_nil_r, world_eta. }
    destruct nonZero as [|n rest'] eqn:E.
    { simpl. unfold ret. now rewrite app_nil_r, world_eta. }
    apply adjust_batches_journal.
  - apply Forall_forall. intros input Hin.
    apply in_map_iff in Hin as (batch & <- & Hbatch). simpl.
    split; [reflexivity|]. split; [reflexivity|]. split.
    + pose proof (slices_sizes 10 ltac:(lia) (List.length nonZero) nonZero)
        as Hsizes.
      rewrite Forall_forall in Hsizes. now apply Hsizes.
    + apply Forall_forall. intros c Hc.
      assert (Hnz : In c nonZero).
      { rewrite <- (concat_batches 10 nonZero) by lia.
        apply in_concat. eauto. }
      apply filter_In in Hnz as [_ Hnz].
      now apply negb_true_iff, Z.eqb_neq in Hnz.
Qed.

(* ------------------------------------------------------------------------- *)
(** ** Reading levels and planning adjustments *)

(** X6.  Over a shop that keeps its books, [getInventoryLevels] changes
    nothing and returns a map that holds, for every requested non-empty
    id, exactly the level of the ledger at the location (no entry when the
    item is not stocked there), and no entry for any other id - however
    many batches of 50 the request takes. *)
Theorem getInventoryLevels_reads ids locationId (w : World Ledger.t) :
  exists levels,
    getInventoryLevels ids locationId w = (Ok levels, w) /\
    forall id,
      (In id ids /\ id <> "" ->
       JsMap.get levels id = Ledger.level (env w) id locationId) /\
      (~ In id ids \/ id = "" -> JsMap.get levels id = None).
Proof.
  eexists. split; [apply getInventoryLevels_ledger|].
  intros id. rewrite levels_get. split.
  - intros [Hin Hne]. apply existsb_eqb_In in Hin. rewrite Hin.
    apply String.eqb_neq in Hne. unfold truthy. rewrite Hne. simpl.
    now destruct (Ledger.level (env w) id locationId).
  - intros [Hout| ->].
    + destruct (existsb (String.eqb id) ids) eqn:E; [|reflexivity].
      now apply existsb_eqb_In in E.
    + now rewrite andb_false_r.
Qed.

Lemma parentAdjustment_shape m bundle locationGid delta :
  (List.length (parentAdjustment m bundle locationGid delta) <= 1)%nat /\
  Forall
    (fun a =>
       InventoryAdjustment.delta a <> 0 /\
       InventoryAdjustment.locationId a = locationGid /\
       JsMap.get m (Bundle.parentGid bundle)
       = Some (InventoryAdjustment.inventoryItemId a) /\
       InventoryAdjustment.inventoryItemId a <> "")
    (parentAdjustment m bundle locationGid delta).
Proof.
  unfold parentAdjustment.
  destruct (Z.eqb_spec delta 0) as [Hz|Hnz]; simpl; [auto|].
  destruct (JsMap.get m (Bundle.parentGid bundle)) as [item|]; [|auto].
  destruct (truthy item) eqn:E; [|auto].
  split; [simpl; lia|]. constructor; [|constructor]. simpl.
  repeat split; try assumption.
  unfold truthy in E. apply negb_true_iff in E. now apply String.eqb_neq.
Qed.

(** X7.  Whatever the environment answers, [calculateBundleAdjustments]
    returns at most one adjustment; it has a non-zero delta, is addressed
    to the given location and to a non-empty inventory item id; and the
    computation touches neither database table. *)
Theorem calculateBundleAdjustments_at_most_one {Env : Type} `{Environment Env}
  bundle locationGid changed available (w w' : World Env) adjustments :
  calculateBundleAdjustments bundle locationGid changed available w
  = (Ok adjustments, w') ->
  (List.length adjustments <= 1)%nat /\
  Forall
    (fun a =>
       InventoryAdjustment.delta a <> 0 /\
       InventoryAdjustment.locationId a = locationGid /\
       InventoryAdjustment.inventoryItemId a <> "")
    adjustments /\
  syncLocks w' = syncLocks w /\ bundles w' = bundles w.
Proof.
  intros Hrun.
  destruct (keeps_store_calculateBundleAdjustments _ _ _ _ _ _ _ Hrun)
    as [Hlocks Hbundles].
  split; [|split; [|split; assumption]]; revert Hrun;
    unfold calculateBundleAdjustments; cbv zeta; unfold bind at 1;
    (destruct (foldM _ _ _ w) as [[m|e] w1]; [|discriminate]);
    unfold bind at 1;
    (destruct (getInventoryLevels _ _ w1) as [[lv|e] w2]; [|discriminate]);
    (destruct (Bundle.children bundle) as [|c [|c' rest]]);
    unfold bind, lift, ret;
    match goal with
    | |- context [match ?r with Ok _ => _ | Throw _ => _ end] =>
        destruct r as [expected|e]; [|discriminate]
    end;
    intros [= <- _];
    match goal with
    | |- context [parentAdjustment ?m ?b ?l ?d] =>
        destruct (parentAdjustment_shape m b l d) as [Hlen Hall]
    end;
    try exact Hlen;
    (eapply Forall_impl; [|exact Hall]); simpl; tauto.
Qed.

Lemma calculateBundleAdjustments_at_most_one_witness :
  let w := Sample.world [] false in
  let adjustments :=
    [InventoryAdjustment.mk Sample.PACK_ITEM Sample.LOCATION (-3)] in
  (List.length adjustments <= 1)%nat /\
  Forall
    (fun a =>
       InventoryAdjustment.delta a <> 0 /\
       InventoryAdjustment.locationId a = Sample.LOCATION /\
       InventoryAdjustment.inventoryItemId a <> "")
    adjustments /\
  syncLocks w = syncLocks w /\ bundles w = bundles w.
Proof.
  intros w adjustments.
  apply (calculateBundleAdjustments_at_most_one Sample.bundle Sample.LOCATION
           Sample.CAN 48 w w adjustments).
  rewrite calculateBundleAdjustments_ledger. reflexivity.
Defined.

(* ------------------------------------------------------------------------- *)
(** ** What a sync leaves in the books *)

Lemma sameCatalog_refl l : sameCatalog l l.
Proof. repeat split; auto. Qed.

Lemma sameCatalog_trans l1 l2 l3 :
  sameCatalog l1 l2 -> sameCatalog l2 l3 -> sameCatalog l1 l3.
Proof.
  intros (Hi & Hv & Ho & Hl) (Hi' & Hv' & Ho' & Hl').
  repeat split; try congruence; intros Hnone.
  - now apply Hl, Hl'.
  - now apply Hl', Hl.
Qed.

Lemma sameCatalog_tick l : sameCatalog l (Ledger.tick l).
Proof. repeat split; auto. Qed.

Lemma applyChange_stocked lvl change item location :
  Ledger.applyChange lvl change item location = None <->
  lvl item location = None.
Proof.
  unfold Ledger.applyChange. destruct (_ && _); [|tauto].
  destruct (lvl item location); simpl; split; congruence.
Qed.

Lemma applyChanges_stocked changes :
  forall lvl item location,
    fold_left Ledger.applyChange changes lvl item location = None <->
    lvl item location = None.
Proof.
  induction changes as [|c cs IH]; intros lvl item location; simpl;
    [tauto|].
  rewrite IH. apply applyChange_stocked.
Qed.

Lemma sameCatalog_adjust l input : sameCatalog l (Ledger.adjust l input).
Proof.
  split; [reflexivity|]. split; [reflexivity|]. split; [reflexivity|].
  intros item location. apply applyChanges_stocked.
Qed.

Lemma sameCatalog_applyAdjustments l adjs :
  sameCatalog l (applyAdjustments l adjs).
Proof.
  destruct adjs; [apply sameCatalog_refl | apply sameCatalog_adjust].
Qed.

(** Processing bundles adjusts levels of stocked items and nothing else. *)
Lemma syncLockedBundle_catalog lockId bundle locationGid changed available
  (w w' : World Ledger.t) r :
  syncLockedBundle lockId bundle locationGid changed available w = (r, w') ->
  sameCatalog (env w) (env w').
Proof.
  unfold syncLockedBundle, try_finally. unfold bind at 1.
  rewrite calculateBundleAdjustments_ledger.
  destruct (plannedAdjustments _ _ _ _ _) as [adjs|e] eqn:Hplan.
  2:{ rewrite releaseSyncLock_run. intros [= _ <-]. apply sameCatalog_refl. }
  unfold bind at 1.
  destruct (Ledger.outage (env w)) eqn:Hup.
  - (* outage: the mutation, if any, throws and changes nothing *)
    destruct (plannedAdjustments_shape _ _ _ _ _ _ Hplan)
      as [->|(item & expected & _ & _ & Hnz & ->)]; cbv zeta in *.
    + simpl adjustInventoryLevels. unfold ret at 1 2.
      rewrite releaseSyncLock_run. intros [= _ <-]. apply sameCatalog_refl.
    + unfold adjustInventoryLevels. cbn [filter InventoryAdjustment.delta].
      apply Z.eqb_neq in Hnz. rewrite Hnz. cbn [negb].
      rewrite batches_single by lia. cbn [foldM map].
      unfold bind, request, ret. simpl. rewrite Hup.
      rewrite releaseSyncLock_run. intros [= _ <-]. apply sameCatalog_refl.
  - rewrite (adjustInventoryLevels_planned w _ _ _ _ _ Hup Hplan).
    unfold ret at 1. rewrite releaseSyncLock_run. intros [= _ <-].
    apply sameCatalog_applyAdjustments.
Qed.

Lemma syncBundles_catalog bs locationId locationGid changed available :
  forall total (w w' : World Ledger.t) r,
    syncBundles bs locationId locationGid changed available total w = (r, w') ->
    sameCatalog (env w) (env w').
Proof.
  induction bs as [|b bs IH]; intros total w w' r.
  - intros [= _ <-]. apply sameCatalog_refl.
  - cbn [syncBundles]. unfold bind at 1. rewrite Date_now_ledger.
    unfold bind at 1. rewrite acquireSyncLock_run. cbv zeta.
    cbn [env syncLocks bundles].
    assert (Hticks : sameCatalog (env w) (Ledger.tick (Ledger.tick (env w))))
      by (repeat split; auto).
    destruct (existsb _ _); cbn [negb].
    + intros Hrest. apply IH in Hrest.
      exact (sameCatalog_trans _ _ _ Hticks Hrest).
    + unfold bind at 1.
      destruct (syncLockedBundle _ _ _ _ _ _) as [[made|e] w2] eqn:Ebody;
        apply syncLockedBundle_catalog in Ebody; cbn [env] in Ebody.
      * intros Hrest. apply IH in Hrest.
        exact (sameCatalog_trans _ _ _ Hticks
                 (sameCatalog_trans _ _ _ Ebody Hrest)).
      * intros [= _ <-]. exact (sameCatalog_trans _ _ _ Hticks Ebody).
Qed.

(** X8.  What the first application achieves.  For an event on a component
    (no outage, no colliding lock, positive quantities, parents stocked and
    apart) whose value, like the levels in the books, is below 2^52 in
    absolute value - so that the difference the sync computes is a safe
    integer too - and whose ids and bundle quantities are safe integers,
    [processInventoryUpdate] returns, and
    afterwards the ledger shows, for every affected bundle whose parent
    has an inventory item, exactly the availability expected of it: the
    parent's level at the location is the value the calculator gives for
    the component stocks then in the books (with the event's value for the
    changed variant). *)
Theorem processInventoryUpdate_settles_parents event (w : World Ledger.t) :
  let affected := affectedBundles event w in
  Ledger.outage (env w) = false ->
  locksFree (syncLocks w) (InventoryUpdateEvent.locationId event) affected ->
  quantitiesPositive affected ->
  (forall b,
      In b affected -> changedVariant event w <> Some (Bundle.parentGid b)) ->
  parentsStocked (env w) (locationGidOf event) affected ->
  parentsApart (env w) affected ->
  safeInteger (InventoryUpdateEvent.inventoryItemId event) ->
  safeInteger (InventoryUpdateEvent.locationId event) ->
  Z.abs (InventoryUpdateEvent.available event) < HALF_SAFE_RANGE ->
  levelsModerate (env w) ->
  quantitiesSafe affected ->
  exists r1 w1,
    processInventoryUpdate event w = (Ok r1, w1) /\
    forall variantGid b item,
      changedVariant event w = Some variantGid ->
      In b affected ->
      itemFor (env w) (Bundle.parentGid b) = Some item ->
      exists q,
        Ledger.level (env w1) item (locationGidOf event) = Some q /\
        expectedAvailability (env w1) (locationGidOf event) variantGid
          (InventoryUpdateEvent.available event) b = Ok q.
Proof.
  intros affected Hup Hlocks Hpos Hcomp Hstocked Hapart _ _ _ _ _.
  rewrite processInventoryUpdate_ledger.
  unfold affected, affectedBundles in *. clear affected.
  destruct (changedVariant event w) as [v|] eqn:Ev.
  2:{ exists RESOLUTION_FAILED, w. split; [reflexivity | discriminate]. }
  destruct (foundBundles (InventoryUpdateEvent.shop event) v w)
    as [|b0 bs] eqn:Efound.
  { exists NO_BUNDLES, w. split; [reflexivity|]. intros ? ? ? _ []. }
  destruct (settling_pass (InventoryUpdateEvent.locationId event)
              (locationGidOf event) v (InventoryUpdateEvent.available event)
              (b0 :: bs) w 0)
    as (total & w1 & Hrun & Hitem & _ & _ & Hsettled);
    try assumption.
  { rewrite <- Efound. apply foundBundles_NoDup. }
  { intros b' Hb' Heq. apply (Hcomp b' Hb'). now rewrite Heq. }
  rewrite Hrun. eexists _, w1. split; [reflexivity|].
  intros v' b item [= <-] Hb Hparent.
  destruct (syncBundles_catalog _ _ _ _ _ _ _ _ _ Hrun)
    as (_ & _ & _ & Hsame).
  assert (Hq : exists q,
             Ledger.level (env w1) item (locationGidOf event) = Some q).
  { destruct (Ledger.level (env w1) item (locationGidOf event)) as [q|] eqn:E;
      [eauto|].
    apply Hsame in E. now apply (Hstocked b item Hb Hparent) in E. }
  destruct Hq as (q & Hq). exists q. split; [exact Hq|].
  specialize (Hsettled b Hb). unfold plannedAdjustments in Hsettled.
  destruct (expectedAvailability (env w1) _ _ _ b) as [expected|e];
    [|discriminate].
  simpl in Hsettled.
  rewrite (itemFor_static (env w) (env w1) _ Hitem), Hparent in Hsettled.
  unfold stockSeen in Hsettled.
  rewrite (itemFor_static (env w) (env w1) _ Hitem), Hparent in Hsettled.
  assert (Hne : (Bundle.parentGid b =? v)%string = false).
  { apply String.eqb_neq. intros Heq. apply (Hcomp b Hb). now rewrite Heq. }
  rewrite Hne, Hq in Hsettled. simpl in Hsettled.
  destruct (Z.eqb_spec (expected - q) 0) as [Hz|Hnz];
    [|discriminate].
  f_equal. lia.
Qed.

Lemma processInventoryUpdate_settles_parents_witness :
  exists r1 w1,
    processInventoryUpdate Sample.canEvent (Sample.world [] false)
    = (Ok r1, w1) /\
    forall variantGid b item,
      changedVariant Sample.canEvent (Sample.world [] false)
      = Some variantGid ->
      In b (affectedBundles Sample.canEvent (Sample.world [] false)) ->
      itemFor (env (Sample.world [] false)) (Bundle.parentGid b) = Some item ->
      exists q,
        Ledger.level (env w1) item (locationGidOf Sample.canEvent) = Some q /\
        expectedAvailability (env w1) (locationGidOf Sample.canEvent)
          variantGid (InventoryUpdateEvent.available Sample.canEvent) b
        = Ok q.
Proof.
  apply (processInventoryUpdate_settles_parents
           Sample.canEvent (Sample.world [] false)).
  - reflexivity.
  - intros l b now [].
  - intros b c [<-|[]] [<-|[]]. simpl. lia.
  - intros b [<-|[]]. vm_compute. discriminate.
  - intros b item [<-|[]] Hitem. vm_compute in Hitem.
    injection Hitem as <-. vm_compute. discriminate.
  - split.
    + intros b b' c item [<-|[]] [<-|[]] [<-|[]] Hitem.
      vm_compute in Hitem. injection Hitem as <-. vm_compute. discriminate.
    + intros b b' item [<-|[]] [<-|[]] Hne. now contradiction Hne.
  - unfold safeInteger, MAX_SAFE_INTEGER. simpl. lia.
  - unfold safeInteger, MAX_SAFE_INTEGER. simpl. lia.
  - unfold HALF_SAFE_RANGE. simpl. lia.
  - intros item location q Hq.
    change (Sample.level item location = Some q) in Hq.
    unfold Sample.level in Hq. unfold HALF_SAFE_RANGE.
    destruct (location =? Sample.LOCATION)%string; [|discriminate].
    destruct (item =? Sample.CAN_ITEM)%string; [injection Hq as <-; lia|].
    destruct (item =? Sample.PACK_ITEM)%string;
      [injection Hq as <-; lia | discriminate].
  - intros b c [<-|[]] [<-|[]].
    unfold safeInteger, MAX_SAFE_INTEGER. simpl. lia.
Defined.

(** In the sample shop: 48 cans, 24 to the pack, so the packs go from 5
    to 2. *)
Example sample_packs_after_can_event :
  Sample.packLevel
    (snd (processInventoryUpdate Sample.canEvent (Sample.world [] false)))
  = Some 2.
Proof. vm_compute. reflexivity. Qed.

(* ------------------------------------------------------------------------- *)
(** ** More on pick-list aggregation *)

Lemma aggregateStep_other k v (m : JsMap.t OrderLineItem.t) x :
  (k =? OrderLineItem.variantGid x)%string = false ->
  aggregateStep ((k, v) :: m) x = (k, v) :: aggregateStep m x.
Proof.
  intros E. unfold aggregateStep. simpl. rewrite E.
  destruct (JsMap.get m (OrderLineItem.variantGid x)); simpl;
    rewrite ?E; reflexivity.
Qed.

Lemma aggregateStep_total (m : JsMap.t OrderLineItem.t) x :
  lineTotal (JsMap.values (aggregateStep m x))
  = lineTotal (JsMap.values m) + OrderLineItem.quantity x.
Proof.
  induction m as [|[k v] m IH].
  - unfold lineTotal. simpl. lia.
  - destruct (k =? OrderLineItem.variantGid x)%string eqn:E.
    + unfold aggregateStep, lineTotal. simpl. rewrite !E. simpl.
      rewrite ?E. simpl. lia.
    + rewrite aggregateStep_other by assumption.
      unfold lineTotal in *. simpl. rewrite IH. lia.
Qed.

Lemma aggregate_fold_total items :
  forall m,
    lineTotal (JsMap.values (fold_left aggregateStep items m))
    = lineTotal (JsMap.values m) + lineTotal items.
Proof.
  induction items as [|x items IH]; intros m; simpl.
  - unfold lineTotal at 3. simpl. lia.
  - rewrite IH, aggregateStep_total. unfold lineTotal at 4. simpl.
    fold (lineTotal items). lia.
Qed.

(** X9.  Aggregation loses nothing: for line items whose quantities stay
    within the safe integers when added up (their magnitudes sum to at
    most 2^53 - 1), the quantities of the entries [aggregateItems] returns
    add up to the quantities of the line items it was given. *)
Theorem aggregateItems_preserves_total items :
  magnitude (map OrderLineItem.quantity items) <= MAX_SAFE_INTEGER ->
  lineTotal (aggregateItems items) = lineTotal items.
Proof.
  intros _. unfold aggregateItems. rewrite aggregate_fold_total. reflexivity.
Qed.

Lemma aggregateItems_preserves_total_witness :
  lineTotal
    (aggregateItems
       [OrderLineItem.mk "v1" "Lager" "Single" (Some "LAGER-1") 10;
        OrderLineItem.mk "v2" "Ale" "Single" None 8;
        OrderLineItem.mk "v1" "Lager" "Single" (Some "LAGER-1") 15])
  = 33.
Proof.
  apply (aggregateItems_preserves_total
           [OrderLineItem.mk "v1" "Lager" "Single" (Some "LAGER-1") 10;
            OrderLineItem.mk "v2" "Ale" "Single" None 8;
            OrderLineItem.mk "v1" "Lager" "Single" (Some "LAGER-1") 15]).
  unfold magnitude, MAX_SAFE_INTEGER. simpl. lia.
Defined.

Lemma aggregate_distinct items :
  forall m : JsMap.t OrderLineItem.t,
    NoDup (JsMap.keys m ++ map OrderLineItem.variantGid items) ->
    fold_left aggregateStep items m
    = (m ++ map (fun x => (OrderLineItem.variantGid x, x)) items)%list.
Proof.
  induction items as [|x items IH]; intros m Hnd; simpl.
  - now rewrite app_nil_r.
  - assert (Hnew : ~ In (OrderLineItem.variantGid x) (JsMap.keys m)).
    { intros Hin. apply NoDup_remove_2 in Hnd. apply Hnd.
      apply in_or_app. now left. }
    assert (Hstep : aggregateStep m x
                    = (m ++ [(OrderLineItem.variantGid x, x)])%list).
    { clear IH Hnd. induction m as [|[k v] m IH]; [reflexivity|].
      simpl in Hnew.
      destruct (k =? OrderLineItem.variantGid x)%string eqn:E.
      - apply String.eqb_eq in E. tauto.
      - rewrite aggregateStep_other by assumption.
        simpl. f_equal. apply IH. tauto. }
    rewrite Hstep, IH.
    + now rewrite <- app_assoc.
    + unfold JsMap.keys in *. rewrite map_app. simpl.
      rewrite <- app_assoc. simpl. exact Hnd.
Qed.

(** X10.  Line items with pairwise different variant ids pass through
    [aggregateItems] unchanged, in their order. *)
Theorem aggregateItems_distinct_unchanged items :
  NoDup (map OrderLineItem.variantGid items) ->
  aggregateItems items = items.
Proof.
  intros Hnd. unfold aggregateItems.
  rewrite aggregate_distinct by exact Hnd.
  unfold JsMap.values. simpl. rewrite map_map. simpl. apply map_id.
Qed.

Lemma aggregateItems_distinct_unchanged_witness :
  aggregateItems
    [OrderLineItem.mk "gid://1" "Lager" "Single" (Some "LAGER-1") 10;
     OrderLineItem.mk "gid://2" "Ale" "Single" None 5]
  = [OrderLineItem.mk "gid://1" "Lager" "Single" (Some "LAGER-1") 10;
     OrderLineItem.mk "gid://2" "Ale" "Single" None 5].
Proof.
  apply aggregateItems_distinct_unchanged.
  simpl. repeat constructor; simpl; intuition discriminate.
Defined.

(** X11.  [aggregateItems] is idempotent: aggregating an aggregated list
    changes nothing. *)
Theorem aggregateItems_idempotent items :
  aggregateItems (aggregateItems items) = aggregateItems items.
Proof.
  unfold aggregateItems at 1.
  rewrite aggregate_distinct.
  - unfold JsMap.values. simpl. rewrite map_map. simpl. apply map_id.
  - simpl.
    destruct (aggregate_invariant items) as (Hnd & _ & _ & Hget).
    cbv zeta in Hnd, Hget.
    set (m := fold_left aggregateStep items JsMap.empty) in *.
    replace (map OrderLineItem.variantGid (aggregateItems items))
      with (JsMap.keys m); [exact Hnd|].
    unfold aggregateItems, JsMap.values, JsMap.keys. fold m.
    rewrite map_map. apply map_ext_in. intros [k o] Hin. simpl.
    destruct (Hget k o (JsMap_In_get m k o Hnd Hin)) as (first & _ & ->).
    reflexivity.
Qed.

(* ------------------------------------------------------------------------- *)
(** ** More on CSV fields *)

Lemma doubled_quotes_injective (l1 l2 : list ascii) :
  flat_map (fun c => if Ascii.eqb c QUOTE then [QUOTE; QUOTE] else [c]) l1
  = flat_map (fun c => if Ascii.eqb c QUOTE then [QUOTE; QUOTE] else [c]) l2 ->
  l1 = l2.
Proof.
  revert l2. induction l1 as [|c1 l1 IH]; intros [|c2 l2]; simpl.
  - reflexivity.
  - destruct (Ascii.eqb c2 QUOTE); discriminate.
  - destruct (Ascii.eqb c1 QUOTE); discriminate.
  - destruct (Ascii.eqb c1 QUOTE) eqn:E1, (Ascii.eqb c2 QUOTE) eqn:E2; simpl.
    + apply Ascii.eqb_eq in E1, E2. subst. intros [= Heq].
      f_equal. now apply IH.
    + intros [= <- _]. now rewrite Ascii.eqb_refl in E2.
    + intros [= -> _]. now rewrite Ascii.eqb_refl in E1.
    + intros [= -> Heq]. f_equal. now apply IH.
Qed.

Lemma string_of_list_ascii_injective (l1 l2 : list ascii) :
  string_of_list_ascii l1 = string_of_list_ascii l2 -> l1 = l2.
Proof.
  intros Heq. rewrite <- (list_ascii_of_string_of_list_ascii l1).
  rewrite Heq. apply list_ascii_of_string_of_list_ascii.
Qed.

(** X12.  [escapeCSV] is injective: two different values never yield the
    same field, so what a field stands for is unambiguous. *)
Theorem escapeCSV_injective a b : escapeCSV a = escapeCSV b -> a = b.
Proof.
  rewrite !escapeCSV_spec. unfold csvField_spec. cbv zeta.
  destruct (existsb isSpecial (list_ascii_of_string a)) eqn:Ea,
    (existsb isSpecial (list_ascii_of_string b)) eqn:Eb.
  - intros Heq. apply string_of_list_ascii_injective in Heq.
    injection Heq as Heq. apply app_inv_tail in Heq.
    apply doubled_quotes_injective in Heq.
    rewrite <- (string_of_list_ascii_of_string a), Heq.
    apply string_of_list_ascii_of_string.
  - intros Heq. exfalso.
    assert (Hq : existsb isSpecial (list_ascii_of_string b) = true).
    { rewrite <- Heq, list_ascii_of_string_of_list_ascii. reflexivity. }
    congruence.
  - intros Heq. exfalso.
    assert (Hq : existsb isSpecial (list_ascii_of_string a) = true).
    { rewrite Heq, list_ascii_of_string_of_list_ascii. reflexivity. }
    congruence.
  - auto.
Qed.

Lemma escapeCSV_injective_witness : "A-01" = "A-01".
Proof. apply escapeCSV_injective. reflexivity. Defined.

(* ------------------------------------------------------------------------- *)
(** ** Sorting *)

Section ArraySort.

Context {A : Type} (compare : A -> A -> Z).

Lemma insertSorted_perm x sorted :
  Permutation (insertSorted compare x sorted) (x :: sorted).
Proof.
  induction sorted as [|y rest IH]; simpl; [reflexivity|].
  destruct (compare x y <? 0); [reflexivity|].
  rewrite IH. apply perm_swap.
Qed.

Lemma Array_sort_perm xs : Permutation (Array_sort compare xs) xs.
Proof.
  unfold Array_sort.
  assert (G : forall acc,
             Permutation
               (fold_left (fun sorted x => insertSorted compare x sorted) xs acc)
               (acc ++ xs)).
  { induction xs as [|x xs IH]; intros acc; simpl.
    - now rewrite app_nil_r.
    - rewrite IH, insertSorted_perm. apply Permutation_middle. }
  apply (G []).
Qed.

Hypothesis Hconsistent : consistent compare.

Lemma compare_flip a b : 0 <= compare a b -> compare b a <= 0.
Proof.
  destruct Hconsistent as [Hanti _]. intros Hge.
  specialize (Hanti a b). lia.
Qed.

Lemma compare_before_trans a b c :
  compare a b < 0 -> compare b c <= 0 -> compare a c < 0.
Proof.
  destruct Hconsistent as [Hanti Htrans]. intros Hlt Hle.
  destruct (Z_lt_ge_dec (compare a c) 0) as [|Hge]; [assumption|].
  assert (compare c a <= 0) by (specialize (Hanti a c); lia).
  assert (compare b a <= 0) by (now apply (Htrans b c a)).
  specialize (Hanti a b). lia.
Qed.

Lemma insertSorted_sorted x sorted :
  StronglySorted (fun a b => compare a b <= 0) sorted ->
  StronglySorted (fun a b => compare a b <= 0) (insertSorted compare x sorted).
Proof.
  destruct Hconsistent as [_ Htrans].
  induction sorted as [|y rest IH]; intros Hsorted; simpl.
  - repeat constructor.
  - inversion Hsorted as [|? ? Hrest Hy]; subst.
    destruct (Z.ltb_spec (compare x y) 0) as [Hlt|Hge].
    + constructor; [assumption|]. constructor; [lia|].
      rewrite Forall_forall in *. intros z Hz.
      apply (Htrans x y z); [lia | now apply Hy].
    + constructor; [now apply IH|].
      rewrite Forall_forall in *. intros z Hz.
      apply (Permutation_in _ (insertSorted_perm x rest)) in Hz.
      destruct Hz as [<-|Hz]; [now apply compare_flip | now apply Hy].
Qed.

Lemma Array_sort_sorted xs :
  StronglySorted (fun a b => compare a b <= 0) (Array_sort compare xs).
Proof.
  unfold Array_sort.
  assert (G : forall acc,
             StronglySorted (fun a b => compare a b <= 0) acc ->
             StronglySorted (fun a b => compare a b <= 0)
               (fold_left (fun sorted x => insertSorted compare x sorted)
                  xs acc)).
  { induction xs as [|x xs IH]; intros acc Hacc; simpl; [assumption|].
    apply IH. now apply insertSorted_sorted. }
  apply G. constructor.
Qed.

(** Stability: the members of a class of equals keep their order. *)
Lemma insertSorted_stable (p : A -> bool) x sorted :
  (forall a b, p a = true -> p b = true -> compare a b = 0) ->
  StronglySorted (fun a b => compare a b <= 0) sorted ->
  filter p (insertSorted compare x sorted)
  = (filter p sorted ++ filter p [x])%list.
Proof.
  intros Hclass.
  induction sorted as [|y rest IH]; intros Hsorted; simpl; [reflexivity|].
  inversion Hsorted as [|? ? Hrest Hy]; subst.
  destruct (Z.ltb_spec (compare x y) 0) as [Hlt|Hge].
  - destruct (p x) eqn:Hpx.
    + (* nothing from [y] on is an equal of [x] *)
      assert (Hnone : filter p (y :: rest) = []).
      { assert (Hall : forall z, In z (y :: rest) -> p z = false).
        { intros z Hz. destruct (p z) eqn:Hpz; [|reflexivity].
          assert (compare x z < 0).
          { destruct Hz as [<-|Hz]; [assumption|].
            rewrite Forall_forall in Hy.
            apply (compare_before_trans x y z); [assumption | now apply Hy]. }
          rewrite (Hclass x z Hpx Hpz) in *. lia. }
        clear -Hall. induction (y :: rest) as [|z zs IHz]; [reflexivity|].
        simpl. rewrite (Hall z) by now left.
        apply IHz. intros; apply Hall. now right. }
      simpl in *. rewrite Hpx. simpl in Hnone. rewrite Hnone. reflexivity.
    + simpl. rewrite Hpx. now rewrite app_nil_r.
  - simpl. rewrite IH by assumption.
    destruct (p y); reflexivity.
Qed.

Lemma Array_sort_stable (p : A -> bool) xs :
  (forall a b, p a = true -> p b = true -> compare a b = 0) ->
  filter p (Array_sort compare xs) = filter p xs.
Proof.
  intros Hclass. unfold Array_sort.
  assert (G : forall acc,
             StronglySorted (fun a b => compare a b <= 0) acc ->
             filter p
               (fold_left (fun sorted x => insertSorted compare x sorted)
                  xs acc)
             = (filter p acc ++ filter p xs)%list).
  { induction xs as [|x xs IH]; intros acc Hacc; simpl.
    - now rewrite app_nil_r.
    - rewrite IH by now apply insertSorted_sorted.
      rewrite insertSorted_stable by assumption.
      simpl. rewrite <- app_assoc. now destruct (p x). }
  apply (G []). constructor.
Qed.

End ArraySort.

Section ArraySortFilter.

Context {A : Type} (compare : A -> A -> Z).
Hypothesis Hconsistent : consistent compare.

Lemma insertSorted_front x l :
  (forall z, In z l -> compare x z < 0) ->
  insertSorted compare x l = x :: l.
Proof.
  destruct l as [|z zs]; intros Hall; simpl; [reflexivity|].
  destruct (Z.ltb_spec (compare x z) 0) as [|Hge]; [reflexivity|].
  specialize (Hall z (or_introl eq_refl)). lia.
Qed.

Lemma insertSorted_filter_out (p : A -> bool) x sorted :
  p x = false ->
  filter p (insertSorted compare x sorted) = filter p sorted.
Proof.
  intros Hpx. induction sorted as [|y rest IH]; simpl.
  - now rewrite Hpx.
  - destruct (compare x y <? 0); simpl.
    + now rewrite Hpx.
    + now rewrite IH.
Qed.

Lemma insertSorted_filter_in (p : A -> bool) x sorted :
  p x = true ->
  StronglySorted (fun a b => compare a b <= 0) sorted ->
  filter p (insertSorted compare x sorted)
  = insertSorted compare x (filter p sorted).
Proof.
  intros Hpx.
  induction sorted as [|y rest IH]; intros Hsorted; simpl.
  - now rewrite Hpx.
  - inversion Hsorted as [|? ? Hrest Hy]; subst.
    destruct (Z.ltb_spec (compare x y) 0) as [Hlt|Hge].
    + change (filter p (x :: y :: rest) = insertSorted compare x (filter p (y :: rest))).
      rewrite insertSorted_front.
      * simpl. now rewrite Hpx.
      * intros z Hz. apply filter_In in Hz. destruct Hz as [[<-|Hz] _];
          [assumption|].
        rewrite Forall_forall in Hy.
        apply (compare_before_trans compare Hconsistent x y z);
          [assumption | now apply Hy].
    + simpl. destruct (p y); simpl.
      * destruct (Z.ltb_spec (compare x y) 0); [lia|].
        now rewrite IH.
      * now apply IH.
Qed.

(** Sorting commutes with selecting: the selected elements of the sorted
    list are the sorted selected elements. *)
Lemma Array_sort_filter (p : A -> bool) xs :
  filter p (Array_sort compare xs) = Array_sort compare (filter p xs).
Proof.
  unfold Array_sort.
  assert (G : forall acc,
             StronglySorted (fun a b => compare a b <= 0) acc ->
             filter p
               (fold_left (fun sorted x => insertSorted compare x sorted)
                  xs acc)
             = fold_left (fun sorted x => insertSorted compare x sorted)
                 (filter p xs) (filter p acc)).
  { induction xs as [|x xs IH]; intros acc Hacc; simpl; [reflexivity|].
    rewrite IH by now apply insertSorted_sorted.
    destruct (p x) eqn:Hpx; simpl.
    - now rewrite insertSorted_filter_in.
    - now rewrite insertSorted_filter_out. }
  apply (G []). constructor.
Qed.

(** Where one class comes after everything else, a sorted list is the
    others followed by the class. *)
Lemma sorted_class_last (p : A -> bool) l :
  (forall a b, p a = true -> p b = false -> 0 < compare a b) ->
  StronglySorted (fun a b => compare a b <= 0) l ->
  l = (filter (fun a => negb (p a)) l ++ filter p l)%list.
Proof.
  intros Hlast. induction l as [|y rest IH]; intros Hsorted; [reflexivity|].
  inversion Hsorted as [|? ? Hrest Hy]; subst. simpl.
  destruct (p y) eqn:Hpy; simpl.
  - assert (Hnone : filter (fun a => negb (p a)) rest = []).
    { rewrite Forall_forall in Hy. clear -Hy Hlast Hpy.
      induction rest as [|z zs IHz]; [reflexivity|]. simpl.
      destruct (p z) eqn:Hpz; simpl.
      - apply IHz. intros; apply Hy. now right.
      - specialize (Hy z (or_introl eq_refl)).
        specialize (Hlast y z Hpy Hpz). lia. }
    rewrite Hnone. simpl. f_equal.
    rewrite (IH Hrest) at 1. now rewrite Hnone.
  - f_equal. now apply IH.
Qed.

End ArraySortFilter.

Lemma StronglySorted_weaken {A : Type} (R S : A -> A -> Prop) l :
  (forall a b, In a l -> In b l -> R a b -> S a b) ->
  StronglySorted R l -> StronglySorted S l.
Proof.
  induction l as [|y rest IH]; intros Himp Hsorted; [constructor|].
  inversion Hsorted as [|? ? Hrest Hy]; subst. constructor.
  - apply IH; [|assumption]. intros a b Ha Hb. apply Himp; now right.
  - rewrite Forall_forall in *. intros z Hz.
    apply Himp; [now left | now right | now apply Hy].
Qed.

(** *** Consistent comparators *)

Lemma consistent_ext {A : Type} (c c' : A -> A -> Z) :
  (forall a b, c' a b = c a b) -> consistent c -> consistent c'.
Proof.
  intros Hext [Hanti Htrans]. split.
  - intros a b. rewrite !Hext. apply Hanti.
  - intros a b d. rewrite !Hext. apply Htrans.
Qed.

Lemma consistent_flip {A : Type} (c : A -> A -> Z) :
  consistent c -> consistent (fun a b => - c a b).
Proof.
  intros [Hanti Htrans]. split.
  - intros a b. specialize (Hanti a b). lia.
  - intros a b d Hab Hbd.
    assert (c b a <= 0) by (specialize (Hanti a b); lia).
    assert (c d b <= 0) by (specialize (Hanti b d); lia).
    assert (c d a <= 0) by (now apply (Htrans d b a)).
    specialize (Hanti a d). lia.
Qed.

Lemma compareItems_desc lc sortBy a b :
  sortBy <> quantity ->
  compareItems lc sortBy desc a b
  = compareItems (fun x y => - lc x y) sortBy asc a b.
Proof.
  intros Hfield. unfold compareItems. destruct sortBy.
  - destruct (noLocation a), (noLocation b); cbn [andb negb]; try reflexivity. lia.
  - destruct (Z.eqb_spec (lc (PickListItem.productTitle a)
                            (PickListItem.productTitle b)) 0) as [E|E];
      destruct (Z.eqb_spec (- lc (PickListItem.productTitle a)
                              (PickListItem.productTitle b)) 0);
      cbn [andb negb]; lia.
  - congruence.
Qed.

Lemma compareItems_quantity_consistent lc direction :
  consistent (compareItems lc quantity direction).
Proof.
  unfold consistent, compareItems. destruct direction; split; intros; lia.
Qed.

Lemma compareItems_location_asc_consistent lc :
  consistent lc -> consistent (compareItems lc binLocation asc).
Proof.
  intros [Hanti Htrans]. unfold compareItems. split.
  - intros a b.
    specialize (Hanti (nullish (PickListItem.binLocation a) "")
                  (nullish (PickListItem.binLocation b) "")).
    destruct (noLocation a), (noLocation b); cbn [andb negb]; lia.
  - intros a b d.
    specialize (Htrans (nullish (PickListItem.binLocation a) "")
                  (nullish (PickListItem.binLocation b) "")
                  (nullish (PickListItem.binLocation d) "")).
    destruct (noLocation a), (noLocation b), (noLocation d); cbn [andb negb]; lia.
Qed.

Lemma compareItems_product_asc_consistent lc :
  consistent lc -> consistent (compareItems lc product asc).
Proof.
  intros Hlc. pose proof Hlc as [Hanti Htrans]. unfold compareItems. split.
  - intros a b.
    pose proof (Hanti (PickListItem.productTitle a)
                  (PickListItem.productTitle b)).
    pose proof (Hanti (PickListItem.variantTitle a)
                  (PickListItem.variantTitle b)).
    destruct (Z.eqb_spec (lc (PickListItem.productTitle a)
                            (PickListItem.productTitle b)) 0);
      destruct (Z.eqb_spec (lc (PickListItem.productTitle b)
                              (PickListItem.productTitle a)) 0);
      cbn [andb negb]; lia.
  - intros a b d.
    set (pa := PickListItem.productTitle a).
    set (pb := PickListItem.productTitle b).
    set (pd := PickListItem.productTitle d).
    set (va := PickListItem.variantTitle a).
    set (vb := PickListItem.variantTitle b).
    set (vd := PickListItem.variantTitle d).
    pose proof (Hanti pa pb). pose proof (Hanti pb pd).
    pose proof (Hanti pa pd).
    pose proof (Htrans pa pb pd). pose proof (Htrans pd pb pa).
    pose proof (Htrans pd pa pb). pose proof (Htrans pb pd pa).
    pose proof (Htrans va vb vd).
    pose proof (compare_before_trans lc Hlc pa pb pd).
    pose proof (compare_before_trans lc Hlc pd pa pb).
    destruct (Z.eqb_spec (lc pa pb) 0);
      destruct (Z.eqb_spec (lc pb pd) 0);
      destruct (Z.eqb_spec (lc pa pd) 0);
      cbn [andb negb]; lia.
Qed.

Lemma compareItems_consistent lc sortBy direction :
  consistent lc -> consistent (compareItems lc sortBy direction).
Proof.
  intros Hlc. destruct sortBy.
  - destruct direction.
    + now apply compareItems_location_asc_consistent.
    + apply (consistent_ext (compareItems (fun x y => - lc x y)
                               binLocation asc)).
      * intros; apply compareItems_desc; discriminate.
      * apply compareItems_location_asc_consistent.
        now apply consistent_flip.
  - destruct direction.
    + now apply compareItems_product_asc_consistent.
    + apply (consistent_ext (compareItems (fun x y => - lc x y) product asc)).
      * intros; apply compareItems_desc; discriminate.
      * apply compareItems_product_asc_consistent.
        now apply consistent_flip.
  - apply compareItems_quantity_consistent.
Qed.

Lemma String_compare_not_after_trans a :
  forall b c,
    String.compare a b <> Gt -> String.compare b c <> Gt ->
    String.compare a c <> Gt.
Proof.
  induction a as [|x a IH]; intros [|y b] [|z c]; simpl; try congruence.
  unfold Ascii.compare.
  destruct (N.compare_spec (N_of_ascii x) (N_of_ascii y)),
    (N.compare_spec (N_of_ascii y) (N_of_ascii z)),
    (N.compare_spec (N_of_ascii x) (N_of_ascii z));
    try congruence; try (exfalso; lia); apply IH.
Qed.

Lemma codeUnitCompare_consistent : consistent codeUnitCompare.
Proof.
  split.
  - intros a b. unfold codeUnitCompare.
    rewrite (String.compare_antisym a b).
    destruct (String.compare b a); reflexivity.
  - intros a b c. unfold codeUnitCompare.
    pose proof (String_compare_not_after_trans a b c) as Htrans.
    destruct (String.compare a b), (String.compare b c),
      (String.compare a c); try lia; intros _ _; exfalso;
      apply Htrans; congruence.
Qed.

(** X13.  [sortItems] returns a rearrangement of its argument: whatever the
    field, the direction and the locale, no item is lost, added or
    duplicated. *)
Theorem sortItems_permutation lc items sortBy direction :
  Permutation (sortItems lc items sortBy direction) items.
Proof. apply Array_sort_perm. Qed.

(** X14.  Sorted by quantity, the list is in non-decreasing order of
    quantity when ascending and in non-increasing order when descending. *)
Theorem sortItems_by_quantity lc items direction :
  StronglySorted (quantityOrdered direction)
    (sortItems lc items quantity direction).
Proof.
  unfold sortItems.
  apply (StronglySorted_weaken
           (fun a b => compareItems lc quantity direction a b <= 0)).
  - intros a b _ _. unfold compareItems, quantityOrdered.
    destruct direction; lia.
  - apply Array_sort_sorted, compareItems_quantity_consistent.
Qed.

(** X15.  The sort by quantity is stable: items of equal quantity keep the
    order they had, in both directions. *)
Theorem sortItems_quantity_ties_keep_order lc items direction q :
  filter (fun item => PickListItem.quantity item =? q)
    (sortItems lc items quantity direction)
  = filter (fun item => PickListItem.quantity item =? q) items.
Proof.
  unfold sortItems. apply Array_sort_stable.
  - apply compareItems_quantity_consistent.
  - intros a b Ha Hb.
    apply Z.eqb_eq in Ha. apply Z.eqb_eq in Hb.
    unfold compareItems. destruct direction; lia.
Qed.

(** X16.  Sorted by bin location, the items without a location (null or
    the empty string) come last, in the order they had, in both directions;
    before them stand the shelved items, sorted among themselves by
    location in the direction asked for. *)
Theorem sortItems_missing_locations_last lc items direction :
  consistent lc ->
  sortItems lc items binLocation direction
  = (sortItems lc (filter hasLocation items) binLocation direction
     ++ filter noLocation items)%list
  /\ StronglySorted (locationOrdered lc direction)
       (sortItems lc (filter hasLocation items) binLocation direction).
Proof.
  intros Hlc. unfold sortItems.
  pose proof (compareItems_consistent lc binLocation direction Hlc) as Hc.
  set (c := compareItems lc binLocation direction) in *.
  split.
  - rewrite (sorted_class_last c noLocation (Array_sort c items)).
    + f_equal.
      * apply (Array_sort_filter c Hc).
      * apply (Array_sort_stable c Hc).
        intros a b Ha Hb. unfold c, compareItems. now rewrite Ha, Hb.
    + intros a b Ha Hb. unfold c, compareItems. rewrite Ha, Hb.
      cbn [andb]. lia.
    + now apply Array_sort_sorted.
  - apply (StronglySorted_weaken (fun a b => c a b <= 0)).
    + intros a b Ha Hb.
      apply (Permutation_in _ (Array_sort_perm c _)) in Ha, Hb.
      apply filter_In in Ha, Hb.
      destruct Ha as [_ Ha], Hb as [_ Hb].
      unfold hasLocation in Ha, Hb.
      apply negb_true_iff in Ha, Hb.
      unfold c, compareItems, locationOrdered. rewrite Ha, Hb.
      cbn [andb]. destruct direction; lia.
    + now apply Array_sort_sorted.
Qed.

Lemma sortItems_missing_locations_last_witness :
  sortItems codeUnitCompare Picks.items binLocation desc
  = (sortItems codeUnitCompare (filter hasLocation Picks.items)
       binLocation desc
     ++ filter noLocation Picks.items)%list
  /\ StronglySorted (locationOrdered codeUnitCompare desc)
       (sortItems codeUnitCompare (filter hasLocation Picks.items)
          binLocation desc).
Proof.
  apply sortItems_missing_locations_last.
  apply codeUnitCompare_consistent.
Defined.

(** X17.  Sorted by product, the list is ordered by product title and,
    among items whose product titles compare equal, by variant title; the
    direction applies to both. *)
Theorem sortItems_by_product lc items direction :
  consistent lc ->
  StronglySorted (productOrdered lc direction)
    (sortItems lc items product direction).
Proof.
  intros Hlc. unfold sortItems.
  apply (StronglySorted_weaken
           (fun a b => compareItems lc product direction a b <= 0)).
  - intros a b _ _. unfold compareItems, productOrdered.
    destruct (Z.eqb_spec (lc (PickListItem.productTitle a)
                            (PickListItem.productTitle b)) 0);
      cbn [negb]; destruct direction; lia.
  - now apply Array_sort_sorted, compareItems_consistent.
Qed.

Lemma sortItems_by_product_witness :
  StronglySorted (productOrdered codeUnitCompare asc)
    (sortItems codeUnitCompare Picks.items product asc).
Proof.
  apply sortItems_by_product.
  apply codeUnitCompare_consistent.
Defined.

(* ------------------------------------------------------------------------- *)
(** ** The pick list pipeline *)

Lemma JsMap_of_snoc {V : Type} (entries : list (string * V)) entry :
  JsMap_of (entries ++ [entry])
  = JsMap.set (JsMap_of entries) (fst entry) (snd entry).
Proof. unfold JsMap_of. now rewrite fold_left_app. Qed.

Lemma JsMap_of_get {V : Type} (entries : list (string * V)) k :
  JsMap.get (JsMap_of entries) k
  = option_map snd (lastRow (fun e => (fst e =? k)%string) entries).
Proof.
  unfold lastRow.
  induction entries as [|e entries IH] using rev_ind; [reflexivity|].
  rewrite JsMap_of_snoc, rev_app_distr. simpl.
  destruct (fst e =? k)%string eqn:E.
  - apply String.eqb_eq in E. subst k. now rewrite JsMap_get_set_same.
  - apply String.eqb_neq in E. now rewrite JsMap_get_set_other.
Qed.

Lemma lastRow_map_filter {A B : Type} (f : A -> B) (p : A -> bool)
  (q : B -> bool) rows :
  lastRow q (map f (filter p rows))
  = option_map f (lastRow (fun a => p a && q (f a)) rows).
Proof.
  unfold lastRow.
  induction rows as [|a rows IH] using rev_ind; [reflexivity|].
  rewrite filter_app, map_app, !rev_app_distr. cbn [filter].
  destruct (p a) eqn:Hp; simpl; rewrite Hp; simpl.
  - destruct (q (f a)); [reflexivity | exact IH].
  - exact IH.
Qed.

Lemma lastRow_ext {A : Type} (p q : A -> bool) rows :
  (forall a, In a rows -> p a = q a) -> lastRow p rows = lastRow q rows.
Proof.
  unfold lastRow. intros Hext.
  assert (Hrev : forall a, In a (rev rows) -> p a = q a)
    by (intros a Ha; apply Hext; now apply in_rev).
  clear Hext. induction (rev rows) as [|a l IH]; [reflexivity|].
  simpl. rewrite (Hrev a) by now left.
  destruct (q a); [reflexivity|]. apply IH. intros; apply Hrev. now right.
Qed.

Lemma existsb_eqb_mem (x : string) xs :
  In x xs -> existsb (fun y => (y =? x)%string) xs = true.
Proof.
  intros Hin. apply existsb_exists. exists x. split; [assumption|].
  apply String.eqb_refl.
Qed.

Section PickListFacts.

Context {Env : Type} `{AdminApi Env}.

Lemma pickWorld_eta (w : PickWorld Env) :
  mkPickWorld (bundleRows w) (binLocations w) (admin w) = w.
Proof. now destruct w. Qed.

(** With no variants to look up, [fetchVariantInfo] asks nothing. *)
Lemma fetchVariantInfo_nil (w : PickWorld Env) :
  fetchVariantInfo [] w = (Ok JsMap.empty, w).
Proof. reflexivity. Qed.

(** The variant lookup touches no table, and returns when the shop
    answers. *)
Lemma fetchVariantInfo_returns variantGids (w : PickWorld Env) :
  reliableVariants Env ->
  exists info e,
    fetchVariantInfo variantGids w
    = (Ok info, mkPickWorld (bundleRows w) (binLocations w) e).
Proof.
  intros Hreliable. unfold fetchVariantInfo.
  destruct (List.length variantGids =? 0)%nat.
  - exists JsMap.empty, (admin w). unfold pret. now rewrite pickWorld_eta.
  - generalize (batches 50 variantGids) (@JsMap.empty VariantInfo.t).
    intros bs. revert w.
    induction bs as [|batch bs IH]; intros w acc; simpl.
    + exists acc, (admin w). unfold pret. now rewrite pickWorld_eta.
    + unfold pbind at 1. unfold pbind at 1. unfold graphql at 1.
      destruct (Hreliable batch (admin w)) as (nodes & e & Hq).
      rewrite Hq. unfold pret at 1.
      destruct (IH (mkPickWorld (bundleRows w) (binLocations w) e)
                  (fold_left setVariantInfo (nullish nodes []) acc))
        as (info & e' & Hrun).
      exists info, e'. exact Hrun.
Qed.

(** The variants and quantities the loop of [expandBundles] produces do not
    depend on the variant information. *)
Lemma expandLine_units rows shop bundleMap info (items : list OrderLineItem.t) :
  (forall item,
      In item items ->
      JsMap.get bundleMap (OrderLineItem.variantGid item)
      = expandableBundle rows shop (OrderLineItem.variantGid item)) ->
  forall acc,
    map unitsOfLine (fold_left (expandLine bundleMap info) items acc)
    = (map unitsOfLine acc ++ flat_map (pickedUnits rows shop) items)%list.
Proof.
  induction items as [|item items IH]; intros Hmap acc; simpl.
  - now rewrite app_nil_r.
  - rewrite IH by (intros; apply Hmap; now right).
    set (rest := flat_map (pickedUnits rows shop) items).
    unfold expandLine, pickedUnits.
    rewrite (Hmap item) by now left.
    destruct (expandableBundle rows shop (OrderLineItem.variantGid item))
      as [b|].
    + rewrite app_assoc. f_equal.
      generalize (BundleRow.children b). intros children. revert acc.
      induction children as [|child children IHc]; intros acc; simpl.
      * now rewrite app_nil_r.
      * rewrite IHc, map_app. simpl. now rewrite <- app_assoc.
    + rewrite map_app. simpl. now rewrite <- app_assoc.
Qed.

(** The map [expandBundles] builds holds, for each variant of the line
    items, the expandable bundle of the shop with that parent. *)
Lemma bundleMap_get rows shop (variantGids : list string) gid :
  In gid variantGids ->
  JsMap.get
    (JsMap_of
       (map (fun b => (BundleRow.parentGid b, b))
          (filter
             (fun b =>
                (BundleRow.shopId b =? shop)%string
                && existsb (fun g => (g =? BundleRow.parentGid b)%string)
                     variantGids
                && BundleRow.expandOnPick b)
             rows)))
    gid
  = expandableBundle rows shop gid.
Proof.
  intros Hin. rewrite JsMap_of_get.
  rewrite (lastRow_map_filter (fun b => (BundleRow.parentGid b, b))).
  unfold expandableBundle.
  rewrite (lastRow_ext _
             (fun b =>
                (BundleRow.shopId b =? shop)%string
                && (BundleRow.parentGid b =? gid)%string
                && BundleRow.expandOnPick b)).
  - now destruct (lastRow _ rows).
  - intros b _. cbn [fst snd].
    destruct (BundleRow.parentGid b =? gid)%string eqn:E.
    + apply String.eqb_eq in E. rewrite E.
      rewrite (existsb_eqb_mem gid variantGids Hin).
      now rewrite !andb_true_r.
    + now rewrite !andb_false_r.
Qed.

Lemma fold_push {A : Type} (items acc : list A) :
  fold_left (fun result item => (result ++ [item])%list) items acc
  = (acc ++ items)%list.
Proof.
  revert acc. induction items as [|x items IH]; intros acc; simpl.
  - now rewrite app_nil_r.
  - now rewrite IH, <- app_assoc.
Qed.

Lemma expandBundles_idle shop lineItems (w : PickWorld Env) :
  (forall b,
      In b (bundleRows w) ->
      BundleRow.shopId b = shop ->
      BundleRow.expandOnPick b = true ->
      ~ In (BundleRow.parentGid b)
          (map OrderLineItem.variantGid lineItems)) ->
  expandBundles shop lineItems w = (Ok lineItems, w).
Proof.
  intros Hnone. unfold expandBundles, pbind, bundleRow_findMany.
  assert (Hempty :
            filter
              (fun b =>
                 (BundleRow.shopId b =? shop)%string
                 && existsb (fun gid => (gid =? BundleRow.parentGid b)%string)
                      (uniqueStrings (map OrderLineItem.variantGid lineItems))
                 && BundleRow.expandOnPick b)
              (bundleRows w) = []).
  { induction (bundleRows w) as [|b rows IH];
      [reflexivity|]. simpl.
    destruct ((BundleRow.shopId b =? shop)%string
              && existsb (fun gid => (gid =? BundleRow.parentGid b)%string)
                   (uniqueStrings (map OrderLineItem.variantGid lineItems))
              && BundleRow.expandOnPick b) eqn:E.
    - exfalso. apply andb_true_iff in E. destruct E as [E Hexp].
      apply andb_true_iff in E. destruct E as [Hshop Hex].
      apply String.eqb_eq in Hshop.
      apply existsb_exists in Hex. destruct Hex as (g & Hg & Hgb).
      apply String.eqb_eq in Hgb. subst g.
      apply (proj1 (uniqueStrings_In _ _)) in Hg.
      exact (Hnone b (or_introl eq_refl) Hshop Hexp Hg).
    - apply IH. intros b' Hb'. apply Hnone. now right. }
  rewrite Hempty. cbn [map flat_map]. rewrite fetchVariantInfo_nil.
  unfold pret. f_equal. f_equal.
  unfold expandLine. cbn [JsMap_of fold_left JsMap.empty JsMap.get].
  apply (fold_push lineItems []).
Qed.

Lemma expandBundles_run shop lineItems (w : PickWorld Env) :
  reliableVariants Env ->
  exists expanded e,
    expandBundles shop lineItems w
    = (Ok expanded, mkPickWorld (bundleRows w) (binLocations w) e)
    /\ map unitsOfLine expanded
       = flat_map (pickedUnits (bundleRows w) shop) lineItems.
Proof.
  intros Hreliable. unfold expandBundles, pbind, bundleRow_findMany.
  set (variantGids := uniqueStrings (map OrderLineItem.variantGid lineItems)).
  set (expandable := filter _ (bundleRows w)).
  destruct (fetchVariantInfo_returns
              (flat_map
                 (fun b => map BundleChild.childGid (BundleRow.children b))
                 expandable) w Hreliable) as (info & e & Hrun).
  rewrite Hrun. unfold pret. eexists. exists e. split; [reflexivity|].
  rewrite (expandLine_units (bundleRows w) shop); [reflexivity|].
  intros item Hitem. cbn [bundleRows]. apply bundleMap_get.
  apply uniqueStrings_In, in_map, Hitem.
Qed.

Lemma addBinLocations_run shop items (w : PickWorld Env) :
  addBinLocations shop items w
  = (Ok (map (shelved (binLocations w) shop) items), w).
Proof.
  unfold addBinLocations, pbind, binLocation_findMany, pret.
  f_equal. f_equal. apply map_ext_in. intros item Hitem.
  unfold shelved. f_equal.
  rewrite JsMap_of_get.
  rewrite (lastRow_map_filter
             (fun l => (BinLocation.variantGid l, BinLocation.location l))).
  unfold locationOf.
  rewrite (lastRow_ext _
             (fun l =>
                (BinLocation.shopId l =? shop)%string
                && (BinLocation.variantGid l =? OrderLineItem.variantGid item)%string)).
  - now destruct (lastRow _ (binLocations w)).
  - intros l _. cbn [fst snd].
    destruct (BinLocation.variantGid l =? OrderLineItem.variantGid item)%string
      eqn:E.
    + apply String.eqb_eq in E. rewrite E.
      rewrite (existsb_eqb_mem (OrderLineItem.variantGid item)
                 (map OrderLineItem.variantGid items))
        by (apply in_map, Hitem).
      now rewrite !andb_true_r.
    + now rewrite !andb_false_r.
Qed.

(** X18.  Where no expandable bundle of the shop has one of the ordered
    variants as its parent, [expandBundles] returns the line items as they
    are and sends no request, whatever the shop would answer. *)
Theorem expandBundles_nothing_to_expand shop lineItems (w : PickWorld Env) :
  (forall b,
      In b (bundleRows w) ->
      BundleRow.shopId b = shop ->
      BundleRow.expandOnPick b = true ->
      ~ In (BundleRow.parentGid b)
          (map OrderLineItem.variantGid lineItems)) ->
  expandBundles shop lineItems w = (Ok lineItems, w).
Proof. apply expandBundles_idle. Qed.

(** X19.  When the shop answers the variant queries and the quantities
    that meet in the expansion, and their products, are safe integers,
    [expandBundles] returns, and what it returns is, line by line and in
    order: for a line whose variant is the parent of an expandable bundle
    of the shop, one line per child with the ordered quantity times the
    child's quantity (none at all for a bundle without children, and the
    children are not expanded in turn); for any other line, its variant and
    quantity.  The tables are not touched. *)
Theorem expandBundles_units shop lineItems (w : PickWorld Env) :
  reliableVariants Env ->
  safeExpansion (bundleRows w) shop lineItems ->
  exists expanded e,
    expandBundles shop lineItems w
    = (Ok expanded, mkPickWorld (bundleRows w) (binLocations w) e)
    /\ map unitsOfLine expanded
       = flat_map (pickedUnits (bundleRows w) shop) lineItems.
Proof. intros Hreliable _. now apply expandBundles_run. Qed.

(** X20.  [addBinLocations] always returns, changes nothing, keeps the
    items, their fields and their order, and gives each item the location
    of the row of this shop for its variant, or null when the shop has no
    row for it: rows of other shops are never used. *)
Theorem addBinLocations_shelves shop items (w : PickWorld Env) :
  addBinLocations shop items w
  = (Ok (map (shelved (binLocations w) shop) items), w).
Proof. apply addBinLocations_run. Qed.

End PickListFacts.

Lemma Storefront_reliable : reliableVariants Storefront.t.
Proof. intros ids e. eexists. exists e. reflexivity. Qed.

Lemma expandBundles_nothing_to_expand_witness :
  expandBundles Sample.SHOP [Counter.canLine] Counter.world
  = (Ok [Counter.canLine], Counter.world).
Proof.
  apply expandBundles_nothing_to_expand.
  intros b [<-|[]] _ _ [Hsame|[]]. discriminate Hsame.
Defined.

Lemma expandBundles_units_witness :
  exists expanded e,
    expandBundles Sample.SHOP [Counter.packLine; Counter.canLine]
      Counter.world
    = (Ok expanded,
       mkPickWorld (bundleRows Counter.world) (binLocations Counter.world) e)
    /\ map unitsOfLine expanded
       = flat_map (pickedUnits (bundleRows Counter.world) Sample.SHOP)
           [Counter.packLine; Counter.canLine].
Proof.
  apply expandBundles_units.
  - apply Storefront_reliable.
  - intros item [<-|[<-|[]]];
      (split; [unfold safeInteger, MAX_SAFE_INTEGER; simpl; lia|]);
      intros b child Hb Hchild; vm_compute in Hb; [|discriminate].
    injection Hb as <-. destruct Hchild as [<-|[]].
    split; unfold safeInteger, MAX_SAFE_INTEGER; simpl; lia.
Defined.

(** *** Fetching the orders *)

Section FetchOrders.

Context {Env : Type} `{AdminApi Env}.

Lemma fetchOrderPages_tables fuel filters :
  forall cursor orders (w : PickWorld Env),
    bundleRows (snd (fetchOrderPages fuel filters cursor orders w))
    = bundleRows w
    /\ binLocations (snd (fetchOrderPages fuel filters cursor orders w))
       = binLocations w.
Proof.
  induction fuel as [|fuel IH]; intros cursor orders w; simpl.
  - now split.
  - unfold pbind, graphql.
    destruct (queryOrders 50 cursor (queryString filters) (admin w))
      as [[[ordersData|]|e] env'].
    + destruct (match OrdersQueryResult.pageInfo ordersData with
                | Some pageInfo => PageInfo.hasNextPage pageInfo
                | None => false
                end).
      * match goal with
        | |- context [fetchOrderPages fuel filters ?c ?o ?w1] =>
            destruct (IH c o w1) as [Hb Hl]
        end.
        split; [exact Hb | exact Hl].
      * now split.
    + now split.
    + now split.
Qed.

Lemma pushOrder_selected filters ids (nodes : list OrderNode.t) :
  PickListFilters.orderIds filters = Some ids ->
  forall orders,
    Forall (fun order => In (Order.id order) ids) orders ->
    Forall (fun order => In (Order.id order) ids)
      (fold_left (pushOrder filters) nodes orders).
Proof.
  intros Hids. induction nodes as [|node nodes IH]; intros orders Hall;
    simpl; [assumption|].
  apply IH. unfold pushOrder. rewrite Hids.
  destruct (existsb (fun id => (id =? OrderNode.id node)%string) ids) eqn:E;
    simpl; [|assumption].
  apply Forall_app. split; [assumption|].
  constructor; [|constructor]. simpl.
  apply existsb_exists in E. destruct E as (id & Hid & Heq).
  apply String.eqb_eq in Heq. now subst id.
Qed.

Lemma fetchOrderPages_selected fuel filters ids :
  PickListFilters.orderIds filters = Some ids ->
  forall cursor orders (w w' : PickWorld Env) fetched,
    Forall (fun order => In (Order.id order) ids) orders ->
    fetchOrderPages fuel filters cursor orders w = (Ok (Some fetched), w') ->
    Forall (fun order => In (Order.id order) ids) fetched.
Proof.
  intros Hids.
  induction fuel as [|fuel IH]; intros cursor orders w w' fetched Hall;
    simpl.
  - unfold pret. discriminate.
  - unfold pbind at 1. unfold graphql at 1.
    destruct (queryOrders 50 cursor (queryString filters) (admin w))
      as [[[ordersData|]|e] env'].
    + destruct (match OrdersQueryResult.pageInfo ordersData with
                | Some pageInfo => PageInfo.hasNextPage pageInfo
                | None => false
                end).
      * apply IH. now apply (pushOrder_selected filters ids).
      * unfold pret. intros [= <- _].
        now apply (pushOrder_selected filters ids).
    + unfold pret. intros [= <- _]. assumption.
    + discriminate.
Qed.

(** X21.  With a manual selection of orders, [fetchOrders] returns no order
    outside the selection, however many pages the shop serves and whatever
    they hold; with an empty selection it returns no order at all.  It
    never touches the tables. *)
Theorem fetchOrders_manual_selection fuel filters ids (w w' : PickWorld Env)
  orders :
  PickListFilters.orderIds filters = Some ids ->
  fetchOrders fuel filters w = (Ok (Some orders), w') ->
  Forall (fun order => In (Order.id order) ids) orders
  /\ (ids = [] -> orders = [])
  /\ bundleRows w' = bundleRows w
  /\ binLocations w' = binLocations w.
Proof.
  intros Hids Hrun.
  assert (Hall : Forall (fun order => In (Order.id order) ids) orders).
  { apply (fetchOrderPages_selected fuel filters ids Hids None [] w w');
      [constructor | exact Hrun]. }
  split; [exact Hall|]. split.
  - intros ->. destruct orders as [|order rest]; [reflexivity|].
    inversion Hall as [|? ? Hin _]. destruct Hin.
  - pose proof (fetchOrderPages_tables fuel filters None [] w) as Htables.
    unfold fetchOrders in Hrun. now rewrite Hrun in Htables.
Qed.

End FetchOrders.

Lemma fetchOrders_manual_selection_witness :
  Forall (fun order => In (Order.id order) ["gid://shopify/Order/2"])
    (match fst (fetchOrders 2 (Counter.filters (Some ["gid://shopify/Order/2"]))
                  Counter.world) with
     | Ok (Some orders) => orders
     | _ => []
     end).
Proof.
  apply (fetchOrders_manual_selection 2
           (Counter.filters (Some ["gid://shopify/Order/2"]))
           ["gid://shopify/Order/2"] Counter.world Counter.world).
  - reflexivity.
  - reflexivity.
Defined.

(** *** The pick list as a whole *)

Lemma aggregateItems_entries items :
  map OrderLineItem.variantGid (aggregateItems items)
  = uniqueStrings (map OrderLineItem.variantGid items)
  /\ forall o,
       In o (aggregateItems items) ->
       OrderLineItem.quantity o
       = summedQuantity (OrderLineItem.variantGid o) items.
Proof.
  destruct (aggregate_invariant items) as (Hnd & Horder & _ & Hget).
  set (m := fold_left aggregateStep items JsMap.empty) in *.
  assert (Hentry : forall k o, In (k, o) m -> JsMap.get m k = Some o)
    by (intros k o; now apply JsMap_In_get).
  split.
  - rewrite <- Horder.
    unfold aggregateItems, JsMap.values, JsMap.keys. fold m.
    rewrite map_map. apply map_ext_in. intros [k o] Hin. simpl.
    destruct (Hget k o (Hentry k o Hin)) as (first & _ & ->). reflexivity.
  - intros o Ho. unfold aggregateItems, JsMap.values in Ho. fold m in Ho.
    apply in_map_iff in Ho as ([k o'] & <- & Hin). simpl.
    destruct (Hget k o' (Hentry k o' Hin)) as (first & _ & ->). reflexivity.
Qed.

Lemma pickTotal_sum items :
  pickTotal items = fold_right Z.add 0 (map PickListItem.quantity items).
Proof.
  unfold pickTotal.
  assert (G : forall acc,
             fold_left (fun sum item => sum + PickListItem.quantity item)
               items acc
             = acc + fold_right Z.add 0 (map PickListItem.quantity items)).
  { induction items as [|x items IH]; intros acc; simpl; [lia|].
    rewrite IH. lia. }
  rewrite G. lia.
Qed.

Lemma sum_permutation (l l' : list Z) :
  Permutation l l' -> fold_right Z.add 0 l = fold_right Z.add 0 l'.
Proof. induction 1; simpl; lia. Qed.

Lemma linesOf_fold orders :
  forall acc,
    fold_left
      (fun lineItems order => (lineItems ++ Order.lineItems order)%list)
      orders acc
    = (acc ++ linesOf orders)%list.
Proof.
  induction orders as [|order orders IH]; intros acc; simpl.
  - now rewrite app_nil_r.
  - now rewrite IH, <- app_assoc.
Qed.

Lemma summedQuantity_units gid items :
  summedQuantity gid items = unitsOf gid (map unitsOfLine items).
Proof.
  unfold summedQuantity, unitsOf, itemsOfVariant.
  induction items as [|x items IH]; [reflexivity|]. simpl.
  destruct (OrderLineItem.variantGid x =? gid)%string; simpl; now rewrite IH.
Qed.

Lemma lineTotal_units items :
  lineTotal items = allUnits (map unitsOfLine items).
Proof. unfold lineTotal, allUnits. now rewrite map_map. Qed.

Section GeneratePickList.

Context {Env : Type} `{AdminApi Env}.

Variable localeCompare : string -> string -> Z.

(** X22.  When the shop answers the variant queries, [fetchOrders] has
    returned the orders, and the quantities that meet in the expansion,
    their products and the sum of the magnitudes of all units to be picked
    are safe integers, [generatePickList] returns a list that counts the
    orders, holds every variant to be picked exactly once (the children in
    place of an expandable bundle) with the units of all its lines added
    up and the bin of the shop for it, and whose [totalItems] is the sum of
    all units to be picked. *)
Theorem generatePickList_totals fuel filters sortBy sortDirection
  (w w1 : PickWorld Env) orders :
  reliableVariants Env ->
  fetchOrders fuel filters w = (Ok (Some orders), w1) ->
  safeExpansion (bundleRows w) (PickListFilters.shop filters)
    (linesOf orders) ->
  magnitude
    (map snd
       (flat_map (pickedUnits (bundleRows w) (PickListFilters.shop filters))
          (linesOf orders)))
  <= MAX_SAFE_INTEGER ->
  exists result w',
    generatePickList localeCompare fuel filters sortBy sortDirection w
    = (Ok (Some result), w')
    /\ let units :=
         flat_map
           (pickedUnits (bundleRows w) (PickListFilters.shop filters))
           (linesOf orders) in
       PickListResult.orderCount result = Z.of_nat (List.length orders)
       /\ PickListResult.totalItems result = allUnits units
       /\ Permutation
            (map PickListItem.variantGid (PickListResult.items result))
            (uniqueStrings (map fst units))
       /\ forall item,
            In item (PickListResult.items result) ->
            PickListItem.quantity item
            = unitsOf (PickListItem.variantGid item) units
            /\ PickListItem.binLocation item
               = locationOf (binLocations w) (PickListFilters.shop filters)
                   (PickListItem.variantGid item).
Proof.
  intros Hreliable Hfetch _ _.
  pose proof (fetchOrderPages_tables fuel filters None [] w) as Htables.
  unfold fetchOrders in Hfetch. rewrite Hfetch in Htables.
  destruct Htables as [Hrows Hbins]. cbn [snd] in Hrows, Hbins.
  set (shop := PickListFilters.shop filters).
  destruct (expandBundles_run shop (linesOf orders) w1 Hreliable)
    as (expanded & e & Hexpand & Hunits).
  rewrite Hrows in Hunits.
  set (w2 := mkPickWorld (bundleRows w1) (binLocations w1) e) in *.
  set (shelvedItems :=
         map (shelved (binLocations w) shop) (aggregateItems expanded)).
  set (sorted := sortItems localeCompare shelvedItems sortBy sortDirection).
  destruct (newDate e) as [t e'] eqn:Hdate.
  exists (PickListResult.mk sorted (Z.of_nat (List.length orders))
            (pickTotal sorted) t).
  exists (mkPickWorld (bundleRows w1) (binLocations w1) e').
  split.
  - unfold generatePickList, pbind at 1, fetchOrders. rewrite Hfetch.
    rewrite (linesOf_fold orders []). cbn [app].
    unfold pbind at 1. fold shop. rewrite Hexpand.
    unfold pbind at 1. rewrite addBinLocations_run.
    unfold pbind at 1, New_Date. cbn [admin bundleRows binLocations w2].
    rewrite Hdate. unfold pret. cbn [binLocations w2]. rewrite Hbins.
    reflexivity.
  - cbv zeta. cbn [PickListResult.orderCount PickListResult.totalItems
                   PickListResult.items].
    fold shop. rewrite <- Hunits.
    pose proof (Array_sort_perm (compareItems localeCompare sortBy sortDirection)
                  shelvedItems) as Hperm.
    fold (sortItems localeCompare shelvedItems sortBy sortDirection) in Hperm.
    fold sorted in Hperm.
    destruct (aggregateItems_entries expanded) as [Hgids Hquantity].
    split; [reflexivity|]. split; [|split].
    + rewrite pickTotal_sum.
      rewrite (sum_permutation _ _
                 (Permutation_map PickListItem.quantity Hperm)).
      unfold shelvedItems. rewrite map_map.
      transitivity (lineTotal (aggregateItems expanded)); [reflexivity|].
      unfold aggregateItems. rewrite aggregate_fold_total.
      rewrite (lineTotal_units expanded). reflexivity.
    + rewrite (Permutation_map PickListItem.variantGid Hperm).
      unfold shelvedItems. rewrite map_map.
      change (Permutation
                (map OrderLineItem.variantGid (aggregateItems expanded))
                (uniqueStrings (map fst (map unitsOfLine expanded)))).
      rewrite Hgids, map_map. reflexivity.
    + intros item Hitem.
      apply (Permutation_in _ Hperm) in Hitem.
      unfold shelvedItems in Hitem.
      apply in_map_iff in Hitem as (o & <- & Ho).
      cbn [shelved PickListItem.quantity PickListItem.variantGid
             PickListItem.binLocation].
      split; [|reflexivity].
      rewrite (Hquantity o Ho). apply summedQuantity_units.
Qed.

(** X23.  When the first response of the shop carries no orders (no
    [data], or no [orders] in it), [generatePickList] does not fail: it
    returns an empty pick list with no orders and no items, after that one
    request and without asking for any variant. *)
Theorem generatePickList_without_orders fuel filters sortBy sortDirection
  (w : PickWorld Env) e :
  queryOrders 50 None (queryString filters) (admin w) = (Ok None, e) ->
  generatePickList localeCompare (S fuel) filters sortBy sortDirection w
  = (Ok (Some (PickListResult.mk [] 0 0 (fst (newDate e)))),
     mkPickWorld (bundleRows w) (binLocations w) (snd (newDate e))).
Proof.
  intros Hquery.
  unfold generatePickList, pbind at 1, fetchOrders.
  cbn [fetchOrderPages]. unfold pbind at 1, graphql. rewrite Hquery.
  unfold pret at 1. cbn [fold_left].
  unfold pbind at 1.
  rewrite expandBundles_idle by (intros b _ _ _ []).
  unfold pbind at 1. rewrite addBinLocations_run.
  unfold pbind, New_Date, pret. cbn [admin bundleRows binLocations].
  destruct (newDate e) as [t e']. reflexivity.
Qed.

End GeneratePickList.

Lemma generatePickList_totals_witness :
  exists result w',
    generatePickList codeUnitCompare 2 (Counter.filters None) binLocation asc
      Counter.world
    = (Ok (Some result), w')
    /\ PickListResult.orderCount result = 2
    /\ PickListResult.totalItems result = 52.
Proof.
  destruct (generatePickList_totals codeUnitCompare 2 (Counter.filters None)
              binLocation asc Counter.world Counter.world
              [Order.mk "gid://shopify/Order/1" "#1001"
                 [Counter.packLine; Counter.canLine];
               Order.mk "gid://shopify/Order/2" "#1002"
                 [OrderLineItem.mk Sample.CAN "Lager" "Single"
                    (Some "LAGER-1") 1]]
              Storefront_reliable eq_refl)
    as (result & w' & Hrun & Hcount & Htotal & _).
  { intros item Hitem.
    assert (Hlines : item = Counter.packLine \/ item = Counter.canLine
                     \/ item
                        = OrderLineItem.mk Sample.CAN "Lager" "Single"
                            (Some "LAGER-1") 1)
      by (destruct Hitem as [<-|[<-|[<-|[]]]]; auto).
    destruct Hlines as [-> | [-> | ->]];
      (split; [unfold safeInteger, MAX_SAFE_INTEGER; simpl; lia|]);
      intros b child Hb Hchild; vm_compute in Hb; try discriminate.
    injection Hb as <-. destruct Hchild as [<-|[]].
    split; unfold safeInteger, MAX_SAFE_INTEGER; simpl; lia. }
  { vm_compute. discriminate. }
  exists result, w'. split; [exact Hrun|]. split; [exact Hcount|].
  exact Htotal.
Defined.

Lemma generatePickList_without_orders_witness :
  generatePickList codeUnitCompare 1 (Counter.filters None) binLocation asc
    Counter.silent
  = (Ok (Some (PickListResult.mk [] 0 0 1767225600000)), Counter.silent).
Proof.
  exact (generatePickList_without_orders codeUnitCompare 0
           (Counter.filters None) binLocation asc Counter.silent
           (admin Counter.silent) eq_refl).
Defined.

(* ------------------------------------------------------------------------- *)
(** ** The webhook routes *)

Section Routes.

Context {Env : Type} `{Environment Env} `{Sessions Env}.

Variable decode : string -> Decoded.

(** A sync only removes locks and never touches the bundles, however it
    ends. *)
Lemma processInventoryUpdate_frame event (w w' : World Env) r :
  processInventoryUpdate event w = (r, w') ->
  incl (syncLocks w') (syncLocks w) /\ bundles w' = bundles w.
Proof.
  unfold processInventoryUpdate. unfold bind at 1.
  destruct (findVariantForInventoryItem _ w) as [[found|e] w1] eqn:Efind;
    apply keeps_store_request in Efind as [Hl1 Hb1].
  2:{ intros [= _ <-]. rewrite Hl1, Hb1. split; [apply incl_refl | reflexivity]. }
  destruct found as [variantGid|].
  2:{ intros [= _ <-]. rewrite Hl1, Hb1. split; [apply incl_refl | reflexivity]. }
  destruct (truthy variantGid); simpl.
  2:{ intros [= _ <-]. rewrite Hl1, Hb1. split; [apply incl_refl | reflexivity]. }
  unfold bind at 1. rewrite findBundlesForVariant_run.
  destruct (foundBundles _ _ w1) as [|b bs].
  { intros [= _ <-]. rewrite Hl1, Hb1. split; [apply incl_refl | reflexivity]. }
  unfold bind.
  destruct (syncBundles _ _ _ _ _ _ w1) as [[total|e] w2] eqn:Eloop;
    apply syncBundles_locks in Eloop as [Hincl Hb2];
    intros [= _ <-]; rewrite <- Hl1, <- Hb1; split; assumption.
Qed.

(** X24.  Once the webhook is authenticated, the direct route answers 200
    whatever happens: without admin access, when the sync returns and when
    it throws.  It leaves no lock behind that was not there before and does
    not touch the bundles; when the authentication itself throws, so does
    the route, with nothing changed. *)
Theorem webhookAction_acknowledges (w : World Env) :
  (forall context,
      exists w',
        webhookAction (Ok context) w = (Ok (Response.mk None 200), w')
        /\ incl (syncLocks w') (syncLocks w)
        /\ bundles w' = bundles w)
  /\ (forall e, webhookAction (Throw e) w = (Throw e, w)).
Proof.
  split; [|reflexivity].
  intros context. unfold webhookAction, bind at 1, lift.
  destruct (WebhookContext.admin context); simpl.
  - unfold bind at 1, try_catch, bind at 1.
    destruct (processInventoryUpdate _ w) as [[result|e] w1] eqn:Erun;
      apply processInventoryUpdate_frame in Erun as [Hincl Hb];
      unfold ret; exists w1; auto.
  - exists w. unfold ret. split; [reflexivity|].
    split; [apply incl_refl | reflexivity].
Qed.

Lemma find_id_existsb id (locks : list SyncLock.t) :
  find (fun l => (SyncLock.id l =? id)%string) locks = None ->
  existsb (fun l => (SyncLock.id l =? id)%string) locks = false.
Proof.
  induction locks as [|l locks IH]; simpl; [reflexivity|].
  destruct (SyncLock.id l =? id)%string; [discriminate | exact IH].
Qed.

(** The route from the duplicate check on: what it answers and what it
    leaves in the tables. *)
Lemma processMessage_run messageId shop event (w : World Env) :
  exists response w',
    processMessage messageId shop event w = (Ok response, w')
    /\ bundles w' = bundles w
    /\ ((Response.status response = 200
         /\ ((exists l, In l (syncLocks w)
                        /\ SyncLock.id l = pubsubLockId messageId) ->
             w' = w))
        \/ (Response.status response = 500
            /\ (forall l, In l (syncLocks w) ->
                          SyncLock.id l <> pubsubLockId messageId)
            /\ forall l, In l (syncLocks w') ->
                         SyncLock.id l <> pubsubLockId messageId)).
Proof.
  unfold processMessage, bind at 1, syncLock_findUnique.
  destruct (find _ (syncLocks w)) as [existing|] eqn:Efind.
  - exists (Response.mk None 200), w. unfold ret.
    split; [reflexivity|]. split; [reflexivity|]. left. now split.
  - assert (Hfresh : forall l, In l (syncLocks w) ->
                               SyncLock.id l <> pubsubLockId messageId).
    { intros l Hl Hid.
      apply (find_none _ _ Efind) in Hl. apply String.eqb_neq in Hl.
      contradiction. }
    assert (Hnodup : (exists l, In l (syncLocks w)
                                /\ SyncLock.id l = pubsubLockId messageId)
                     -> False)
      by (intros (l & Hl & Hid); exact (Hfresh l Hl Hid)).
    apply find_id_existsb in Efind.
    unfold bind at 1, try_catch at 1, bind at 1, Date_now.
    destruct (dateNow (env w)) as [now e1].
    unfold bind at 1, syncLock_create. cbn [syncLocks bundles env SyncLock.id].
    rewrite Efind. unfold ret at 1. cbn [negb].
    set (w1 := mkWorld _ (bundles w) e1).
    assert (Hdone :
              forall wx : World Env,
                bundles wx = bundles w ->
                exists w',
                  (try_catch (syncLock_delete (pubsubLockId messageId))
                     (fun _ => ret tt) ;;;
                   ret (Response.mk (Some "Processing failed") 500)) wx
                  = (Ok (Response.mk (Some "Processing failed") 500), w')
                  /\ bundles w' = bundles w
                  /\ forall l, In l (syncLocks w') ->
                               SyncLock.id l <> pubsubLockId messageId).
    { intros wx Hbx. unfold bind.
      change (try_catch (syncLock_delete (pubsubLockId messageId))
                (fun _ => ret tt))
        with (@releaseSyncLock Env (pubsubLockId messageId)).
      rewrite releaseSyncLock_run. unfold ret. eexists.
      split; [reflexivity|]. split; [exact Hbx|].
      cbn [syncLocks]. intros l Hl. apply filter_In in Hl as [_ Hl].
      apply negb_true_iff in Hl. now apply String.eqb_neq. }
    unfold try_catch at 1, bind at 1.
    destruct (request (unauthenticatedAdmin shop) w1) as [[[]|e] w2] eqn:Eadmin;
      apply keeps_store_request in Eadmin as [Hl2 Hb2].
    + unfold bind at 1.
      destruct (processInventoryUpdate event w2) as [[result|e] w3] eqn:Erun;
        apply processInventoryUpdate_frame in Erun as [Hincl Hb3].
      * exists (Response.mk None 200), w3. unfold ret.
        split; [reflexivity|]. split; [now rewrite Hb3, Hb2|].
        left. split; [reflexivity|]. intros Hdup. destruct (Hnodup Hdup).
      * destruct (Hdone w3) as (w' & Hrun & Hb & Hgone);
          [now rewrite Hb3, Hb2|].
        exists (Response.mk (Some "Processing failed") 500), w'.
        split; [exact Hrun|]. split; [exact Hb|]. right. auto.
    + destruct (Hdone w2) as (w' & Hrun & Hb & Hgone); [exact Hb2|].
      exists (Response.mk (Some "Processing failed") 500), w'.
      split; [exact Hrun|]. split; [exact Hb|]. right. auto.
Qed.

(** The route as a whole, on every parsed body but [null]. *)
Lemma pubsubAction_run json (w : World Env) :
  json <> JsonNull ->
  exists response w',
    pubsubAction decode json w = (Ok response, w')
    /\ bundles w' = bundles w
    /\ ((Response.status response = 400 /\ w' = w)
        \/ (Response.status response = 200
            /\ forall message,
                 json = JsonValue (PubSubEnvelope.mk (Some message)) ->
                 (exists l, In l (syncLocks w)
                            /\ SyncLock.id l
                               = pubsubLockId (PubSubMessage.messageId message)) ->
                 w' = w)
        \/ (Response.status response = 500
            /\ exists message,
                 json = JsonValue (PubSubEnvelope.mk (Some message))
                 /\ (forall l, In l (syncLocks w) ->
                               SyncLock.id l
                               <> pubsubLockId (PubSubMessage.messageId message))
                 /\ forall l, In l (syncLocks w') ->
                              SyncLock.id l
                              <> pubsubLockId (PubSubMessage.messageId message))).
Proof.
  intros Hjson. unfold pubsubAction.
  destruct json as [| |[[message|]]]; cbn [PubSubEnvelope.message];
    [ | contradiction | | ];
    try (eexists _, w; split; [reflexivity|]; split; [reflexivity|];
         left; now split).
  destruct (truthy (nullish (PubSubMessage.data message) "")); cbn [negb];
    try (eexists _, w; split; [reflexivity|]; split; [reflexivity|];
         left; now split).
  destruct (decode _) as [| |payload];
    try (eexists _, w; split; [reflexivity|]; split; [reflexivity|];
         left; now split);
    try (eexists _, w; split; [reflexivity|]; split; [reflexivity|];
         right; left; now split).
  destruct (InventoryLevelUpdatePayload.inventory_item_id payload) as [item|];
    try (eexists _, w; split; [reflexivity|]; split; [reflexivity|];
         right; left; now split).
  destruct (InventoryLevelUpdatePayload.location_id payload) as [location|];
    try (eexists _, w; split; [reflexivity|]; split; [reflexivity|];
         right; left; now split).
  destruct (InventoryLevelUpdatePayload.available payload) as [available|];
    try (eexists _, w; split; [reflexivity|]; split; [reflexivity|];
         right; left; now split).
  cbv zeta.
  destruct (truthy (nullish (shopOf _ payload) "")); cbn [negb];
    try (eexists _, w; split; [reflexivity|]; split; [reflexivity|];
         left; now split).
  destruct (processMessage_run (PubSubMessage.messageId message)
              (nullish (shopOf (PubSubMessage.attributes message) payload) "")
              (InventoryUpdateEvent.mk item location available
                 (nullish (shopOf (PubSubMessage.attributes message) payload) ""))
              w)
    as (response & w' & Hrun & Hb & Hcases).
  exists response, w'. split; [exact Hrun|]. split; [exact Hb|].
  right. destruct Hcases as [[Hok Hdup]|[Hfail [Hfresh Hgone]]].
  - left. split; [exact Hok|]. intros message' [= <-]. exact Hdup.
  - right. split; [exact Hfail|]. exists message. auto.
Qed.

(** X25.  On every parsed body but [null] - a body that is not JSON
    included - the Pub/Sub route answers, with status 200, 400 or 500 and
    not with an exception; it never touches the bundles, and a 400 (body
    not JSON, no message data, data that does not parse, no shop) leaves
    everything as it was.  On the body [null] the destructuring, which
    stands outside every [try], throws: the route rejects, with nothing
    changed. *)
Theorem pubsubAction_always_responds json (w : World Env) :
  match json with
  | JsonNull =>
      pubsubAction decode json w
      = (Throw (JsError DESTRUCTURE_NULL_MESSAGE), w)
  | _ =>
      exists response w',
        pubsubAction decode json w = (Ok response, w')
        /\ (Response.status response = 200
            \/ Response.status response = 400
            \/ Response.status response = 500)
        /\ (Response.status response = 400 -> w' = w)
        /\ bundles w' = bundles w
  end.
Proof.
  assert (Hanswer :
            json <> JsonNull ->
            exists response w',
              pubsubAction decode json w = (Ok response, w')
              /\ (Response.status response = 200
                  \/ Response.status response = 400
                  \/ Response.status response = 500)
              /\ (Response.status response = 400 -> w' = w)
              /\ bundles w' = bundles w).
  { intros Hjson.
    destruct (pubsubAction_run json w Hjson)
      as (response & w' & Hrun & Hb & Hcases).
    exists response, w'. split; [exact Hrun|].
    destruct Hcases as [[Hs Hw]|[[Hs _]|[Hs _]]].
    - split; [auto|]. split; [auto | exact Hb].
    - split; [auto|]. split; [|exact Hb]. rewrite Hs. discriminate.
    - split; [auto|]. split; [|exact Hb]. rewrite Hs. discriminate. }
  destruct json as [| |pubsubMessage];
    [apply Hanswer; discriminate | reflexivity | apply Hanswer; discriminate].
Qed.

(** X26.  A push whose message already has its row [pubsub-<messageId>] in
    the lock table, expired or not, is never processed: the route answers
    without an error status (200, or 400 for a malformed push), asks the
    shop nothing and changes nothing. *)
Theorem pubsubAction_duplicate message (w : World Env) :
  (exists l,
      In l (syncLocks w)
      /\ SyncLock.id l = pubsubLockId (PubSubMessage.messageId message)) ->
  exists response,
    pubsubAction decode (JsonValue (PubSubEnvelope.mk (Some message))) w
    = (Ok response, w)
    /\ (Response.status response = 200 \/ Response.status response = 400).
Proof.
  intros Hdup.
  destruct (pubsubAction_run (JsonValue (PubSubEnvelope.mk (Some message))) w)
    as (response & w' & Hrun & _ & Hcases); [discriminate|].
  exists response.
  destruct Hcases as [[Hs ->]|[[Hs Hw]|[_ (m & [= <-] & Hfresh & _)]]].
  - split; [exact Hrun | auto].
  - rewrite (Hw message eq_refl Hdup) in Hrun. split; [exact Hrun | auto].
  - destruct Hdup as (l & Hl & Hid). destruct (Hfresh l Hl Hid).
Qed.

(** X27.  When the Pub/Sub route answers 500 (the session lookup or the
    sync threw), the row [pubsub-<messageId>] it had created is gone from
    the lock table, so the retry of the message is not taken for a
    duplicate. *)
Theorem pubsubAction_failure_frees_message json (w w' : World Env) response :
  pubsubAction decode json w = (Ok response, w') ->
  Response.status response = 500 ->
  exists message,
    json = JsonValue (PubSubEnvelope.mk (Some message))
    /\ forall l,
         In l (syncLocks w') ->
         SyncLock.id l <> pubsubLockId (PubSubMessage.messageId message).
Proof.
  intros Hrun Hstatus.
  assert (Hjson : json <> JsonNull).
  { intros ->. unfold pubsubAction, lift in Hrun. discriminate. }
  destruct (pubsubAction_run json w Hjson)
    as (response0 & w0 & Hrun0 & _ & Hcases).
  rewrite Hrun in Hrun0. injection Hrun0 as <- <-.
  destruct Hcases as [[Hs _]|[[Hs _]|[_ (m & Hm & _ & Hgone)]]];
    try (rewrite Hs in Hstatus; discriminate).
  exists m. split; [exact Hm | exact Hgone].
Qed.

End Routes.

(** The data of the sample push are the base64 of its payload. *)
Example Push_data_decoded :
  Wire.decode Push.DATA
  = Parsed (InventoryLevelUpdatePayload.mk (Some 1) (Some 7) (Some 48) None).
Proof. vm_compute. reflexivity. Qed.

Lemma pubsubAction_duplicate_witness :
  exists response,
    pubsubAction Wire.decode Push.json (Sample.world [Push.seen] false)
    = (Ok response, Sample.world [Push.seen] false)
    /\ (Response.status response = 200 \/ Response.status response = 400).
Proof.
  apply (pubsubAction_duplicate Wire.decode Push.message
           (Sample.world [Push.seen] false)).
  exists Push.seen. split; [now left | reflexivity].
Defined.

(** During an outage the sync of the sample push throws: the route answers
    500 and leaves no row for the message. *)
Lemma pubsubAction_failure_frees_message_witness :
  fst (pubsubAction Wire.decode Push.json (Sample.world [] true))
  = Ok (Response.mk (Some "Processing failed") 500)
  /\ exists message,
       Push.json = JsonValue (PubSubEnvelope.mk (Some message))
       /\ forall l,
            In l (syncLocks
                    (snd (pubsubAction Wire.decode Push.json
                            (Sample.world [] true)))) ->
            SyncLock.id l <> pubsubLockId (PubSubMessage.messageId message).
Proof.
  assert (Hrun : fst (pubsubAction Wire.decode Push.json
                        (Sample.world [] true))
                 = Ok (Response.mk (Some "Processing failed") 500))
    by (vm_compute; reflexivity).
  split; [exact Hrun|].
  apply (pubsubAction_failure_frees_message Wire.decode Push.json
           (Sample.world [] true) _
           (Response.mk (Some "Processing failed") 500)).
  - rewrite <- Hrun. apply surjective_pairing.
  - reflexivity.
Defined.

(* ------------------------------------------------------------------------- *)
(** ** Variant information from a shop front *)

Lemma Storefront_node_id s gid node :
  Storefront.node s gid = Some node -> VariantNode.id node = Some gid.
Proof.
  unfold Storefront.node. intros Hfind. apply find_some in Hfind as [_ Hid].
  destruct (VariantNode.id node) as [i|]; [|discriminate].
  apply String.eqb_eq in Hid. now subst.
Qed.

Lemma fetchVariantInfo_batches (w : PickWorld Storefront.t) bs :
  forall acc,
    pfoldM
      (fun result batch =>
         pbind (graphql (queryVariants batch))
           (fun nodes =>
              pret (fold_left setVariantInfo (nullish nodes []) result)))
      bs acc w
    = (Ok
         (fold_left setVariantInfo
            (map (Storefront.node (admin w)) (List.concat bs)) acc),
       w).
Proof.
  induction bs as [|batch bs IH]; intros acc; [reflexivity|].
  cbn [pfoldM]. unfold pbind at 1, pbind at 1, graphql.
  cbn [queryVariants Storefront_AdminApi]. rewrite pickWorld_eta.
  unfold pret at 1. rewrite IH. cbn [List.concat nullish].
  now rewrite map_app, fold_left_app.
Qed.

Lemma setVariantInfo_get s (gids : list string) gid :
  JsMap.get
    (fold_left setVariantInfo (map (Storefront.node s) gids) JsMap.empty) gid
  = if existsb (fun g => (g =? gid)%string) gids && truthy gid
    then option_map infoOfNode (Storefront.node s gid)
    else None.
Proof.
  induction gids as [|g gids IH] using rev_ind; [reflexivity|].
  rewrite map_app, fold_left_app, existsb_app. cbn [map fold_left existsb].
  rewrite orb_false_r.
  set (m := fold_left setVariantInfo (map (Storefront.node s) gids)
              JsMap.empty) in *.
  unfold setVariantInfo.
  destruct (Storefront.node s g) as [node|] eqn:Enode.
  - rewrite (Storefront_node_id s g node Enode).
    destruct (g =? gid)%string eqn:E.
    + apply String.eqb_eq in E. subst g. rewrite orb_true_r. cbn [andb].
      destruct (truthy gid) eqn:Et.
      * rewrite JsMap_get_set_same, Enode. reflexivity.
      * rewrite IH, ?Et. now rewrite andb_false_r.
    + rewrite orb_false_r.
      destruct (truthy g); [|exact IH].
      apply String.eqb_neq in E. rewrite JsMap_get_set_other by exact E.
      exact IH.
  - destruct (g =? gid)%string eqn:E.
    + apply String.eqb_eq in E. subst g. rewrite orb_true_r. cbn [andb].
      rewrite IH, Enode.
      destruct (existsb _ gids && truthy gid), (truthy gid); reflexivity.
    + rewrite orb_false_r. exact IH.
Qed.

(** X28.  Against a shop front that answers from its catalogue,
    [fetchVariantInfo] returns a map that holds, for each requested,
    non-empty id the shop knows, the product title, title and SKU of its
    node ("Unknown Product" and "Default" standing in for a missing title),
    and no entry for an id the shop does not know or that was not
    requested, however the ids fall into batches of 50; it changes
    nothing. *)
Theorem fetchVariantInfo_reads variantGids (w : PickWorld Storefront.t) :
  exists info,
    fetchVariantInfo variantGids w = (Ok info, w)
    /\ forall gid,
         JsMap.get info gid
         = if existsb (fun g => (g =? gid)%string) variantGids && truthy gid
           then option_map infoOfNode (Storefront.node (admin w) gid)
           else None.
Proof.
  unfold fetchVariantInfo.
  destruct variantGids as [|g gids].
  - exists JsMap.empty. split; reflexivity.
  - cbn [List.length Nat.eqb].
    rewrite fetchVariantInfo_batches.
    rewrite concat_batches by lia.
    eexists. split; [reflexivity|].
    intros gid. apply setVariantInfo_get.
Qed.
